(** * ConfigParserEnhanced: the directive resolver and its lazy merged view

    A shallow embedding of [src/configparserenhanced/ConfigParserEnhanced.py]:
    the operation tokenizer ([regex_op_splitter], [regex_op_matcher],
    [get_op1_from_regex_match], [get_op2_from_regex_match]), the recursive
    resolver ([parse_configuration], [_parse_configuration_r],
    [_handler_generic], [_handler_use]) and the inner class
    [ConfigParserEnhancedDataSection] ([has_section], [has_option], [get],
    [add_section], [set], [parse_owner_section]).

    Text is modelled as [string] over 8-bit characters; the character
    classes of Python ([\w], [\d], white space) are the ASCII ones. *)

From Stdlib Require Import Ascii String List Arith Lia Bool.
From stdpp Require Import base option gmap sets list strings pretty.

Set Warnings "-clear-no-such-hyp".

(* ================================================================= *)
(** ** Python string helpers *)

Module Py.

Definition chr (n : nat) : ascii := ascii_of_nat n.

(** The line feed and the double quote, which have no literal here. *)
Definition LF : ascii := chr 10.
Definition DQUOTE : ascii := chr 34.

Definition code (c : ascii) : nat := nat_of_ascii c.

Definition between (lo hi : nat) (c : ascii) : bool :=
  (lo <=? code c) && (code c <=? hi).

(** [str.isspace] on the ASCII range: TAB, LF, VT, FF, CR, FS, GS, RS, US
    and the space. Beyond that range [str.split] and [str.strip] take more
    characters as white space (U+0085, U+00A0 and others): the model is
    that of the code on ASCII texts. *)
Definition isspace (c : ascii) : bool :=
  between 9 13 c || between 28 32 c.

Definition isdigit (c : ascii) : bool := between 48 57 c.

Definition isalpha (c : ascii) : bool := between 65 90 c || between 97 122 c.

(** [\w] on the ASCII range: letters, digits and the underscore. In a
    pattern on [str] Python's [\w] takes the word characters beyond that
    range too: the model is that of the code on ASCII texts. *)
Definition isword (c : ascii) : bool :=
  isalpha c || isdigit c || Ascii.eqb c "_"%char.

Fixpoint dropwhile (p : ascii -> bool) (l : list ascii) : list ascii :=
  match l with
  | [] => []
  | c :: l' => if p c then dropwhile p l' else l
  end.

Fixpoint takewhile (p : ascii -> bool) (l : list ascii) : list ascii :=
  match l with
  | [] => []
  | c :: l' => if p c then c :: takewhile p l' else []
  end.

Definition strip_with (p : ascii -> bool) (s : string) : string :=
  string_of_list_ascii
    (rev (dropwhile p (rev (dropwhile p (list_ascii_of_string s))))).

(** [s.strip()] *)
Definition strip (s : string) : string := strip_with isspace s.

(** [s.strip(chars)] *)
Definition strip_chars (chars : list ascii) (s : string) : string :=
  strip_with (fun c => existsb (Ascii.eqb c) chars) s.

(** [s.replace(a, b)] for one-character [a] and [b]. *)
Definition replace (a b : ascii) (s : string) : string :=
  string_of_list_ascii
    (map (fun c => if Ascii.eqb c a then b else c) (list_ascii_of_string s)).

(** [s.split()]: the maximal runs of characters that are not white space.
    The fuel is the length of the text, which every run shortens. *)
Fixpoint split_aux (fuel : nat) (l : list ascii) : list string :=
  match fuel with
  | 0 => []
  | S fuel' =>
      match dropwhile isspace l with
      | [] => []
      | l' =>
          string_of_list_ascii (takewhile (fun c => negb (isspace c)) l')
            :: split_aux fuel' (dropwhile (fun c => negb (isspace c)) l')
      end
  end.

Definition split (s : string) : list string :=
  let l := list_ascii_of_string s in split_aux (length l) l.

(** [str(x)] of an optional text: [None] prints as the word None. *)
Definition str (x : option string) : string :=
  match x with
  | Some s => s
  | None => "None"
  end.

(** Truth value of an optional text: [None] and the empty text are false. *)
Definition truthy (x : option string) : bool :=
  match x with
  | Some (String _ _) => true
  | _ => false
  end.

(** [needle in hay] on texts. *)
Fixpoint isprefix (p s : list ascii) : bool :=
  match p, s with
  | [], _ => true
  | a :: p', b :: s' => Ascii.eqb a b && isprefix p' s'
  | _ :: _, [] => false
  end.

Fixpoint contains_aux (p s : list ascii) : bool :=
  isprefix p s ||
  match s with
  | [] => false
  | _ :: s' => contains_aux p s'
  end.

Definition contains (needle hay : string) : bool :=
  contains_aux (list_ascii_of_string needle) (list_ascii_of_string hay).

End Py.

(* ================================================================= *)
(** ** A backtracking matcher for the regular expressions of [re] *)

Module Re.

Inductive cset_item : Type :=
| CWord                 (* \w *)
| CDigit                (* \d *)
| CLit (c : ascii).     (* a literal character, escaped or not *)

Inductive regex : Type :=
| REps
| RBol                          (* ^ *)
| RLit (c : ascii)
| RAny                          (* . *)
| RSet (items : list cset_item) (* [...] *)
| RSeq (r1 r2 : regex)
| RAlt (r1 r2 : regex)          (* r1|r2, r1 tried first *)
| RStar (r : regex)             (* r*, greedy *)
| RGroup (i : nat) (r : regex). (* the i-th capturing group *)

(** [r+] and [r?], both greedy. *)
Definition RPlus (r : regex) : regex := RSeq r (RStar r).
Definition ROpt (r : regex) : regex := RAlt r REps.

Definition item_matches (c : ascii) (it : cset_item) : bool :=
  match it with
  | CWord => Py.isword c
  | CDigit => Py.isdigit c
  | CLit d => Ascii.eqb c d
  end.

(** The text captured by each group that took part in the match, the most
    recent capture first. *)
Definition caps : Type := list (nat * string).

Fixpoint cap_get (i : nat) (g : caps) : option string :=
  match g with
  | [] => None
  | (j, s) :: g' => if Nat.eqb i j then Some s else cap_get i g'
  end.

(** Matching is in continuation-passing style: the continuation [k]
    receives the position, the rest of the text and the captures, and a
    [None] from it makes the matcher backtrack into the next alternative. *)
Definition cont (R : Type) : Type := nat -> list ascii -> caps -> option R.

(** The greedy star over a matcher [body]: one more round of [body] is
    tried first, and it counts only if it consumed text; [n] bounds the
    number of rounds. *)
Fixpoint star {R : Type} (body : nat -> list ascii -> caps -> cont R -> option R)
    (k : cont R) (n : nat) (pos : nat) (s : list ascii) (g : caps) : option R :=
  match n with
  | 0 => k pos s g
  | S n' =>
      match body pos s g
              (fun pos' s' g' =>
                 if pos <? pos' then star body k n' pos' s' g' else None) with
      | Some x => Some x
      | None => k pos s g
      end
  end.

Fixpoint run {R : Type} (r : regex) (pos : nat) (s : list ascii) (g : caps)
    (k : cont R) {struct r} : option R :=
  match r with
  | REps => k pos s g
  | RBol => if Nat.eqb pos 0 then k pos s g else None
  | RLit c =>
      match s with
      | d :: s' => if Ascii.eqb c d then k (S pos) s' g else None
      | [] => None
      end
  | RAny =>
      match s with
      | d :: s' => if Ascii.eqb d Py.LF then None else k (S pos) s' g
      | [] => None
      end
  | RSet items =>
      match s with
      | d :: s' => if existsb (item_matches d) items then k (S pos) s' g else None
      | [] => None
      end
  | RSeq r1 r2 => run r1 pos s g (fun pos' s' g' => run r2 pos' s' g' k)
  | RAlt r1 r2 =>
      match run r1 pos s g k with
      | Some x => Some x
      | None => run r2 pos s g k
      end
  | RStar r1 => star (run r1) k (length s) pos s g
  | RGroup i r1 =>
      run r1 pos s g
        (fun pos' s' g' =>
           k pos' s'
             ((i, string_of_list_ascii (firstn (pos' - pos) s)) :: g'))
  end.

(** Whether a pattern has no capturing group. *)
Fixpoint nocap (r : regex) : bool :=
  match r with
  | RSeq r1 r2 | RAlt r1 r2 => nocap r1 && nocap r2
  | RStar r1 => nocap r1
  | RGroup _ _ => false
  | _ => true
  end.

(** A match ends with [x] and [x] has the property [P]. *)
Definition yields {R : Type} (P : R -> Prop) (o : option R) : Prop :=
  exists x, o = Some x /\ P x.

(** A match object: what [groups()] returns, group 1 first. *)
Record rmatch : Type := { groups : list (option string) }.

(** [re.compile(r).match(text)] for a pattern with [n] groups. *)
Definition rematch (n : nat) (r : regex) (text : string) : option rmatch :=
  run r 0 (list_ascii_of_string text) []
    (fun _ _ g => Some {| groups := map (fun i => cap_get i g) (seq 1 n) |}).

End Re.

(* ================================================================= *)
(** ** The operation tokenizer *)

Import Re.

(** [[\w\d\-_]] *)
Definition cls_op : regex :=
  RSet [CWord; CDigit; CLit "-"%char; CLit "_"%char].

(** [[\w\d\-_ ]] *)
Definition cls_op_space : regex :=
  RSet [CWord; CDigit; CLit "-"%char; CLit "_"%char; CLit " "%char].

(** The pattern of [regex_op_splitter], piece by piece. After the anchor
    and group 1, [[\w\d\-_]+], comes an optional space and then, optionally,
    group 2: either a quote, group 3 [[\w\d\-_ ]+] and a quote, or group 4
    [[\w\d\-_]+] followed by any number of runs made of a space and any
    characters (a non-capturing group under a star). *)
Definition re_quoted : regex :=
  RSeq (RLit "'"%char) (RSeq (RGroup 3 (RPlus cls_op_space)) (RLit "'"%char)).

Definition re_suffix : regex := RStar (RSeq (RLit " "%char) (RStar RAny)).

Definition re_unquoted : regex := RSeq (RGroup 4 (RPlus cls_op)) re_suffix.

Definition re_operand : regex := RGroup 2 (RAlt re_quoted re_unquoted).

Definition regex_op_splitter : regex :=
  RSeq RBol
    (RSeq (RGroup 1 (RPlus cls_op))
       (RSeq (ROpt (RLit " "%char)) (ROpt re_operand))).

(** Python exceptions the engine raises, each with its message. *)
Inductive exn : Type :=
| KeyError (msg : string)
| TypeError (msg : string)
| ValueError (msg : string)
| RuntimeError (msg : string)
| IndexError (msg : string).

(** [regex_op_matcher]: the match is dropped when group 1 is not the first
    white-space-delimited token of the text. [text.split()[0]] raises
    [IndexError] on a text with no token. *)
Definition regex_op_matcher (text : string) : exn + option rmatch :=
  match rematch 4 regex_op_splitter text with
  | Some m =>
      match Py.split text with
      | [] => inl (IndexError "list index out of range")
      | tok :: _ =>
          if decide (nth 0 (groups m) None = Some tok) then inr (Some m)
          else inr None
      end
  | None => inr None
  end.

Definition get_op1_from_regex_match (m : rmatch) : string :=
  let output := Py.str (nth 0 (groups m) None) in
  let output := Py.strip output in
  Py.replace "-"%char "_"%char output.

Definition get_op2_from_regex_match (m : rmatch) : option string :=
  if Py.truthy (nth 2 (groups m) None) then
    Some (Py.strip (Py.str (nth 2 (groups m) None)))
  else if Py.truthy (nth 3 (groups m) None) then
    Some (Py.strip (Py.str (nth 3 (groups m) None)))
  else None.

(** The operands of a raw key, as the section walk extracts them. *)
Definition tokenize (key : string) : exn + option (string * option string) :=
  match regex_op_matcher key with
  | inl e => inl e
  | inr None => inr None
  | inr (Some m) =>
      inr (Some (get_op1_from_regex_match m, get_op2_from_regex_match m))
  end.


(* ================================================================= *)
(** ** Engine state and the exception monad *)

(** One entry of [_loginfo]; the constructor is the entry's [type]. *)
Inductive logentry : Type :=
| LogSectionEntry (name : string)
| LogSectionKeyValue (key value : string)
| LogSectionOperands (op1 : string) (op2 : option string)
| LogHandlerEntry (name : string)
| LogHandlerExit (name : string)
| LogCycleDetected (sec_src sec_dst : string)
| LogSectionExit (name : string).

(** Ghost events, absent from the source: every read of a section from
    [self.configdata] and every handler invocation leaves one. *)
Inductive probe : Type :=
| ProviderRead (name : string)
| HandlerCall (name : string).

(** The mutable state of one engine instance: the lazy view's [_data] and
    [_sections_checked], the engine's [_loginfo], the conditions that
    exception control reported without raising, and the ghost events. *)
Record state : Type := {
  data : gmap string (gmap string string);
  sections_checked : gset string;
  loginfo : list logentry;
  reported : list (string * exn);
  probes : list probe
}.

Definition initial_state : state :=
  {| data := ∅; sections_checked := ∅; loginfo := []; reported := [];
     probes := [] |}.

Definition with_data (f : gmap string (gmap string string) ->
                          gmap string (gmap string string)) (st : state) : state :=
  {| data := f (data st); sections_checked := sections_checked st;
     loginfo := loginfo st; reported := reported st; probes := probes st |}.

Definition with_checked (f : gset string -> gset string) (st : state) : state :=
  {| data := data st; sections_checked := f (sections_checked st);
     loginfo := loginfo st; reported := reported st; probes := probes st |}.

Definition with_loginfo (f : list logentry -> list logentry) (st : state) : state :=
  {| data := data st; sections_checked := sections_checked st;
     loginfo := f (loginfo st); reported := reported st; probes := probes st |}.

Definition with_reported (f : list (string * exn) -> list (string * exn))
    (st : state) : state :=
  {| data := data st; sections_checked := sections_checked st;
     loginfo := loginfo st; reported := f (reported st); probes := probes st |}.

Definition with_probes (f : list probe -> list probe) (st : state) : state :=
  {| data := data st; sections_checked := sections_checked st;
     loginfo := loginfo st; reported := reported st; probes := f (probes st) |}.

(** How a call ends: it returns, it raises (the state keeps what was
    written before the raise), or the model runs out of recursion fuel. *)
Inductive res (A : Type) : Type :=
| Ret (a : A) (st : state)
| Exc (e : exn) (st : state)
| Fuel.
Arguments Ret {A} a st.
Arguments Exc {A} e st.
Arguments Fuel {A}.

Definition M (A : Type) : Type := state -> res A.

Definition ret {A : Type} (a : A) : M A := fun st => Ret a st.

Definition raise {A : Type} (e : exn) : M A := fun st => Exc e st.

Definition out_of_fuel {A : Type} : M A := fun _ => Fuel.

Definition bind {A B : Type} (c : M A) (k : A -> M B) : M B :=
  fun st =>
    match c st with
    | Ret a st' => k a st'
    | Exc e st' => Exc e st'
    | Fuel => Fuel
    end.

Notation "'let*' x ':=' c 'in' k" := (bind c (fun x => k))
  (at level 10, x pattern, c at level 100, k at level 200).

Definition gets {A : Type} (f : state -> A) : M A := fun st => Ret (f st) st.

Definition modify (f : state -> state) : M unit := fun st => Ret tt (f st).

(** [try: c  except KeyError: pass] *)
Definition try_except_KeyError_pass (c : M unit) : M unit :=
  fun st =>
    match c st with
    | Exc (KeyError _) st' => Ret tt st'
    | r => r
    end.

(** [d[key]] on a dict: a missing key raises [KeyError(key)]. *)
Definition getitem {V : Type} (d : gmap string V) (key : string) : M V :=
  match d !! key with
  | Some v => ret v
  | None => raise (KeyError key)
  end.

(** [for x in l: acc = body(x, acc)] *)
Fixpoint for_each {A S : Type} (body : A -> S -> M S) (l : list A) (acc : S)
    : M S :=
  match l with
  | [] => ret acc
  | x :: l' => let* acc' := body x acc in for_each body l' acc'
  end.

Definition probe_add (p : probe) : M unit :=
  modify (with_probes (fun l => l ++ [p])).

(* ================================================================= *)
(** ** The engine *)

Section Engine.

(** The Section Provider, [self.configdata]: per section name, the ordered
    [(key, value)] pairs of the section; a key written without a value has
    the value [None] ([allow_no_value=True]). The provider is one that is
    loaded and that yields the pairs of its sections: the errors of the
    first access to the property [configdata] and the interpolation errors
    of the parser, which a percent sign in a value may cause, are not the
    resolver's and are left out here. *)
Variable configdata : gmap string (list (string * option string)).

(** [self.debug_level] *)
Variable debug_level : nat.

(** The exception-control policy of the engine: whether a condition of the
    given severity class is escalated into a raised exception. *)
Variable escalates : string -> bool.

(** Modelled from the spec: [exception_control_event] of the class
    [ExceptionControl], whose module is not among the sources. Section 7 of
    the spec gives a severity-tiered policy with a configurable threshold:
    on the low side the condition is only recorded and resolution
    continues, on the high side the same condition becomes a hard failure,
    which carries the message. *)
Definition exception_control_event (severity : string) (exc : string -> exn)
    (message : string) : M unit :=
  if escalates severity then raise (exc message)
  else modify (with_reported (fun l => l ++ [(severity, exc message)])).

(** [_loginfo_add]: entries are kept only when debugging is on. Every call
    of the source passes a dict with a [type], so its two checks pass. *)
Definition _loginfo_add (entry : logentry) : M unit :=
  if 0 <? debug_level then modify (with_loginfo (fun l => l ++ [entry]))
  else ret tt.

(** [parser_data_init] *)
Definition parser_data_init : gmap string string := ∅.

(** *** The lazy view, [ConfigParserEnhancedDataSection]

    The view holds a reference to its owner; the owner's entry point
    [parse_configuration] is the parameter [owner_parse_configuration].
    The constructor always sets an owner, so the tests [self.owner != None]
    hold. *)
Section DataSection.

Variable owner_parse_configuration : string -> M (gmap string string).

(** [set_owner_options] copies the owner's [exception_control_level] and
    [debug_level] into the view, which reads neither afterwards. *)
Definition set_owner_options : M unit := ret tt.

Definition parse_owner_section (section : string) : M unit :=
  let* _ := set_owner_options in
  let* _ := modify (with_checked (fun c => c ∪ {[section]})) in
  let* _ := owner_parse_configuration section in
  ret tt.

Definition has_section (section : string) : M bool :=
  let* checked := gets sections_checked in
  let* _ := (if decide (section ∈ checked) then ret tt
             else try_except_KeyError_pass (parse_owner_section section)) in
  let* d := gets data in
  ret (bool_decide (is_Some (d !! section))).

Definition options (section : string) : M (gmap string string) :=
  let* b := has_section section in
  if b then let* d := gets data in getitem d section
  else raise (KeyError ("Section " +:+ section +:+ " does not exist.")).

Definition has_option (section option : string) : M bool :=
  let* checked := gets sections_checked in
  let* _ := (if decide (section ∈ checked) then ret tt
             else parse_owner_section section) in
  let* d := gets data in
  let* sec := getitem d section in
  ret (bool_decide (is_Some (sec !! option))).

Definition get (section option : string) : M string :=
  let* checked := gets sections_checked in
  let* _ := (if decide (section ∈ checked) then ret tt
             else parse_owner_section section) in
  let* b := has_section section in
  if b then
    let* b' := has_option section option in
    if b' then
      let* d := gets data in
      let* sec := getitem d section in
      getitem sec option
    else
      raise (KeyError ("Missing section:option -> '" +:+ section +:+ "': '"
                         +:+ option +:+ "'"))
  else raise (KeyError ("Missing section " +:+ section +:+ ".")).

Definition add_section (section : string) : M unit :=
  let* b := has_section section in
  if b then ret tt
  else modify (with_data (fun d => <[section := ∅]> d)).

Definition set (section option value : string) : M string :=
  let* b := has_section section in
  let* _ := (if b then ret tt else add_section section) in
  let* d := gets data in
  let* sec := getitem d section in
  let* _ := (if decide (is_Some (sec !! option)) then ret tt
             else modify (with_data
                            (fun d => <[section := <[option := value]> sec]> d))) in
  let* d := gets data in
  let* sec := getitem d section in
  getitem sec option.

End DataSection.

(** *** Handlers *)

(** What a handler returns: [None] when it ends without a [return]. *)
Definition rval_str (rval : option nat) : string :=
  match rval with
  | Some n => pretty n
  | None => "None"
  end.

(** The shared [data] and [processed_sections] dicts are passed to a
    handler by reference; the model hands them back with the result. *)
Definition handler_result : Type :=
  option nat * gmap string string * gmap string bool.

Definition handler : Type :=
  string -> string -> string -> option string ->
  gmap string string -> gmap string bool -> string * string ->
  M handler_result.

Section Handlers.

(** The recursive driver, as the handlers call it. *)
Variable parse_r :
  option string -> option (gmap string string) -> option (gmap string bool) ->
  option string -> M (gmap string string * gmap string bool).

(** [parse_configuration]: the top-level entry point. Its argument is a
    text, so the [isinstance] test passes. *)
Definition parse_configuration_of (section : string) : M (gmap string string) :=
  if decide (section = EmptyString) then
    raise (ValueError "`section` cannot be empty.")
  else
    let* _ := modify (with_loginfo (fun _ => [])) in
    let* (data, _) := parse_r (Some section) None None None in
    ret data.

Definition _handler_generic : handler :=
  fun section_root section_name op1 op2 data processed_sections entry =>
    let* _ := probe_add (HandlerCall "_handler_generic") in
    let* _ := _loginfo_add (LogHandlerEntry "_handler_generic") in
    let* _ := set parse_configuration_of section_root (fst entry) (snd entry) in
    let* _ := _loginfo_add (LogHandlerExit "_handler_generic") in
    ret (None, data, processed_sections).

Definition cycle_message (op1 section_name : string) : string :=
  "Detected a cycle in `use` dependencies in .ini file." +:+
  String Py.LF ("- cannot load [" +:+ op1 +:+ "] from [" +:+ section_name +:+ "].").

Definition in_keys (op2 : option string) (processed_sections : gmap string bool)
    : bool :=
  match op2 with
  | Some name => bool_decide (is_Some (processed_sections !! name))
  | None => false
  end.

Definition _handler_use : handler :=
  fun section_root section_name op1 op2 data processed_sections entry =>
    let* _ := probe_add (HandlerCall "_handler_use") in
    let* _ := _loginfo_add (LogHandlerEntry "_handler_use") in
    let* (data, processed_sections) :=
      (if negb (in_keys op2 processed_sections) then
         parse_r op2 (Some data) (Some processed_sections) (Some section_root)
       else
         let* _ := _loginfo_add (LogCycleDetected section_name op1) in
         let* _ := exception_control_event "WARNING" ValueError
                     (cycle_message op1 section_name) in
         ret (data, processed_sections)) in
    let* _ := _loginfo_add (LogHandlerExit "_handler_use") in
    ret (Some 0, data, processed_sections).

(** [getattr(self, handler_name, None)]: the class has two attributes whose
    names begin with [_handler_]. *)
Definition getattr_handler (handler_name : string) : option handler :=
  if decide (handler_name = "_handler_use") then Some _handler_use
  else if decide (handler_name = "_handler_generic") then Some _handler_generic
  else None.

(** The body of the loop over the items of the current section. *)
Definition process_entry (section_name_root section_name : string)
    (entry : string * option string)
    (acc : gmap string string * gmap string bool)
    : M (gmap string string * gmap string bool) :=
  let '(data, processed_sections) := acc in
  let sec_k := Py.strip (fst entry) in
  let sec_v := Py.strip (Py.str (snd entry)) in
  let sec_v := Py.strip_chars [Py.DQUOTE] sec_v in
  let* _ := _loginfo_add (LogSectionKeyValue sec_k sec_v) in
  match regex_op_matcher sec_k with
  | inl e => raise e
  | inr None => ret (data, processed_sections)
  | inr (Some regex_op_splitter_m) =>
      let op1 := get_op1_from_regex_match regex_op_splitter_m in
      let op2 := get_op2_from_regex_match regex_op_splitter_m in
      let* _ := _loginfo_add (LogSectionOperands op1 op2) in
      let handler_name := "_handler_" +:+ op1 in
      match getattr_handler handler_name with
      | Some ophandler_f =>
          let* (rval, data, processed_sections) :=
            ophandler_f section_name_root section_name op1 op2 data
              processed_sections (sec_k, sec_v) in
          let* _ := (if decide (rval = Some 0) then ret tt
                     else exception_control_event "WARNING" RuntimeError
                            ("Handler `" +:+ handler_name +:+ "` returned "
                               +:+ rval_str rval +:+ " but we expected 0")) in
          ret (data, processed_sections)
      | None =>
          let* (rval, data, processed_sections) :=
            _handler_generic section_name_root section_name op1 op2 data
              processed_sections (sec_k, sec_v) in
          ret (data, processed_sections)
      end
  end.

(** [_parse_configuration_r] once its [section_name] is known not to be
    [None]. The source returns [data]; the model returns with it the
    [processed_sections] dict, which the callers share with the frame.
    Reading the section fails for a name that the provider does not have
    and for nothing else, the provider being loaded. *)
Definition parse_section (section_name : string)
    (data : option (gmap string string))
    (processed_sections : option (gmap string bool))
    (section_name_root : option string)
    : M (gmap string string * gmap string bool) :=
  let* _ := _loginfo_add (LogSectionEntry section_name) in
  let* section_name_root :=
    match section_name_root with
    | None =>
        let* _ := modify (with_checked (fun c => c ∪ {[section_name]})) in
        ret section_name
    | Some root => ret root
    end in
  let* _ := probe_add (ProviderRead section_name) in
  (* a section that the provider returns is never [None] *)
  let* current_section :=
    match configdata !! section_name with
    | Some sec => ret sec
    | None =>
        raise (KeyError ("ERROR: No section named `" +:+ section_name +:+
                           "` was found in the configuration file."))
    end in
  let data := default parser_data_init data in
  let processed_sections := default ∅ processed_sections in
  let processed_sections := <[section_name := true]> processed_sections in
  let* (data, processed_sections) :=
    for_each (process_entry section_name_root section_name) current_section
      (data, processed_sections) in
  let processed_sections := delete section_name processed_sections in
  let* _ := _loginfo_add (LogSectionExit section_name) in
  ret (data, processed_sections).

End Handlers.

(** [_parse_configuration_r]. The fuel bounds the number of section frames
    that may be nested; a call made inside a frame gets one less. *)
Fixpoint _parse_configuration_r (fuel : nat) (section_name : option string)
    (data : option (gmap string string))
    (processed_sections : option (gmap string bool))
    (section_name_root : option string) {struct fuel}
    : M (gmap string string * gmap string bool) :=
  match section_name with
  | None => raise (TypeError "ERROR: a section name must not be None.")
  | Some name =>
      match fuel with
      | 0 => out_of_fuel
      | S fuel' =>
          parse_section (_parse_configuration_r fuel') name data
            processed_sections section_name_root
      end
  end.

Definition parse_configuration (fuel : nat) (section : string)
    : M (gmap string string) :=
  parse_configuration_of (_parse_configuration_r fuel) section.

End Engine.


(* ================================================================= *)
(** ** Notions used by the statements *)

(** The characters of an operand that is not quoted, [[\w\d\-_]], and the
    texts made of one such character or more. *)
Definition op_char (c : ascii) : bool :=
  existsb (item_matches c) [CWord; CDigit; CLit "-"%char; CLit "_"%char].

Definition is_token (s : string) : Prop :=
  s <> EmptyString /\ forallb op_char (list_ascii_of_string s) = true.

(** The key and the value of a provider pair as the section walk
    normalises them before any handler sees them. *)
Definition entry_key (entry : string * option string) : string :=
  Py.strip (fst entry).

Definition entry_value (entry : string * option string) : string :=
  Py.strip_chars [Py.DQUOTE] (Py.strip (Py.str (snd entry))).

(** What [set(root, key, value)] leaves in the view's [data] when it does
    not have to resolve [root] first. *)
Definition store (root key value : string)
    (d : gmap string (gmap string string)) : gmap string (gmap string string) :=
  let sec := default ∅ (d !! root) in
  <[root := match sec !! key with
            | Some _ => sec
            | None => <[key := value]> sec
            end]> d.

(** The state in which a call ended, if it ended. *)
Definition final_state {A : Type} (r : res A) : option state :=
  match r with
  | Ret _ st => Some st
  | Exc _ st => Some st
  | Fuel => None
  end.

(** The answer of [get] read off the cache alone. *)
Definition cached_get (section option : string) (st : state) : res string :=
  match data st !! section with
  | Some sec =>
      match sec !! option with
      | Some v => Ret v st
      | None =>
          Exc (KeyError ("Missing section:option -> '" +:+ section +:+ "': '"
                           +:+ option +:+ "'")) st
      end
  | None => Exc (KeyError ("Missing section " +:+ section +:+ ".")) st
  end.

(** The target of a [use] directive, when the pair is one. *)
Definition use_target (entry : string * option string) : option string :=
  match tokenize (entry_key entry) with
  | inr (Some (op1, Some target)) =>
      if decide (op1 = "use") then Some target else None
  | _ => None
  end.

(** A set of section names closed under the [use] edges of the provider:
    it holds the targets of the [use] directives of its members. *)
Definition use_closed (configdata : gmap string (list (string * option string)))
    (U : gset string) : Prop :=
  forall s entries entry target,
    s ∈ U -> configdata !! s = Some entries -> entry ∈ entries ->
    use_target entry = Some target -> target ∈ U.

(** A test for [use_closed]. *)
Definition use_closedb (configdata : gmap string (list (string * option string)))
    (U : gset string) : bool :=
  forallb
    (fun se : string * list (string * option string) =>
       if decide (se.1 ∈ U) then
         forallb
           (fun entry =>
              match use_target entry with
              | Some target => bool_decide (target ∈ U)
              | None => true
              end) se.2
       else true)
    (map_to_list configdata).

(** The root with the targets of all the [use] directives of the
    provider: a closed set, whatever the provider. *)
Definition all_names (configdata : gmap string (list (string * option string)))
    (root : string) : gset string :=
  {[root]} ∪
  ⋃ (map (fun se : string * list (string * option string) =>
            list_to_set (omap use_target se.2))
       (map_to_list configdata)).

(** The section names that the [use] directives reach from [root]. *)
Inductive reachable (configdata : gmap string (list (string * option string)))
    (root : string) : string -> Prop :=
| reach_root : reachable configdata root root
| reach_use s entries entry target :
    reachable configdata root s ->
    configdata !! s = Some entries -> entry ∈ entries ->
    use_target entry = Some target ->
    reachable configdata root target.

(** Properties of the state that logging, marking a section checked and
    storing a normalised provider pair under [root] all preserve. *)
Record stable (configdata : gmap string (list (string * option string)))
    (root : string) (I : state -> Prop) : Prop := {
  stable_loginfo : forall f st, I st -> I (with_loginfo f st);
  stable_probes : forall f st, I st -> I (with_probes f st);
  stable_reported : forall f st, I st -> I (with_reported f st);
  stable_checked : forall s st,
    I st -> I (with_checked (fun c => c ∪ {[s]}) st);
  stable_store : forall s entries entry st,
    configdata !! s = Some entries -> entry ∈ entries -> I st ->
    I (with_data (store root (entry_key entry) (entry_value entry)) st)
}.

(** How a call ends: [Q] on a return, [E] on a raise, [F] when the model
    runs out of fuel. *)
Definition ends {A : Type} (Q : A -> state -> Prop) (E : state -> Prop)
    (F : Prop) (r : res A) : Prop :=
  match r with
  | Ret a st => Q a st
  | Exc _ st => E st
  | Fuel => F
  end.

(** The invariant of a walk rooted at [root]: the property [I] holds and
    [root] is marked checked. *)
Definition walking (I : state -> Prop) (root : string) (st : state) : Prop :=
  I st /\ root ∈ sections_checked st.

(** [U] is closed under [use] and the fuel left covers the names of [U]
    that are not in flight. *)
Definition bounded (configdata : gmap string (list (string * option string)))
    (U : gset string) (fuel : nat) (name : string)
    (processed_sections : gmap string bool) : Prop :=
  use_closed configdata U /\ name ∈ U /\ dom processed_sections ⊆ U /\
  size U <= fuel + size processed_sections.

(** A result that is the same as another unless the fuel ran out. *)
Definition refines {A : Type} (r r' : res A) : Prop := r = Fuel \/ r = r'.

(** The policy that escalates nothing, and the one that escalates all. *)
Definition lenient : string -> bool := fun _ => false.
Definition strict : string -> bool := fun _ => true.

(** *** Example configurations *)

(** Two sections that [use] each other. *)
Definition cfg_cycle : gmap string (list (string * option string)) :=
  {[ "SEC_X" := [("key1", Some "a"); ("use SEC_Y", None); ("key2", Some "c")];
     "SEC_Y" := [("key1", Some "b"); ("use SEC_X", None);
                 ("key3", Some (String Py.DQUOTE ("q" +:+ String Py.DQUOTE EmptyString)))] ]}.

(** A section that sets a key and then includes a section that sets the
    same key. *)
Definition cfg_override : gmap string (list (string * option string)) :=
  {[ "SEC_A" := [("key1", Some "from_A"); ("use SEC_B", None)];
     "SEC_B" := [("key1", Some "from_B")] ]}.

(** A value written between double quotes. *)
Definition cfg_quoted : gmap string (list (string * option string)) :=
  {[ "SEC_A" :=
       [("key1", Some (String Py.DQUOTE ("v" +:+ String Py.DQUOTE EmptyString)))] ]}.

(** A [use] directive without an operand, followed by a plain key. *)
Definition cfg_bare_use : gmap string (list (string * option string)) :=
  {[ "SEC_A" := [("use", None); ("key1", Some "v")] ]}.

(* ================================================================= *)
(** ** Further notions *)

(** Whether a pattern has no capturing group numbered [i]. *)
Fixpoint nogroup (i : nat) (r : regex) : bool :=
  match r with
  | RSeq r1 r2 | RAlt r1 r2 => nogroup i r1 && nogroup i r2
  | RStar r1 => nogroup i r1
  | RGroup j r1 => negb (Nat.eqb i j) && nogroup i r1
  | _ => true
  end.

(** A text that begins with a token, which white space or the end of the
    text ends. *)
Definition begins_with_token (w : list ascii) (text : string) : Prop :=
  w <> [] /\ forallb op_char w = true /\
  exists rest,
    list_ascii_of_string text = w ++ rest /\
    match rest with
    | [] => True
    | c :: _ => Py.isspace c = true
    end.

(** The characters of a quoted operand, [[\w\d\-_ ]]. *)
Definition quoted_char (c : ascii) : bool :=
  existsb (item_matches c)
    [CWord; CDigit; CLit "-"%char; CLit "_"%char; CLit " "%char].

(** The texts of the ASCII range. On them the character classes and the
    white space of the model are those of Python. *)
Definition ascii_text (s : string) : bool :=
  forallb (fun c => Py.code c <? 128) (list_ascii_of_string s).

(** A pair that the provider yields as it is written and that the model
    reads as the code does: the key and the value are ASCII texts, and the
    value has no percent sign, which would make the parser interpolate the
    value or raise an interpolation error. *)
Definition plain_pair (entry : string * option string) : bool :=
  ascii_text entry.1 &&
  match entry.2 with
  | Some v =>
      ascii_text v &&
      negb (existsb (Ascii.eqb "%"%char) (list_ascii_of_string v))
  | None => true
  end.

(** A provider all of whose pairs are plain. *)
Definition plain_provider
    (configdata : gmap string (list (string * option string))) : bool :=
  forallb (fun se : string * list (string * option string) =>
             forallb plain_pair se.2)
    (map_to_list configdata).

(** The names that [configdata.keys()] lists are the sections of the
    provider. *)
Definition provider_keys
    (configdata : gmap string (list (string * option string)))
    (section_list : list string) : Prop :=
  forall s, s ∈ section_list <-> is_Some (configdata !! s).

(** The walk of the section [name], entered with the sections [p] in
    flight, enters the section [s]: it is [name], or the walk of a [use]
    target of [name] that is not in flight enters it. *)
Inductive walk_enters
    (configdata : gmap string (list (string * option string)))
    : gmap string bool -> string -> string -> Prop :=
| enters_here p name : walk_enters configdata p name name
| enters_use p name entries entry target s :
    configdata !! name = Some entries -> entry ∈ entries ->
    use_target entry = Some target ->
    <[name := true]> p !! target = None ->
    walk_enters configdata (<[name := true]> p) target s ->
    walk_enters configdata p name s.

(** The tokenizer once more, as a direct scan of the key that uses no
    pattern; [tokenize] is compared with it. The operation is the longest
    run of operation characters at the head of the key, and it counts only
    when the key ends there or white space follows. *)
Definition leading_token (l : list ascii) : option (list ascii * list ascii) :=
  let w := Py.takewhile op_char l in
  let rest := drop (length w) l in
  match w, rest with
  | [], _ => None
  | _, [] => Some (w, [])
  | _, c :: _ => if Py.isspace c then Some (w, rest) else None
  end.

(** The operand that begins a text: a quoted run of [quoted_char], closed
    by a quote, or else the longest run of operation characters. *)
Definition operand_at (r : list ascii) : option string :=
  match r with
  | [] => None
  | c :: r' =>
      if Ascii.eqb "'"%char c then
        let q := Py.takewhile quoted_char r' in
        match q, drop (length q) r' with
        | _ :: _, d :: _ =>
            if Ascii.eqb "'"%char d
            then Some (Py.strip (string_of_list_ascii q))
            else None
        | _, _ => None
        end
      else if op_char c then
        Some (string_of_list_ascii (Py.takewhile op_char r))
      else None
  end.

(** At most one space comes between the operation and its operand. *)
Definition scan_operand (rest : list ascii) : option string :=
  match rest with
  | [] => None
  | d :: r => if Ascii.eqb " "%char d then operand_at r else operand_at rest
  end.

Definition scan_key (text : string) : option (string * option string) :=
  match leading_token (list_ascii_of_string text) with
  | Some (w, rest) =>
      Some (Py.replace "-"%char "_"%char (string_of_list_ascii w),
            scan_operand rest)
  | None => None
  end.

(* ================================================================= *)
(** ** The resolver as a trace *)

(** What a walk of the resolver does to the view, apart from the log: the
    pairs it hands to [set], in order, the warnings that exception control
    records, and how the walk ends. *)
Inductive status : Type :=
| Finished
| Raised (e : exn)
| NoFuel.

Record trace : Type := {
  writes : list (string * string);
  warnings : list (string * exn);
  outcome : status
}.

Definition silent : trace :=
  {| writes := []; warnings := []; outcome := Finished |}.

Definition raised (e : exn) : trace :=
  {| writes := []; warnings := []; outcome := Raised e |}.

Definition written (key value : string) : trace :=
  {| writes := [(key, value)]; warnings := []; outcome := Finished |}.

(** One trace after another; the second counts only when the first
    finished. *)
Definition then_ (a b : trace) : trace :=
  match outcome a with
  | Finished =>
      {| writes := writes a ++ writes b;
         warnings := warnings a ++ warnings b;
         outcome := outcome b |}
  | _ => a
  end.

(** The message of the warning about a handler that did not return 0. *)
Definition unexpected_rval_message (handler_name : string)
    (rval : option nat) : string :=
  "Handler `" +:+ handler_name +:+ "` returned " +:+ rval_str rval +:+
  " but we expected 0".

Section Trace.

Variable configdata : gmap string (list (string * option string)).
Variable escalates : string -> bool.

Definition trace_event (severity : string) (e : exn) : trace :=
  if escalates severity then raised e
  else {| writes := []; warnings := [(severity, e)]; outcome := Finished |}.

(** The trace of one pair of the section [section_name], with the sections
    [p] in flight; [rec] is the trace of a nested section. *)
Definition trace_entry (rec : string -> gmap string bool -> trace)
    (section_name : string) (p : gmap string bool)
    (entry : string * option string) : trace :=
  match tokenize (entry_key entry) with
  | inl e => raised e
  | inr None => silent
  | inr (Some (op1, op2)) =>
      if decide (op1 = "use") then
        match op2 with
        | None => raised (TypeError "ERROR: a section name must not be None.")
        | Some target =>
            if decide (is_Some (p !! target)) then
              trace_event "WARNING"
                (ValueError (cycle_message op1 section_name))
            else rec target p
        end
      else if decide (op1 = "generic") then
        then_ (written (entry_key entry) (entry_value entry))
          (trace_event "WARNING"
             (RuntimeError
                (unexpected_rval_message "_handler_generic" None)))
      else written (entry_key entry) (entry_value entry)
  end.

Fixpoint trace_entries (rec : string -> gmap string bool -> trace)
    (section_name : string) (p : gmap string bool)
    (l : list (string * option string)) : trace :=
  match l with
  | [] => silent
  | entry :: l' =>
      then_ (trace_entry rec section_name p entry)
        (trace_entries rec section_name p l')
  end.

Fixpoint trace_section (fuel : nat) (name : string) (p : gmap string bool)
    : trace :=
  match fuel with
  | 0 => {| writes := []; warnings := []; outcome := NoFuel |}
  | S fuel' =>
      match configdata !! name with
      | Some entries =>
          trace_entries (trace_section fuel') name (<[name := true]> p)
            entries
      | None =>
          raised (KeyError ("ERROR: No section named `" +:+ name +:+
                              "` was found in the configuration file."))
      end
  end.

End Trace.

(** The view's data after the writes of a trace. *)
Definition apply_writes (root : string) (ws : list (string * string))
    (d : gmap string (gmap string string)) : gmap string (gmap string string) :=
  foldl (fun d kv => store root kv.1 kv.2 d) d ws.

(** The state [st'] is the state [st] after the trace [t]: the data took
    its writes, the warnings were recorded, and no section was marked. *)
Definition follows (root : string) (t : trace) (st st' : state) : Prop :=
  data st' = apply_writes root (writes t) (data st) /\
  sections_checked st' = sections_checked st /\
  reported st' = reported st ++ warnings t.

(** The call that gave [r] from the state [st] did what the trace says
    and, if it returned, returned [a]. *)
Definition simulates {A : Type} (root : string) (t : trace) (a : A)
    (st : state) (r : res A) : Prop :=
  match outcome t with
  | Finished => exists st', r = Ret a st' /\ follows root t st st'
  | Raised e => exists st', r = Exc e st' /\ follows root t st st'
  | NoFuel => r = Fuel
  end.

(** The state after a whole resolution of [root] that did what the trace
    [t] says: the root is marked as well. *)
Definition resolved (root : string) (t : trace) (st st' : state) : Prop :=
  data st' = apply_writes root (writes t) (data st) /\
  sections_checked st' = sections_checked st ∪ {[root]} /\
  reported st' = reported st ++ warnings t.

(** The state [st'] is the state [st] after one whole resolution of each
    section of [l], in order, each of which returned. *)
Fixpoint resolved_each
    (configdata : gmap string (list (string * option string)))
    (escalates : string -> bool) (fuel : nat) (l : list string)
    (st st' : state) : Prop :=
  match l with
  | [] =>
      data st' = data st /\ sections_checked st' = sections_checked st /\
      reported st' = reported st
  | s :: l' =>
      exists st1,
        s <> EmptyString /\
        outcome (trace_section configdata escalates fuel s ∅) = Finished /\
        resolved s (trace_section configdata escalates fuel s ∅) st st1 /\
        resolved_each configdata escalates fuel l' st1 st'
  end.

(** The value of a key under a section of the view's data. *)
Definition value_of (d : gmap string (gmap string string))
    (section key : string) : option string :=
  (d !! section) ≫= (fun sec => sec !! key).

(** The exceptions that a resolution can end with. *)
Inductive resolver_exception (escalates : string -> bool) : exn -> Prop :=
| exc_empty_name :
    resolver_exception escalates (ValueError "`section` cannot be empty.")
| exc_no_section name :
    resolver_exception escalates
      (KeyError ("ERROR: No section named `" +:+ name +:+
                   "` was found in the configuration file."))
| exc_no_operand :
    resolver_exception escalates
      (TypeError "ERROR: a section name must not be None.")
| exc_cycle op1 section_name :
    escalates "WARNING" = true ->
    resolver_exception escalates
      (ValueError (cycle_message op1 section_name))
| exc_generic :
    escalates "WARNING" = true ->
    resolver_exception escalates
      (RuntimeError (unexpected_rval_message "_handler_generic" None)).

(** Two calls that ended the same way: with the same value or with the
    same exception. *)
Definition same_answer {A : Type} (r r' : res A) : Prop :=
  match r, r' with
  | Ret a _, Ret b _ => a = b
  | Exc e _, Exc e' _ => e = e'
  | Fuel, Fuel => True
  | _, _ => False
  end.

(** A pair that is the normalised form of a pair of the provider, in a
    section that the [use] directives reach from [root]. *)
Definition from_provider
    (configdata : gmap string (list (string * option string)))
    (root : string) (kv : string * string) : Prop :=
  exists s entries entry,
    reachable configdata root s /\ configdata !! s = Some entries /\
    entry ∈ entries /\ kv = (entry_key entry, entry_value entry).

(* ================================================================= *)
(** ** The rest of the lazy view *)

Section DataSectionItems.

Variable owner_parse_configuration : string -> M (gmap string string).

(** [self.owner.configdata.keys()], the section names of the provider in
    its order. *)
Variable section_list : list string.

(** [__getitem__] *)
Definition __getitem__ (key : string) : M (gmap string string) :=
  let* b := has_section owner_parse_configuration key in
  if b then let* d := gets data in getitem d key
  else raise (KeyError key).

(** [items]: without a section, every section of the provider is resolved
    and the items of the view's data are returned; with one, the items of
    its options. The view always has an owner. *)
Definition items (section : option string)
    : M (gmap string (gmap string string) + gmap string string) :=
  match section with
  | None =>
      let* _ := for_each
                  (fun seci (_ : unit) =>
                     parse_owner_section owner_parse_configuration seci)
                  section_list tt in
      let* d := gets data in
      ret (inl d)
  | Some s =>
      let* o := options owner_parse_configuration s in
      ret (inr o)
  end.

End DataSectionItems.

(** A section whose only key is no directive: the key has a dot. *)
Definition cfg_dotted : gmap string (list (string * option string)) :=
  {[ "SEC_A" := [("my.key", Some "v")] ]}.

(* ================================================================= *)
(** ** Debuggable *)

Module Debuggable.

(** An object of the class: the attribute [_debug_level], which is absent
    until it is read or set, and what the object printed, one entry for
    each call of [print]. *)
Record obj : Type := {
  _debug_level : option Z;
  stdout : list string
}.

Definition new : obj := {| _debug_level := None; stdout := [] |}.

(** The getter of [debug_level]. *)
Definition debug_level (self : obj) : Z * obj :=
  match _debug_level self with
  | Some level => (level, self)
  | None => (0%Z, {| _debug_level := Some 0%Z; stdout := stdout self |})
  end.

(** The setter of [debug_level], for a value that is an [int]. *)
Definition debug_level_setter (value : Z) (self : obj) : Z * obj :=
  let level := Z.max value 0 in
  (level, {| _debug_level := Some level; stdout := stdout self |}).

(** [print(message, end=end)] *)
Definition print (message end_ : string) (self : obj) : obj :=
  {| _debug_level := _debug_level self;
     stdout := stdout self ++ [message +:+ end_] |}.

Definition debug_message (level : Z) (message end_ : string)
    (useprefix : bool) (self : obj) : obj :=
  let '(current, self) := debug_level self in
  if (level <=? current)%Z then
    let message :=
      if (0 <? level)%Z then
        let prefix :=
          if useprefix then "[D-" +:+ pretty level +:+ "] " else EmptyString in
        prefix +:+ message
      else message in
    print message end_ self
  else self.

(** The objects that the class can build: a new one, and what its
    property and its method make of one. *)
Inductive built : obj -> Prop :=
| built_new : built new
| built_get self : built self -> built (debug_level self).2
| built_set value self : built self -> built (debug_level_setter value self).2
| built_message level message end_ useprefix self :
    built self -> built (debug_message level message end_ useprefix self).

End Debuggable.

(* ================================================================= *)
(** ** Loading the provider *)

Module Loader.

(** The exceptions of the two properties. *)
Inductive error : Type :=
| ErrValue (msg : string)
| ErrType (msg : string)
| ErrIO (msg : string)
| ErrParser (msg : string).

Definition provider : Type := gmap string (list (string * option string)).

(** What [ConfigParser.read] makes of a list of files: the parser filled,
    or a parser filled in part and the message of a parsing error. *)
Inductive read_result : Type :=
| ReadOk (c : provider)
| ReadFails (c : provider) (msg : string).

Section Loader.

(** [pathlib.Path], its constructor on a text and its [str]. *)
Variable path : Type.
Variable Path : string -> path.
Variable path_str : path -> string.

(** The file system: [p.exists() and p.is_file()], [os.getcwd()] and what
    [read] finds. *)
Variable is_file : path -> bool.
Variable cwd : string.
Variable read : list path -> read_result.

(** The message of the type error of [Path(entry)], by the name of the
    type of [entry]. *)
Variable pathlib_message : string -> string.

(** An entry of the list assigned to [inifilepath]: a text, a path, or a
    value of another type, of which the model keeps the name of the
    type. *)
Inductive entry : Type :=
| EStr (s : string)
| EPath (p : path)
| EOther (type_name : string).

(** A value assigned to [inifilepath]: one entry or a list of them. *)
Inductive value : Type :=
| VOne (e : entry)
| VList (l : list entry).

(** The engine object: its two attributes, either of which may be
    absent, its [Debuggable] part, and the state of the resolver, which
    holds the lazy view and the log. *)
Record engine : Type := {
  _inifilepath : option (list path);
  _configdata : option provider;
  dbg : Debuggable.obj;
  view : state
}.

Definition new : engine :=
  {| _inifilepath := None; _configdata := None; dbg := Debuggable.new;
     view := initial_state |}.

(** [Path(entry)] *)
Definition to_path (e : entry) : error + path :=
  match e with
  | EStr s => inr (Path s)
  | EPath p => inr p
  | EOther type_name => inl (ErrType (pathlib_message type_name))
  end.

(** The loop of the setter: the entries are converted and appended one by
    one, up to the first that is no path. *)
Fixpoint convert (entries : list entry) (acc : list path)
    : list path * option error :=
  match entries with
  | [] => (acc, None)
  | e :: entries' =>
      match to_path e with
      | inr p => convert entries' (acc ++ [p])
      | inl err => (acc, Some err)
      end
  end.

(** The getter of [inifilepath]. *)
Definition inifilepath (self : engine) : error + list path :=
  match _inifilepath self with
  | None => inl (ErrValue "ERROR: The filename has not been specified yet.")
  | Some l => inr l
  end.

(** The setter of [inifilepath]. *)
Definition inifilepath_setter (v : value) (self : engine)
    : (error + list path) * engine :=
  match v with
  | VOne (EOther _) =>
      (inl (ErrType
              "ERROR: .ini filename must be a `str`, a `Path` or a `list` of either."),
       self)
  | _ =>
      let self :=
        match _inifilepath self with
        | Some _ =>
            {| _inifilepath := _inifilepath self; _configdata := None;
               dbg := dbg self;
               view := with_loginfo (fun _ => []) (view self) |}
        | None => self
        end in
      let entries :=
        match v with
        | VList l => l
        | VOne e => [e]
        end in
      let '(paths, err) := convert entries [] in
      let self :=
        {| _inifilepath := Some paths; _configdata := _configdata self;
           dbg := dbg self; view := view self |} in
      match err with
      | None => (inr paths, self)
      | Some e =>
          (inl e,
           {| _inifilepath := _inifilepath self;
              _configdata := _configdata self;
              dbg := Debuggable.debug_message 0
                       "ERROR: invalid entry in `inifilepath` list."
                       (String Py.LF EmptyString) true (dbg self);
              view := view self |})
      end
  end.

(** [__init__] *)
Definition __init__ (filename : value) : (error + list path) * engine :=
  inifilepath_setter filename new.

(** The message of the error for a path that is no file. *)
Definition io_message (p : path) : string :=
  let nl := String Py.LF EmptyString in
  let bar := "+" +:+ string_of_list_ascii (repeat "="%char 78) +:+ "+" +:+ nl in
  nl +:+ bar +:+
  "|   ERROR: Unable to load configuration .ini file" +:+ nl +:+
  "|   - Requested file: `" +:+ path_str p +:+ "`" +:+ nl +:+
  "|   - CWD: `" +:+ cwd +:+ "`" +:+ nl +:+
  bar.

Definition with_configdata (c : provider) (self : engine) : engine :=
  {| _inifilepath := _inifilepath self; _configdata := Some c;
     dbg := dbg self; view := view self |}.

(** The getter of [configdata]. The paths of [_inifilepath] are [Path]
    objects, so the type check inside the loop passes. *)
Definition configdata (self : engine) : (error + provider) * engine :=
  match _configdata self with
  | Some c => (inr c, self)
  | None =>
      let self := with_configdata ∅ self in
      match inifilepath self with
      | inl e => (inl e, self)
      | inr paths =>
          if Nat.eqb (length paths) 0 then
            (inl (ErrValue "ERROR: No .ini filename(s) were provided."), self)
          else
            match List.find (fun p => negb (is_file p)) paths with
            | Some p => (inl (ErrIO (io_message p)), self)
            | None =>
                match read paths with
                | ReadOk c => (inr c, with_configdata c self)
                | ReadFails c msg =>
                    (inl (ErrParser msg), with_configdata c self)
                end
            end
      end
  end.

End Loader.

Arguments EStr {path} s.
Arguments EPath {path} p.
Arguments EOther {path} type_name.
Arguments VOne {path} e.
Arguments VList {path} l.
Arguments _inifilepath {path} e.
Arguments _configdata {path} e.
Arguments dbg {path} e.
Arguments view {path} e.
Arguments new {path}.
Arguments to_path {path} Path pathlib_message e.
Arguments convert {path} Path pathlib_message entries acc.
Arguments inifilepath {path} self.
Arguments inifilepath_setter {path} Path pathlib_message v self.
Arguments __init__ {path} Path pathlib_message filename.
Arguments io_message {path} path_str cwd p.
Arguments with_configdata {path} c self.
Arguments configdata {path} path_str is_file cwd read self.

End Loader.

(** The first value that a list of writes has for a key. *)
Definition first_write (k : string) (ws : list (string * string))
    : option string :=
  snd <$> List.find (fun kv => bool_decide (kv.1 = k)) ws.

(** The engine [self] serves the provider [configdata]: its parser is
    loaded, so that the property [configdata] returns it without raising,
    and the pairs of the parser are plain. For such an engine the provider
    of the resolver's model is the provider of the code. *)
Definition serves {path : Type} (self : Loader.engine path)
    (configdata : Loader.provider) : Prop :=
  Loader._configdata self = Some configdata /\
  plain_provider configdata = true.

(** An engine that has loaded [configdata] from one file. *)
Definition engine_of (configdata : Loader.provider) : Loader.engine string :=
  {| Loader._inifilepath := Some ["config.ini"];
     Loader._configdata := Some configdata;
     Loader.dbg := Debuggable.new;
     Loader.view := initial_state |}.

(* ================================================================= *)
(** ** Results *)

(** *** The monad *)

Lemma bind_Ret {A B : Type} (c : M A) (k : A -> M B) st a st' :
  c st = Ret a st' -> bind c k st = k a st'.
Proof. intros H. unfold bind. by rewrite H. Qed.

Lemma bind_Exc {A B : Type} (c : M A) (k : A -> M B) st e st' :
  c st = Exc e st' -> bind c k st = Exc e st'.
Proof. intros H. unfold bind. by rewrite H. Qed.

Lemma bind_Fuel {A B : Type} (c : M A) (k : A -> M B) st :
  c st = Fuel -> bind c k st = Fuel.
Proof. intros H. unfold bind. by rewrite H. Qed.

Lemma with_data_ext f g st :
  f (data st) = g (data st) -> with_data f st = with_data g st.
Proof. intros H. unfold with_data. by rewrite H. Qed.

Lemma with_data_with_data f g st :
  with_data g (with_data f st) = with_data (fun d => g (f d)) st.
Proof. reflexivity. Qed.

Lemma with_data_id f st : f (data st) = data st -> with_data f st = st.
Proof. intros H. unfold with_data. rewrite H. by destruct st. Qed.

(** *** The lazy view on a section that was checked before *)

Section ViewFacts.

Variable pc : string -> M (gmap string string).

Lemma has_section_checked section st :
  section ∈ sections_checked st ->
  has_section pc section st
  = Ret (bool_decide (is_Some (data st !! section))) st.
Proof.
  intros Hc. unfold has_section, bind, gets. simpl.
  by rewrite decide_True.
Qed.

Lemma has_option_checked section option st :
  section ∈ sections_checked st ->
  has_option pc section option st
  = match data st !! section with
    | Some sec => Ret (bool_decide (is_Some (sec !! option))) st
    | None => Exc (KeyError section) st
    end.
Proof.
  intros Hc. unfold has_option, bind, gets, getitem. simpl.
  rewrite decide_True by done. simpl.
  by destruct (data st !! section).
Qed.

Lemma get_checked section option st :
  section ∈ sections_checked st ->
  get pc section option st = cached_get section option st.
Proof.
  intros Hc. unfold get, cached_get.
  unfold bind at 1. unfold gets at 1. simpl.
  unfold bind at 1. rewrite decide_True by done. simpl.
  unfold bind at 1. rewrite has_section_checked by done.
  destruct (data st !! section) as [sec|] eqn:Hsec; simpl; [|done].
  unfold bind at 1. rewrite has_option_checked by done. rewrite Hsec.
  destruct (sec !! option) as [v|] eqn:Hv; simpl; [|done].
  unfold bind, gets, getitem. simpl. rewrite Hsec. simpl. by rewrite Hv.
Qed.

Lemma set_checked root key value st :
  root ∈ sections_checked st ->
  exists x, set pc root key value st
            = Ret x (with_data (store root key value) st).
Proof.
  intros Hc. unfold set.
  unfold bind at 1. rewrite has_section_checked by done.
  destruct (data st !! root) as [sec|] eqn:Hsec; simpl.
  - unfold bind at 1. simpl.
    unfold bind at 1. unfold gets at 1. simpl.
    unfold bind at 1. unfold getitem at 1. rewrite Hsec. simpl.
    destruct (sec !! key) as [v|] eqn:Hv.
    + unfold bind at 1. rewrite decide_True by eauto. simpl.
      unfold bind, gets, getitem. simpl. rewrite Hsec. simpl. rewrite Hv.
      simpl. exists v. f_equal. symmetry. apply with_data_id.
      unfold store. rewrite Hsec. simpl. rewrite Hv. by apply insert_id.
    + unfold bind at 1. rewrite decide_False by (by intros [? ?]).
      unfold modify at 1.
      unfold bind, gets, getitem. simpl.
      rewrite lookup_insert_eq. simpl. rewrite lookup_insert_eq. simpl.
      exists value. f_equal. apply with_data_ext.
      unfold store. rewrite Hsec. simpl. by rewrite Hv.
  - unfold bind at 1. unfold add_section at 1.
    unfold bind at 1. rewrite has_section_checked by done.
    rewrite Hsec. simpl.
    unfold bind, gets, getitem, modify. simpl.
    rewrite lookup_insert_eq. simpl. rewrite lookup_empty.
    rewrite decide_False by (by intros [? ?]). simpl.
    rewrite lookup_insert_eq. simpl. rewrite lookup_insert_eq. simpl.
    exists value. f_equal. rewrite with_data_with_data. apply with_data_ext.
    unfold store. rewrite Hsec. simpl. rewrite lookup_empty.
    by rewrite insert_insert_eq.
Qed.

End ViewFacts.

(** *** How calls end *)

Lemma ends_bind {A B : Type} (c : M A) (k : A -> M B) Q E F st :
  ends (fun a st' => ends Q E F (k a st')) E F (c st) ->
  ends Q E F (bind c k st).
Proof. unfold bind. by destruct (c st). Qed.

Lemma ends_mono {A : Type} (Q Q' : A -> state -> Prop) (E E' : state -> Prop)
    (F F' : Prop) (r : res A) :
  (forall a st, Q a st -> Q' a st) -> (forall st, E st -> E' st) -> (F -> F') ->
  ends Q E F r -> ends Q' E' F' r.
Proof. intros HQ HE HF. destruct r; simpl; auto. Qed.

Lemma ends_seq_fuel {A B : Type} (c : M A) (k : A -> M B) Q0 Q E F0 F st :
  ends Q0 E F0 (c st) ->
  (F0 -> F) ->
  (forall a st', Q0 a st' -> ends Q E F (k a st')) ->
  ends Q E F (bind c k st).
Proof.
  intros Hc HF Hk. apply ends_bind.
  apply (ends_mono Q0 _ E E F0 F _ Hk); [auto|exact HF|exact Hc].
Qed.

Lemma ends_seq {A B : Type} (c : M A) (k : A -> M B) Q0 Q E F st :
  ends Q0 E False (c st) ->
  (forall a st', Q0 a st' -> ends Q E F (k a st')) ->
  ends Q E F (bind c k st).
Proof. intros Hc Hk. by apply (ends_seq_fuel c k Q0 Q E False F). Qed.

Lemma handler_name_use op1 : "_handler_" +:+ op1 = "_handler_use" -> op1 = "use".
Proof. intros H. cbv in H. congruence. Qed.

Lemma handler_name_generic op1 :
  "_handler_" +:+ op1 = "_handler_generic" -> op1 = "generic".
Proof. intros H. cbv in H. congruence. Qed.

Lemma size_in_flight (U : gset string) (p : gmap string bool) name :
  name ∈ U -> dom p ⊆ U -> p !! name = None -> size p < size U.
Proof.
  intros Hn Hd Hp. rewrite <- size_dom.
  apply subset_size. split; [done|].
  intros Hsub. apply not_elem_of_dom in Hp. by apply Hp, Hsub.
Qed.

(** *** What the primitive steps preserve *)

Lemma loginfo_add_Ret debug_level entry st :
  exists st', _loginfo_add debug_level entry st = Ret tt st' /\
    (forall configdata root K, stable configdata root K -> K st -> K st') /\
    data st' = data st /\ sections_checked st' = sections_checked st.
Proof.
  unfold _loginfo_add. destruct (0 <? debug_level); simpl.
  - eexists. split; [done|]. split; [|done]. intros c r K HK Hk.
    by apply (stable_loginfo _ _ _ HK).
  - eexists. split; [done|]. auto.
Qed.

Section Primitive.

Variable configdata : gmap string (list (string * option string)).
Variable debug_level : nat.
Variable escalates : string -> bool.
Variable root : string.
Variable K : state -> Prop.
Hypothesis HK : stable configdata root K.

Lemma loginfo_add_ends entry st :
  K st -> ends (fun _ st' => K st') K False (_loginfo_add debug_level entry st).
Proof.
  intros Hk. unfold _loginfo_add.
  destruct (0 <? debug_level); simpl; [|done].
  by apply (stable_loginfo _ _ _ HK).
Qed.

Lemma probe_add_ends p st :
  K st -> ends (fun _ st' => K st') K False (probe_add p st).
Proof. intros Hk. simpl. by apply (stable_probes _ _ _ HK). Qed.

Lemma exception_control_event_ends severity exc message st :
  K st ->
  ends (fun _ st' => K st') K False
    (exception_control_event escalates severity exc message st).
Proof.
  intros Hk. unfold exception_control_event.
  destruct (escalates severity); simpl; [done|].
  by apply (stable_reported _ _ _ HK).
Qed.

Lemma stable_walking : stable configdata root (walking K root).
Proof.
  split.
  - intros f st [Hk Hc]. split; [by apply (stable_loginfo _ _ _ HK)|done].
  - intros f st [Hk Hc]. split; [by apply (stable_probes _ _ _ HK)|done].
  - intros f st [Hk Hc]. split; [by apply (stable_reported _ _ _ HK)|done].
  - intros s st [Hk Hc]. split; [by apply (stable_checked _ _ _ HK)|].
    simpl. set_solver.
  - intros s entries entry st Hs He [Hk Hc].
    split; [by eapply (stable_store _ _ _ HK)|done].
Qed.

End Primitive.

(** *** The section walk *)

Section Walk.

Variable configdata : gmap string (list (string * option string)).
Variable debug_level : nat.
Variable escalates : string -> bool.
Variable root : string.
Variable I : state -> Prop.
Hypothesis HI : stable configdata root I.
Variable U : gset string.

Local Abbreviation J := (walking I root).

Local Lemma HJ : stable configdata root J.
Proof. by apply stable_walking. Qed.

Section Frame.

(** The recursive driver as a frame sees it, with what is known of the
    calls made with the fuel [fuel] that is left. *)
Variable parse_r :
  option string -> option (gmap string string) -> option (gmap string bool) ->
  option string -> M (gmap string string * gmap string bool).
Variable fuel : nat.

Hypothesis parse_r_None : forall d p r st,
  parse_r None d p r st
  = Exc (TypeError "ERROR: a section name must not be None.") st.

Hypothesis parse_r_Some : forall name d p st,
  J st -> p !! name = None ->
  ends (fun a st' => J st' /\ a.2 = p) J (~ bounded configdata U fuel name p)
    (parse_r (Some name) (Some d) (Some p) (Some root) st).

Lemma handler_generic_walking s entries entry section_name op1 op2 d p st :
  configdata !! s = Some entries -> entry ∈ entries -> J st ->
  ends (fun a st' => J st' /\ a = (None, d, p)) J False
    (_handler_generic debug_level parse_r root section_name op1 op2 d p
       (entry_key entry, entry_value entry) st).
Proof.
  intros Hs He Hj. unfold _handler_generic.
  eapply ends_seq; [by apply (probe_add_ends _ _ _ HJ)|]. intros ? st1 Hj1.
  eapply ends_seq; [by apply (loginfo_add_ends _ _ _ _ HJ)|]. intros ? st2 Hj2.
  apply ends_bind. simpl.
  destruct (set_checked (parse_configuration_of parse_r) root
              (entry_key entry) (entry_value entry) st2) as [x Hx];
    [by destruct Hj2|].
  rewrite Hx. simpl.
  assert (J (with_data (store root (entry_key entry) (entry_value entry)) st2))
    as Hj3 by (by eapply (stable_store _ _ _ HJ)).
  eapply ends_seq; [by apply (loginfo_add_ends _ _ _ _ HJ)|]. intros ? st4 Hj4.
  by simpl.
Qed.

Lemma handler_use_walking section_name op1 op2 d p entry st :
  J st ->
  ends (fun a st' => J st' /\ a.1.1 = Some 0 /\ a.2 = p) J
    (exists target, op2 = Some target /\ p !! target = None /\
                    ~ bounded configdata U fuel target p)
    (_handler_use debug_level escalates parse_r root section_name op1 op2 d p
       entry st).
Proof.
  intros Hj. unfold _handler_use.
  eapply ends_seq; [by apply (probe_add_ends _ _ _ HJ)|]. intros ? st1 Hj1.
  eapply ends_seq; [by apply (loginfo_add_ends _ _ _ _ HJ)|]. intros ? st2 Hj2.
  destruct (in_keys op2 p) eqn:Hin; simpl.
  - eapply (ends_seq _ _ (fun a st' => J st' /\ a = (d, p))).
    { eapply ends_seq; [by apply (loginfo_add_ends _ _ _ _ HJ)|].
      intros ? st3 Hj3.
      eapply ends_seq;
        [by apply (exception_control_event_ends _ _ _ _ HJ)|].
      intros ? st4 Hj4. by simpl. }
    intros ? st5 [Hj5 ->].
    eapply ends_seq; [by apply (loginfo_add_ends _ _ _ _ HJ)|].
    intros ? st6 Hj6. by simpl.
  - destruct op2 as [target|]; simpl in Hin.
    + apply bool_decide_eq_false in Hin.
      assert (p !! target = None) as Hp.
      { destruct (p !! target) eqn:E; [|done]. exfalso. apply Hin. eauto. }
      eapply ends_seq_fuel; [by apply parse_r_Some| |].
      * intros Hb. exists target. done.
      * intros [d' p'] st5 [Hj5 Heq]. simpl in Heq. subst p'.
        eapply ends_seq; [by apply (loginfo_add_ends _ _ _ _ HJ)|].
        intros ? st6 Hj6. by simpl.
    + apply ends_bind. rewrite parse_r_None. simpl. done.
Qed.

Lemma process_entry_walking s entries entry section_name d p st :
  configdata !! s = Some entries -> entry ∈ entries -> J st ->
  ends (fun a st' => J st' /\ a.2 = p) J
    (exists target, use_target entry = Some target /\ p !! target = None /\
                    ~ bounded configdata U fuel target p)
    (process_entry debug_level escalates parse_r root section_name entry
       (d, p) st).
Proof.
  intros Hs He Hj. unfold process_entry.
  change (Py.strip entry.1) with (entry_key entry).
  change (Py.strip_chars [Py.DQUOTE] (Py.strip (Py.str entry.2)))
    with (entry_value entry).
  eapply ends_seq; [by apply (loginfo_add_ends _ _ _ _ HJ)|]. intros ? st1 Hj1.
  destruct (regex_op_matcher (entry_key entry)) as [e|[m|]] eqn:Hm;
    [done| |done].
  eapply ends_seq; [by apply (loginfo_add_ends _ _ _ _ HJ)|]. intros ? st2 Hj2.
  unfold getattr_handler.
  destruct (decide (_ = "_handler_use")) as [Huse|Hnuse].
  - eapply ends_seq_fuel; [by apply handler_use_walking| |].
    + intros (target & Hop2 & Hp & Hb). exists target.
      split; [|done]. unfold use_target, tokenize. rewrite Hm, Hop2.
      by rewrite decide_True by (by apply handler_name_use).
    + intros [[rval d'] p'] st3 (Hj3 & Hrval & Hp). simpl in Hrval, Hp.
      subst rval p'. rewrite decide_True by done.
      apply ends_bind. by simpl.
  - destruct (decide (_ = "_handler_generic")) as [Hgen|Hngen].
    + eapply ends_seq; [by eapply handler_generic_walking|].
      intros ? st3 [Hj3 ->]. rewrite decide_False by done.
      eapply ends_seq;
        [by apply (exception_control_event_ends _ _ _ _ HJ)|].
      intros ? st4 Hj4. by simpl.
    + eapply ends_seq; [by eapply handler_generic_walking|].
      intros ? st3 [Hj3 ->]. by simpl.
Qed.

Lemma for_each_walking s entries section_name l d p st :
  configdata !! s = Some entries -> (forall e, e ∈ l -> e ∈ entries) -> J st ->
  ends (fun a st' => J st' /\ a.2 = p) J
    (exists e target, e ∈ l /\ use_target e = Some target /\
                      p !! target = None /\
                      ~ bounded configdata U fuel target p)
    (for_each (process_entry debug_level escalates parse_r root section_name)
       l (d, p) st).
Proof.
  intros Hs. revert d st.
  induction l as [|e l IH]; intros d st Hl Hj; cbn [for_each]; [done|].
  eapply ends_seq_fuel.
  - eapply process_entry_walking; [done| |done]. apply Hl. by left.
  - intros (target & H). exists e, target. split; [by left|done].
  - intros [d' p'] st' [Hj' Hp]. simpl in Hp. subst p'.
    eapply ends_mono;
      [..|apply IH; [intros e' He'; apply Hl; by right|done]].
    + done.
    + done.
    + intros (e' & target & He' & H). exists e', target.
      split; [by right|done].
Qed.

Lemma parse_section_walking name data procs rootopt st :
  I st ->
  (rootopt = Some root /\ root ∈ sections_checked st) \/
  (rootopt = None /\ name = root) ->
  default ∅ procs !! name = None ->
  ends (fun a st' => J st' /\ a.2 = default ∅ procs) J
    (~ bounded configdata U (S fuel) name (default ∅ procs))
    (parse_section configdata debug_level escalates parse_r name data procs
       rootopt st).
Proof.
  intros Hi Hroot Hp. unfold parse_section.
  apply ends_bind.
  destruct (loginfo_add_Ret debug_level (LogSectionEntry name) st)
    as (st1 & -> & H1 & _).
  simpl.
  eapply (ends_seq _ _ (fun a st' => J st' /\ a = root)).
  { destruct Hroot as [[-> Hc]|[-> ->]]; simpl.
    - split; [|done]. by apply (H1 _ _ _ HJ).
    - split; [|done]. split.
      + apply (stable_checked _ _ _ HI). by apply (H1 _ _ _ HI).
      + simpl. set_solver. }
  intros ? st2 [Hj2 ->].
  eapply ends_seq; [by apply (probe_add_ends _ _ _ HJ)|]. intros ? st3 Hj3.
  destruct (configdata !! name) as [entries|] eqn:Hcfg; [|done].
  apply ends_bind. simpl.
  pose proof (for_each_walking name entries name entries
                (default parser_data_init data)
                (<[name:=true]> (default ∅ procs)) st3 Hcfg
                (fun e H => H) Hj3) as Hloop.
  eapply ends_seq_fuel.
  - exact Hloop.
  - intros (e & target & He & Ht & Hpt & Hb) (Hclosed & HnU & Hdom & Hsize).
    apply Hb. split; [done|].
    split; [exact (Hclosed name entries e target HnU Hcfg He Ht)|].
    split.
    + rewrite dom_insert_L. set_solver.
    + rewrite map_size_insert_None by done. lia.
  - intros [d' p'] st4 [Hj4 Hp4]. simpl in Hp4. subst p'.
    eapply ends_seq; [by apply (loginfo_add_ends _ _ _ _ HJ)|].
    intros ? st5 Hj5. simpl. split; [done|].
    rewrite delete_insert_eq. by apply delete_id.
Qed.

End Frame.

Lemma parse_r_None_raises fuel d p r st :
  _parse_configuration_r configdata debug_level escalates fuel None d p r st
  = Exc (TypeError "ERROR: a section name must not be None.") st.
Proof. by destruct fuel. Qed.

(** Every frame of a walk rooted at [root] keeps the invariant, hands the
    in-flight dict back as it got it, and runs out of fuel only when the
    fuel was not enough for the names of [U] left to visit. *)
Lemma walk_ends fuel : forall name d p st,
  J st -> p !! name = None ->
  ends (fun a st' => J st' /\ a.2 = p) J (~ bounded configdata U fuel name p)
    (_parse_configuration_r configdata debug_level escalates fuel
       (Some name) (Some d) (Some p) (Some root) st).
Proof.
  induction fuel as [|fuel IH]; intros name d p st Hj Hp.
  - simpl. intros (_ & HnU & Hdom & Hsize).
    pose proof (size_in_flight U p name HnU Hdom Hp). lia.
  - simpl.
    apply (parse_section_walking (_parse_configuration_r configdata
             debug_level escalates fuel) fuel (parse_r_None_raises fuel) IH
             name (Some d) (Some p) (Some root) st);
      [by destruct Hj|left; by destruct Hj|done].
Qed.

(** The same for the top-level entry point. *)
Lemma parse_configuration_ends fuel st :
  I st ->
  ends (fun _ st' => J st') I (~ bounded configdata U fuel root ∅)
    (parse_configuration configdata debug_level escalates fuel root st).
Proof.
  intros Hi. unfold parse_configuration, parse_configuration_of.
  destruct (decide (root = EmptyString)) as [Hr|Hr]; [done|].
  apply ends_bind. simpl.
  assert (I (with_loginfo (fun _ => []) st)) as Hi'
    by (by apply (stable_loginfo _ _ _ HI)).
  apply ends_bind.
  destruct fuel as [|fuel]; simpl.
  - intros (_ & HnU & Hdom & Hsize).
    pose proof (size_in_flight U ∅ root HnU Hdom (lookup_empty _)).
    rewrite map_size_empty in *. lia.
  - pose proof (parse_section_walking (_parse_configuration_r configdata
             debug_level escalates fuel) fuel (parse_r_None_raises fuel)
             (walk_ends fuel) root None None None _ Hi'
             (or_intror (conj eq_refl eq_refl)) (lookup_empty _)) as H.
    eapply ends_mono; [| | |exact H]; simpl.
    + by intros [d p] st' [Hj _].
    + by intros st' [Hi'' _].
    + done.
Qed.

End Walk.

(** *** Two invariants *)

Lemma stable_True configdata root : stable configdata root (fun _ => True).
Proof. by split. Qed.

Lemma stable_is_checked configdata root name :
  stable configdata root (fun st => name ∈ sections_checked st).
Proof.
  split; try done.
  intros s st H. simpl. set_solver.
Qed.

(** A top-level call never unmarks a checked section. *)
Lemma parse_configuration_keeps_checked configdata debug_level escalates
    fuel root name st st' :
  name ∈ sections_checked st ->
  final_state (parse_configuration configdata debug_level escalates fuel
                 root st) = Some st' ->
  name ∈ sections_checked st'.
Proof.
  intros Hn Hf.
  pose proof (parse_configuration_ends configdata debug_level escalates root
                _ (stable_is_checked configdata root name) ∅ fuel st Hn) as H.
  destruct (parse_configuration _ _ _ _ _ _) as [a s1|e s1|];
    simpl in *; [|by simplify_eq|done].
  destruct H as [H _]. by simplify_eq.
Qed.

(** A query on a section leaves it checked, whatever the outcome. *)
Lemma parse_owner_section_checks configdata debug_level escalates fuel
    section st st' :
  final_state (parse_owner_section
                 (parse_configuration configdata debug_level escalates fuel)
                 section st) = Some st' ->
  section ∈ sections_checked st'.
Proof.
  unfold parse_owner_section, set_owner_options. unfold bind at 1. simpl.
  unfold bind at 1. simpl.
  set (st0 := with_checked _ st).
  assert (section ∈ sections_checked st0) as H0 by (simpl; set_solver).
  intros Hf. unfold bind in Hf.
  destruct (parse_configuration _ _ _ _ _ st0) as [a s1|e s1|] eqn:Hp;
    simpl in Hf; [| |done].
  - simplify_eq.
    eapply parse_configuration_keeps_checked; [exact H0|].
    by rewrite Hp.
  - simplify_eq.
    eapply parse_configuration_keeps_checked; [exact H0|].
    by rewrite Hp.
Qed.

Lemma has_section_checks configdata debug_level escalates fuel section st st' :
  final_state (has_section
                 (parse_configuration configdata debug_level escalates fuel)
                 section st) = Some st' ->
  section ∈ sections_checked st'.
Proof.
  destruct (decide (section ∈ sections_checked st)) as [Hc|Hc].
  - rewrite has_section_checked by done. simpl. by intros [= <-].
  - unfold has_section. unfold bind at 1. simpl.
    rewrite decide_False by done. unfold bind at 1.
    unfold try_except_KeyError_pass.
    pose proof (parse_owner_section_checks configdata debug_level escalates
                  fuel section st) as H.
    destruct (parse_owner_section _ section st) as [a s1|e s1|];
      simpl in *; [| |done].
    + intros [= <-]. by apply H.
    + destruct e; simpl; intros [= <-]; by apply H.
Qed.



(* ================================================================= *)
(** ** The lazy merged view *)

(** What a query returns is what the cache holds once it has returned. *)
Lemma has_section_answer pc section st b st1 :
  has_section pc section st = Ret b st1 ->
  b = bool_decide (is_Some (data st1 !! section)).
Proof.
  unfold has_section. unfold bind at 1. simpl. unfold bind at 1.
  destruct (if decide (section ∈ sections_checked st) then _ else _)
    as [a s1|e s1|]; [|done..].
  unfold bind, gets. simpl. by intros [= <- <-].
Qed.









(** C10, as amended. [has_option] swallows nothing. On a non-empty section
    name that the provider does not know and that was not checked yet, it
    lets the section-not-found failure of the resolver through, the name
    being marked checked on the way. On a name that was checked and has no
    data, it resolves nothing and fails with the [KeyError] of the access
    [self.data[section]]; it never answers false there. *)
Theorem C10_has_option_propagates configdata debug_level escalates fuel
    section option st :
  (section <> EmptyString -> configdata !! section = None ->
   section ∉ sections_checked st ->
   exists st',
     has_option (parse_configuration configdata debug_level escalates (S fuel))
       section option st
     = Exc (KeyError ("ERROR: No section named `" +:+ section +:+
                        "` was found in the configuration file.")) st' /\
     section ∈ sections_checked st' /\ data st' = data st) /\
  (section ∈ sections_checked st -> data st !! section = None ->
   forall pc, has_option pc section option st = Exc (KeyError section) st).
Proof.
  split.
  - intros Hne Hcfg Hc.
    unfold has_option, parse_owner_section, set_owner_options,
      parse_configuration, parse_configuration_of.
    unfold bind at 1. simpl. rewrite decide_False by done.
    unfold bind at 1. unfold bind at 1. unfold bind at 1. simpl.
    unfold bind at 1. simpl. rewrite decide_False by done.
    unfold bind at 1. unfold bind at 1. simpl.
    unfold parse_section. unfold bind at 1.
    destruct (loginfo_add_Ret debug_level (LogSectionEntry section)
                (with_loginfo (fun _ => [])
                   (with_checked (fun c => c ∪ {[section]}) st)))
      as (st1 & -> & _ & Hd & Hc1).
    simpl in Hd, Hc1.
    unfold bind, gets. simpl. rewrite Hcfg. simpl.
    eexists. split; [done|]. simpl. rewrite Hc1. split; [set_solver|done].
  - intros Hc Hdata pc. rewrite has_option_checked by done. by rewrite Hdata.
Qed.

Lemma C10_has_option_propagates_witness :
  ("NOSUCH" <> EmptyString /\ cfg_cycle !! "NOSUCH" = None /\
   "NOSUCH" ∉ sections_checked initial_state) /\
  exists st',
    has_option (parse_configuration cfg_cycle 0 lenient 1) "NOSUCH" "key1"
      initial_state
    = Exc (KeyError
             "ERROR: No section named `NOSUCH` was found in the configuration file.")
        st' /\
    has_option (parse_configuration cfg_cycle 0 lenient 1) "NOSUCH" "key1" st'
    = Exc (KeyError "NOSUCH") st'.
Proof.
  assert ("NOSUCH" <> EmptyString) as H1 by done.
  assert (cfg_cycle !! "NOSUCH" = None) as H2 by (vm_compute; reflexivity).
  assert ("NOSUCH" ∉ sections_checked initial_state) as H3
    by (simpl; set_solver).
  split; [done|].
  destruct (C10_has_option_propagates cfg_cycle 0 lenient 0 "NOSUCH" "key1"
              initial_state) as [Hfirst _].
  destruct (Hfirst H1 H2 H3) as (st' & Hq & Hc & Hd).
  exists st'. split; [exact Hq|].
  destruct (C10_has_option_propagates cfg_cycle 0 lenient 0 "NOSUCH" "key1"
              st') as [_ Hsecond].
  apply Hsecond; [exact Hc|]. rewrite Hd. reflexivity.
Defined.

(** C10, as stated, fails on the empty name: the provider does not know it
    and it was not checked, yet what [has_option] lets through is the usage
    error of the entry point, not a section-not-found failure. *)
Lemma C10_counterexample_empty_name :
  cfg_cycle !! EmptyString = None /\
(EmptyString ∉ sections_checked initial_state) /\
  has_option (parse_configuration cfg_cycle 0 lenient 1) EmptyString "key1"
    initial_state
  = Exc (ValueError "`section` cannot be empty.")
      (with_checked (fun c => c ∪ {[EmptyString]}) initial_state) /\
  forall msg st',
    has_option (parse_configuration cfg_cycle 0 lenient 1) EmptyString "key1"
      initial_state <> Exc (KeyError msg) st'.
Proof.
  assert (has_option (parse_configuration cfg_cycle 0 lenient 1) EmptyString
            "key1" initial_state
          = Exc (ValueError "`section` cannot be empty.")
              (with_checked (fun c => c ∪ {[EmptyString]}) initial_state))
    as H by (vm_compute; reflexivity).
  split; [vm_compute; reflexivity|]. split; [simpl; set_solver|].
  split; [exact H|]. intros msg st'. by rewrite H.
Qed.

(* ================================================================= *)
(** ** The tokenizer *)

Example tokenize_use :
  tokenize "use SECTION-A" = inr (Some ("use", Some "SECTION-A")).
Proof. vm_compute. reflexivity. Qed.

Example tokenize_punctuation : tokenize "+++" = inr None.
Proof. vm_compute. reflexivity. Qed.

Example tokenize_lookalike : tokenize "foo+bar" = inr None.
Proof. vm_compute. reflexivity. Qed.

(** *** Facts about the matcher *)

Section Matcher.

Context {R : Type}.

Lemma star_nocap (body : nat -> list ascii -> caps -> cont R -> option R)
    (k : cont R) :
  (forall pos s g k' x, body pos s g k' = Some x ->
     exists pos' s', k' pos' s' g = Some x) ->
  forall n pos s g x, star body k n pos s g = Some x ->
    exists pos' s', k pos' s' g = Some x.
Proof.
  intros Hbody. induction n as [|n IH]; intros pos s g x H; simpl in H.
  - eauto.
  - destruct (body pos s g _) as [y|] eqn:Hb; [|eauto].
    injection H as ->.
    destruct (Hbody _ _ _ _ _ Hb) as (pos' & s' & Hk).
    destruct (pos <? pos'); [|done]. eauto.
Qed.

(** A pattern without groups hands the captures it got to its
    continuation. *)
Lemma run_nocap (r : regex) :
  nocap r = true ->
  forall pos s g (k : cont R) x, run r pos s g k = Some x ->
    exists pos' s', k pos' s' g = Some x.
Proof.
  induction r as [| |c| |items|r1 IH1 r2 IH2|r1 IH1 r2 IH2|r1 IH1|i r1 IH1];
    simpl; intros Hn pos s g k x H.
  - eauto.
  - destruct (pos =? 0); [eauto|done].
  - destruct s as [|d s']; [done|]. destruct (Ascii.eqb c d); [eauto|done].
  - destruct s as [|d s']; [done|]. destruct (Ascii.eqb d Py.LF); [done|eauto].
  - destruct s as [|d s']; [done|].
    destruct (existsb _ items); [eauto|done].
  - apply andb_prop in Hn as [Hn1 Hn2].
    destruct (IH1 Hn1 _ _ _ _ _ H) as (pos' & s' & H').
    by apply (IH2 Hn2) in H'.
  - apply andb_prop in Hn as [Hn1 Hn2].
    destruct (run r1 pos s g k) as [y|] eqn:H1.
    + injection H as ->. by apply (IH1 Hn1) in H1.
    + by apply (IH2 Hn2) in H.
  - eapply star_nocap; [|exact H]. intros. by eapply IH1.
  - done.
Qed.

(** A star never fails when its continuation never does. *)
Lemma star_total (body : nat -> list ascii -> caps -> cont R -> option R)
    (k : cont R) g :
  (forall pos s, is_Some (k pos s g)) ->
  forall n pos s, is_Some (star body k n pos s g).
Proof.
  intros Hk. destruct n as [|n]; intros pos s; simpl; [done|].
  by destruct (body pos s g _).
Qed.

(** A star over a character class takes the whole run of characters of
    the class, when the continuation accepts what follows. *)
Lemma star_class items (k : cont R) w : forall n pos s' g x,
  forallb (fun c => existsb (item_matches c) items) w = true ->
  match s' with
  | [] => True
  | d :: _ => existsb (item_matches d) items = false
  end ->
  length w <= n ->
  k (pos + length w) s' g = Some x ->
  star (run (RSet items)) k n pos (w ++ s') g = Some x.
Proof.
  induction w as [|c w IH]; intros n pos s' g x Hw Hs' Hn Hk; simpl in *.
  - rewrite Nat.add_0_r in Hk.
    destruct n as [|n]; simpl; [done|].
    destruct s' as [|d s'']; [done|]. by rewrite Hs'.
  - apply andb_prop in Hw as [Hc Hw].
    destruct n as [|n]; [lia|]. simpl. rewrite Hc.
    assert ((pos <? S pos) = true) as -> by (apply Nat.ltb_lt; lia).
    rewrite (IH n (S pos) s' g x); [done|done|done|lia|].
    by rewrite <- Nat.add_succ_comm in Hk.
Qed.

Lemma plus_class items (k : cont R) w pos s' g x :
  w <> [] ->
  forallb (fun c => existsb (item_matches c) items) w = true ->
  match s' with
  | [] => True
  | d :: _ => existsb (item_matches d) items = false
  end ->
  k (pos + length w) s' g = Some x ->
  run (RPlus (RSet items)) pos (w ++ s') g k = Some x.
Proof.
  intros Hne Hw Hs' Hk. destruct w as [|c w]; [done|].
  simpl in *. apply andb_prop in Hw as [Hc Hw]. rewrite Hc.
  apply star_class; [done|done| |].
  - rewrite length_app. lia.
  - by rewrite <- Nat.add_succ_comm in Hk.
Qed.

End Matcher.

(** *** The splitter on two tokens and a suffix *)

Lemma op_char_not_space c : op_char c = true -> Py.isspace c = false.
Proof.
  destruct c as [[] [] [] [] [] [] [] []]; vm_compute; congruence.
Qed.

Lemma op_char_not_quote c : op_char c = true -> Ascii.eqb "'"%char c = false.
Proof.
  destruct c as [[] [] [] [] [] [] [] []]; vm_compute; congruence.
Qed.

Section Yields.

Context {R : Type} (P : R -> Prop).

Lemma yields_alt_first r1 r2 pos s g (k : cont R) :
  yields P (run r1 pos s g k) -> yields P (run (RAlt r1 r2) pos s g k).
Proof. intros (x & H & Hx). exists x. simpl. by rewrite H. Qed.

Lemma yields_alt_second r1 r2 pos s g (k : cont R) :
  run r1 pos s g k = None ->
  yields P (run r2 pos s g k) -> yields P (run (RAlt r1 r2) pos s g k).
Proof. intros H1 (x & H & Hx). exists x. simpl. by rewrite H1. Qed.

Lemma yields_opt r pos s g (k : cont R) :
  yields P (run r pos s g k) -> yields P (run (ROpt r) pos s g k).
Proof. apply yields_alt_first. Qed.

Lemma yields_star r pos s g (k : cont R) :
  nocap r = true ->
  (forall pos' s', yields P (k pos' s' g)) ->
  yields P (run (RStar r) pos s g k).
Proof.
  intros Hn Hk.
  assert (forall pos' s', is_Some (k pos' s' g)) as Htot.
  { intros pos' s'. destruct (Hk pos' s') as (x & -> & _). by eexists. }
  destruct (star_total (run r) k g Htot (length s) pos s) as [x Hx].
  exists x. split; [exact Hx|].
  destruct (star_nocap (run r) k (run_nocap r Hn) _ _ _ _ _ Hx)
    as (pos' & s' & Hk').
  destruct (Hk pos' s') as (y & Hy & Hp). congruence.
Qed.

Lemma yields_group_plus_class i items pos w s' g (k : cont R) :
  w <> [] ->
  forallb (fun c => existsb (item_matches c) items) w = true ->
  match s' with
  | [] => True
  | d :: _ => existsb (item_matches d) items = false
  end ->
  yields P (k (pos + length w) s' ((i, string_of_list_ascii w) :: g)) ->
  yields P (run (RGroup i (RPlus (RSet items))) pos (w ++ s') g k).
Proof.
  intros Hne Hw Hs' (x & Hk & Hx). exists x. split; [|done].
  change (run (RPlus (RSet items)) pos (w ++ s') g
            (fun pos' t g' =>
               k pos' t
                 ((i, string_of_list_ascii (take (pos' - pos) (w ++ s')))
                    :: g')) = Some x).
  apply plus_class; [done|done|done|].
  replace (pos + length w - pos) with (length w) by lia.
  by rewrite take_app_length.
Qed.

End Yields.

Lemma splitter_on_tokens (w1 w2 rest : list ascii) :
  w1 <> [] -> w2 <> [] ->
  forallb op_char w1 = true -> forallb op_char w2 = true ->
  yields (fun m => exists t2,
            groups m = [Some (string_of_list_ascii w1); Some t2; None;
                        Some (string_of_list_ascii w2)])
    (rematch 4 regex_op_splitter
       (string_of_list_ascii (w1 ++ " "%char :: w2 ++ " "%char :: rest))).
Proof.
  intros Hn1 Hn2 Hw1 Hw2. unfold rematch.
  rewrite list_ascii_of_string_of_list_ascii.
  unfold regex_op_splitter.
  change (run (RSeq RBol ?r) 0 ?s ?g ?k) with (run r 0 s g k).
  match goal with
  | |- yields ?P (run (RSeq ?a ?b) ?pos ?s ?g ?k) =>
      change (yields P (run a pos s g (fun pos' s' g' => run b pos' s' g' k)))
  end.
  apply yields_group_plus_class; [done|exact Hw1|by vm_compute|].
  match goal with
  | |- yields ?P (run (RSeq ?a ?b) ?pos ?s ?g ?k) =>
      change (yields P (run a pos s g (fun pos' s' g' => run b pos' s' g' k)))
  end.
  apply yields_opt.
  change (run (RLit " "%char) ?pos (" "%char :: ?s) ?g ?k)
    with (k (S pos) s g).
  cbv beta.
  apply yields_opt. unfold re_operand.
  match goal with
  | |- yields ?P (run (RGroup ?i ?a) ?pos ?s ?g ?k) =>
      change (yields P (run a pos s g
                (fun pos' s' g' =>
                   k pos' s'
                     ((i, string_of_list_ascii (take (pos' - pos) s)) :: g'))))
  end.
  destruct w2 as [|c2 w2]; [done|].
  apply yields_alt_second.
  { simpl in Hw2. apply andb_prop in Hw2 as [Hc2 _].
    unfold re_quoted. cbn [run app].
    by rewrite (op_char_not_quote c2 Hc2). }
  unfold re_unquoted.
  match goal with
  | |- yields ?P (run (RSeq ?a ?b) ?pos ?s ?g ?k) =>
      change (yields P (run a pos s g (fun pos' s' g' => run b pos' s' g' k)))
  end.
  apply (yields_group_plus_class _ 4 _ _ (c2 :: w2));
    [done|exact Hw2|by vm_compute|].
  apply yields_star; [done|].
  intros pos' s'. eexists. split; [reflexivity|].
  simpl. eexists. reflexivity.
Qed.

(** *** White space around tokens *)

Lemma string_app_list (a b : string) :
  a +:+ b
  = string_of_list_ascii (list_ascii_of_string a ++ list_ascii_of_string b).
Proof.
  induction a as [|c a IH]; simpl.
  - by rewrite string_of_list_ascii_of_string.
  - change (String c a +:+ b) with (String c (a +:+ b)). by rewrite IH.
Qed.

Lemma list_ascii_app (a b : string) :
  list_ascii_of_string (a +:+ b)
  = list_ascii_of_string a ++ list_ascii_of_string b.
Proof.
  by rewrite string_app_list, list_ascii_of_string_of_list_ascii.
Qed.

Lemma dropwhile_none p l :
  List.Forall (fun c => p c = false) l -> Py.dropwhile p l = l.
Proof. intros H. destruct H as [|c l Hc _]; simpl; [done|]. by rewrite Hc. Qed.

Lemma takewhile_token w s :
  forallb op_char w = true ->
  Py.takewhile (fun c => negb (Py.isspace c)) (w ++ " "%char :: s) = w.
Proof.
  induction w as [|c w IH]; simpl; intros Hw; [done|].
  apply andb_prop in Hw as [Hc Hw].
  rewrite (op_char_not_space c Hc). simpl. by rewrite IH.
Qed.

Lemma token_no_space w :
  forallb op_char w = true -> List.Forall (fun c => Py.isspace c = false) w.
Proof.
  intros Hw. apply List.Forall_forall. intros c Hc.
  apply op_char_not_space.
  rewrite forallb_forall in Hw. by apply Hw.
Qed.

Lemma strip_token w :
  forallb op_char w = true ->
  Py.strip (string_of_list_ascii w) = string_of_list_ascii w.
Proof.
  intros Hw. unfold Py.strip, Py.strip_with.
  rewrite list_ascii_of_string_of_list_ascii.
  rewrite (dropwhile_none _ w) by (by apply token_no_space).
  rewrite dropwhile_none by (by apply List.Forall_rev, token_no_space).
  by rewrite rev_involutive.
Qed.

Lemma split_first_token w s :
  w <> [] -> forallb op_char w = true ->
  exists toks,
    Py.split (string_of_list_ascii (w ++ " "%char :: s))
    = string_of_list_ascii w :: toks.
Proof.
  intros Hne Hw. unfold Py.split.
  rewrite list_ascii_of_string_of_list_ascii.
  destruct w as [|c w]; [done|].
  simpl in Hw. apply andb_prop in Hw as [Hc Hw].
  simpl. rewrite (op_char_not_space c Hc). simpl.
  rewrite takewhile_token by done.
  rewrite (op_char_not_space c Hc). simpl. by eexists.
Qed.

(** The operands of a key made of two tokens and a suffix: the tokens, the
    first with its dashes turned into underscores, whatever the suffix. *)
Lemma matcher_on_tokens (op1 op2 rest : string) :
  is_token op1 -> is_token op2 ->
  exists m,
    regex_op_matcher (op1 +:+ " " +:+ op2 +:+ " " +:+ rest) = inr (Some m) /\
    get_op1_from_regex_match m = Py.replace "-"%char "_"%char op1 /\
    get_op2_from_regex_match m = Some op2.
Proof.
  intros [Hn1 Hw1] [Hn2 Hw2].
  assert (list_ascii_of_string op1 <> []) as Hl1 by (by destruct op1).
  assert (list_ascii_of_string op2 <> []) as Hl2 by (by destruct op2).
  assert (op1 +:+ " " +:+ op2 +:+ " " +:+ rest
          = string_of_list_ascii
              (list_ascii_of_string op1 ++
               " "%char :: list_ascii_of_string op2 ++
               " "%char :: list_ascii_of_string rest)) as ->.
  { rewrite <- (string_of_list_ascii_of_string (op1 +:+ _)). f_equal.
    by rewrite !list_ascii_app. }
  destruct (splitter_on_tokens _ _ (list_ascii_of_string rest) Hl1 Hl2 Hw1 Hw2)
    as (m & Hm & t2 & Hg).
  rewrite !string_of_list_ascii_of_string in Hg.
  destruct (split_first_token _ (list_ascii_of_string op2 ++
              " "%char :: list_ascii_of_string rest) Hl1 Hw1)
    as (toks & Hsplit).
  rewrite string_of_list_ascii_of_string in Hsplit.
  exists m. split; [|split].
  - unfold regex_op_matcher. rewrite Hm, Hsplit, Hg. simpl.
    by rewrite decide_True.
  - unfold get_op1_from_regex_match. rewrite Hg. simpl.
    rewrite <- (string_of_list_ascii_of_string op1) at 1.
    rewrite strip_token by done.
    by rewrite string_of_list_ascii_of_string.
  - unfold get_op2_from_regex_match. rewrite Hg. simpl.
    destruct op2 as [|c2 op2]; [done|]. simpl.
    f_equal.
    rewrite <- (string_of_list_ascii_of_string (String c2 op2)).
    by apply strip_token.
Qed.

(** C9. The key [envvar-prepend PATH extra-suffix] gives the operation
    [envvar_prepend], dashes turned into underscores, and the operand
    [PATH]; and so does the same key with any other text in place of the
    suffix: what follows the operand and a space is dropped and is no
    error. *)
Theorem C9_suffix_after_operand_is_discarded :
  (exists m,
     regex_op_matcher "envvar-prepend PATH extra-suffix" = inr (Some m) /\
     get_op1_from_regex_match m = "envvar_prepend" /\
     get_op2_from_regex_match m = Some "PATH") /\
  (forall rest, exists m,
     regex_op_matcher ("envvar-prepend PATH " +:+ rest) = inr (Some m) /\
     get_op1_from_regex_match m = "envvar_prepend" /\
     get_op2_from_regex_match m = Some "PATH").
Proof.
  assert (forall rest, exists m,
            regex_op_matcher ("envvar-prepend PATH " +:+ rest) = inr (Some m) /\
            get_op1_from_regex_match m = "envvar_prepend" /\
            get_op2_from_regex_match m = Some "PATH") as Hall.
  { intros rest.
    destruct (matcher_on_tokens "envvar-prepend" "PATH" rest)
      as (m & Hm & H1 & H2); [by split|by split|].
    exists m. split; [exact Hm|]. split; [|exact H2].
    rewrite H1. by vm_compute. }
  split; [|exact Hall]. exact (Hall "extra-suffix").
Qed.

(** C4, as amended. On the key [envvar-prepend PATH 'A'] the operation is
    [envvar_prepend] and the operand is [PATH]: the operand is what comes
    right after the operation, and a quoted text after an unquoted operand
    belongs to the suffix that is dropped. A quoted operand is taken when
    it comes right after the operation, as in [envvar-prepend 'PATH A'],
    whose operand is [PATH A]. *)
Theorem C4_operand_follows_the_operation :
  (exists m,
     regex_op_matcher "envvar-prepend PATH 'A'" = inr (Some m) /\
     get_op1_from_regex_match m = "envvar_prepend" /\
     get_op2_from_regex_match m = Some "PATH") /\
  (exists m,
     regex_op_matcher "envvar-prepend 'PATH A'" = inr (Some m) /\
     get_op1_from_regex_match m = "envvar_prepend" /\
     get_op2_from_regex_match m = Some "PATH A").
Proof.
  split.
  - eexists. split; [vm_compute; reflexivity|].
    split; vm_compute; reflexivity.
  - eexists. split; [vm_compute; reflexivity|].
    split; vm_compute; reflexivity.
Qed.

(** C4, as stated, fails: the operand of [envvar-prepend PATH 'A'] is not
    [A]. *)
Lemma C4_counterexample_quoted_suffix :
  ~ exists m,
      regex_op_matcher "envvar-prepend PATH 'A'" = inr (Some m) /\
      get_op1_from_regex_match m = "envvar_prepend" /\
      get_op2_from_regex_match m = Some "A".
Proof.
  intros (m & Hm & _ & H2).
  vm_compute in Hm. injection Hm as <-.
  vm_compute in H2. discriminate H2.
Qed.

(* ================================================================= *)
(** ** The resolver on the example configurations *)

(** C1, on the code. Section [SEC_A] sets [key1] and then includes
    [SEC_B], which sets [key1] again: the value kept for [key1] is the
    first one, not the one of the last directive applied to the key. *)
Theorem C1_first_write_is_kept :
  match parse_configuration cfg_override 0 lenient 2 "SEC_A" initial_state with
  | Ret _ st =>
      (data st !! "SEC_A") ≫= (fun sec => sec !! "key1") = Some "from_A" /\
      (cfg_override !! "SEC_B") ≫= (fun entries => last entries)
      = Some ("key1", Some "from_B")
  | _ => False
  end.
Proof. vm_compute. split; reflexivity. Qed.

(** C2, on the code. With the sections [SEC_X] and [SEC_Y] that [use] each
    other, resolving [SEC_X] reports one warning, raised while [SEC_Y] is
    walked and its [use SEC_X] is met. Its message names the operation
    [use] and the source [SEC_Y]; the target [SEC_X] occurs nowhere in it.
    The keys met before and after the cycle are all in the result. Under
    a policy that escalates warnings the same message is the one of the
    exception that ends the resolution. *)
Theorem C2_cycle_message_names_the_operation :
  match parse_configuration cfg_cycle 1 lenient 2 "SEC_X" initial_state with
  | Ret _ st =>
      reported st
      = [("WARNING", ValueError (cycle_message "use" "SEC_Y"))] /\
      In (LogCycleDetected "SEC_Y" "use") (loginfo st) /\
      Py.contains "SEC_Y" (cycle_message "use" "SEC_Y") = true /\
      Py.contains "[use]" (cycle_message "use" "SEC_Y") = true /\
      Py.contains "SEC_X" (cycle_message "use" "SEC_Y") = false /\
      map_to_list <$> (data st !! "SEC_X")
      = Some [("key3", "q"); ("key1", "a"); ("key2", "c")]
  | _ => False
  end /\
  match parse_configuration cfg_cycle 1 strict 2 "SEC_X" initial_state with
  | Exc e _ => e = ValueError (cycle_message "use" "SEC_Y")
  | _ => False
  end.
Proof.
  split.
  - vm_compute. repeat split; try reflexivity. auto 20.
  - vm_compute. reflexivity.
Qed.

(* ================================================================= *)
(** ** More fuel does not change a result *)

Lemma refines_refl {A : Type} (r : res A) : refines r r.
Proof. by right. Qed.

Lemma refines_bind {A B : Type} (c c' : M A) (k k' : A -> M B) st :
  refines (c st) (c' st) ->
  (forall a st', refines (k a st') (k' a st')) ->
  refines (bind c k st) (bind c' k' st).
Proof.
  intros [Hc|Hc] Hk; unfold bind.
  - left. by rewrite Hc.
  - rewrite Hc. destruct (c' st); [apply Hk|by right|by right].
Qed.

Lemma refines_bind_same {A B : Type} (c : M A) (k k' : A -> M B) st :
  (forall a st', refines (k a st') (k' a st')) ->
  refines (bind c k st) (bind c k' st).
Proof. intros. by apply refines_bind; [apply refines_refl|]. Qed.

Lemma refines_try (c c' : M unit) st :
  refines (c st) (c' st) ->
  refines (try_except_KeyError_pass c st) (try_except_KeyError_pass c' st).
Proof.
  intros [Hc|Hc]; unfold try_except_KeyError_pass.
  - left. by rewrite Hc.
  - right. by rewrite Hc.
Qed.

Lemma refines_for_each {A S : Type} (body body' : A -> S -> M S) l :
  (forall x acc st, refines (body x acc st) (body' x acc st)) ->
  forall acc st, refines (for_each body l acc st) (for_each body' l acc st).
Proof.
  intros Hb. induction l as [|x l IH]; intros acc st; cbn [for_each].
  - apply refines_refl.
  - apply refines_bind; [apply Hb|]. intros. apply IH.
Qed.

Section MoreFuelView.

Variables pc pc' : string -> M (gmap string string).
Hypothesis Hpc : forall s st, refines (pc s st) (pc' s st).

Lemma refines_parse_owner_section section st :
  refines (parse_owner_section pc section st)
    (parse_owner_section pc' section st).
Proof.
  unfold parse_owner_section.
  apply refines_bind_same. intros _ st1.
  apply refines_bind_same. intros _ st2.
  apply refines_bind; [apply Hpc|]. intros. apply refines_refl.
Qed.

Lemma refines_has_section section st :
  refines (has_section pc section st) (has_section pc' section st).
Proof.
  unfold has_section.
  apply refines_bind_same. intros checked st1.
  apply refines_bind; [|intros; apply refines_refl].
  destruct (decide _); [apply refines_refl|].
  apply refines_try, refines_parse_owner_section.
Qed.

Lemma refines_add_section section st :
  refines (add_section pc section st) (add_section pc' section st).
Proof.
  unfold add_section.
  apply refines_bind; [apply refines_has_section|].
  intros. apply refines_refl.
Qed.

Lemma refines_set section option value st :
  refines (set pc section option value st) (set pc' section option value st).
Proof.
  unfold set.
  apply refines_bind; [apply refines_has_section|]. intros b st1.
  apply refines_bind; [|intros; apply refines_refl].
  destruct b; [apply refines_refl|apply refines_add_section].
Qed.

End MoreFuelView.

Section MoreFuelFrame.

Variable configdata : gmap string (list (string * option string)).
Variable debug_level : nat.
Variable escalates : string -> bool.
Variables P P' :
  option string -> option (gmap string string) -> option (gmap string bool) ->
  option string -> M (gmap string string * gmap string bool).
Hypothesis HP : forall n d p r st, refines (P n d p r st) (P' n d p r st).

Lemma refines_parse_configuration_of section st :
  refines (parse_configuration_of P section st)
    (parse_configuration_of P' section st).
Proof.
  unfold parse_configuration_of.
  destruct (decide _); [apply refines_refl|].
  apply refines_bind_same. intros _ st1.
  apply refines_bind; [apply HP|]. intros [d p] st2. apply refines_refl.
Qed.

Lemma refines_handler_generic root name op1 op2 d p entry st :
  refines (_handler_generic debug_level P root name op1 op2 d p entry st)
    (_handler_generic debug_level P' root name op1 op2 d p entry st).
Proof.
  unfold _handler_generic.
  apply refines_bind_same. intros _ st1.
  apply refines_bind_same. intros _ st2.
  apply refines_bind; [|intros; apply refines_refl].
  apply refines_set. intros. apply refines_parse_configuration_of.
Qed.

Lemma refines_handler_use root name op1 op2 d p entry st :
  refines (_handler_use debug_level escalates P root name op1 op2 d p entry st)
    (_handler_use debug_level escalates P' root name op1 op2 d p entry st).
Proof.
  unfold _handler_use.
  apply refines_bind_same. intros _ st1.
  apply refines_bind_same. intros _ st2.
  apply refines_bind; [|intros [d' p'] st3; apply refines_refl].
  destruct (negb _); [apply HP|apply refines_refl].
Qed.

Lemma refines_process_entry root name entry acc st :
  refines (process_entry debug_level escalates P root name entry acc st)
    (process_entry debug_level escalates P' root name entry acc st).
Proof.
  unfold process_entry. destruct acc as [d p].
  apply refines_bind_same. intros _ st1.
  destruct (regex_op_matcher _) as [e|[m|]]; [apply refines_refl| |apply refines_refl].
  apply refines_bind_same. intros _ st2.
  unfold getattr_handler.
  destruct (decide (_ = "_handler_use")).
  - apply refines_bind; [apply refines_handler_use|].
    intros [[rval d'] p'] st3. apply refines_refl.
  - destruct (decide (_ = "_handler_generic")).
    + apply refines_bind; [apply refines_handler_generic|].
      intros [[rval d'] p'] st3. apply refines_refl.
    + apply refines_bind; [apply refines_handler_generic|].
      intros [[rval d'] p'] st3. apply refines_refl.
Qed.

Lemma refines_parse_section name d p r st :
  refines (parse_section configdata debug_level escalates P name d p r st)
    (parse_section configdata debug_level escalates P' name d p r st).
Proof.
  unfold parse_section.
  apply refines_bind_same. intros _ st1.
  apply refines_bind_same. intros root st2.
  apply refines_bind_same. intros _ st3.
  apply refines_bind_same. intros entries st4.
  apply refines_bind; [|intros [d' p'] st5; apply refines_refl].
  apply refines_for_each. intros. apply refines_process_entry.
Qed.

End MoreFuelFrame.

Lemma refines_parse_r_S configdata debug_level escalates fuel :
  forall n d p r st,
    refines (_parse_configuration_r configdata debug_level escalates fuel
               n d p r st)
      (_parse_configuration_r configdata debug_level escalates (S fuel)
         n d p r st).
Proof.
  induction fuel as [|fuel IH]; intros n d p r st.
  - destruct n as [name|]; [by left|apply refines_refl].
  - destruct n as [name|]; [|apply refines_refl].
    cbn [_parse_configuration_r]. by apply refines_parse_section.
Qed.

(** A call that ends with some fuel ends in the same way with more. *)
Lemma more_fuel configdata debug_level escalates fuel extra root st :
  parse_configuration configdata debug_level escalates fuel root st <> Fuel ->
  parse_configuration configdata debug_level escalates (fuel + extra) root st
  = parse_configuration configdata debug_level escalates fuel root st.
Proof.
  intros Hne. induction extra as [|extra IH].
  - by rewrite Nat.add_0_r.
  - rewrite Nat.add_succ_r, <- IH.
    destruct (refines_parse_configuration_of
                (_parse_configuration_r configdata debug_level escalates
                   (fuel + extra))
                (_parse_configuration_r configdata debug_level escalates
                   (S (fuel + extra)))
                (refines_parse_r_S configdata debug_level escalates
                   (fuel + extra)) root st) as [H|H].
    + exfalso. apply Hne. rewrite <- IH. exact H.
    + symmetry. exact H.
Qed.

(* ================================================================= *)
(** ** Termination of the resolver *)

Lemma use_closedb_sound configdata U :
  use_closedb configdata U = true -> use_closed configdata U.
Proof.
  unfold use_closedb. rewrite forallb_forall.
  intros H s entries entry target Hs Hcfg He Ht.
  specialize (H (s, entries)). simpl in H.
  rewrite decide_True in H by done.
  assert (forallb
            (fun entry =>
               match use_target entry with
               | Some target => bool_decide (target ∈ U)
               | None => true
               end) entries = true) as Hall.
  { apply H. apply list_elem_of_In. by apply elem_of_map_to_list. }
  rewrite forallb_forall in Hall.
  specialize (Hall entry). rewrite Ht in Hall.
  apply (bool_decide_eq_true_1 (target ∈ U)), Hall.
  by apply list_elem_of_In.
Qed.

Lemma all_names_closed configdata root :
  use_closed configdata (all_names configdata root) /\
  root ∈ all_names configdata root.
Proof.
  split; [|unfold all_names; set_solver].
  intros s entries entry target _ Hcfg He Ht.
  unfold all_names. apply elem_of_union. right.
  apply elem_of_union_list.
  exists (list_to_set (omap use_target entries)). split.
  - apply list_elem_of_In, in_map_iff.
    exists (s, entries). split; [done|].
    apply list_elem_of_In. by apply elem_of_map_to_list.
  - apply elem_of_list_to_set, list_elem_of_omap. by exists entry.
Qed.

Lemma reachable_set_closed configdata root (U : gset string) :
  (forall s, s ∈ U <-> reachable configdata root s) ->
  use_closed configdata U /\ root ∈ U.
Proof.
  intros HU. split.
  - intros s entries entry target Hs Hcfg He Ht.
    apply HU. eapply reach_use; [by apply HU| | |]; done.
  - apply HU. constructor.
Qed.

(** With as much fuel as a closed set of names that holds the root has
    members, the resolver does not run out of fuel. *)
Lemma fuel_suffices configdata debug_level escalates U root fuel st :
  use_closed configdata U -> root ∈ U -> size U <= fuel ->
  parse_configuration configdata debug_level escalates fuel root st <> Fuel.
Proof.
  intros Hclosed Hroot Hsize Hfuel.
  pose proof (parse_configuration_ends configdata debug_level escalates root
                (fun _ => True) (stable_True configdata root) U fuel st
                Logic.I) as H.
  rewrite Hfuel in H. simpl in H. apply H.
  split; [done|]. split; [done|]. split; [set_solver|].
  rewrite map_size_empty. lia.
Qed.

(** C6. A top-level resolution call ends, with a result or with an
    exception, whatever the configuration, cyclic or not. The fuel of the
    model counts the section frames that are nested; as many as there are
    names in a set that holds the root and the targets of the [use]
    directives of its members are enough, because a name in flight is not
    entered again, and more fuel gives the same outcome. Such a set exists
    for every configuration, and the names reachable from the root form
    the least one. *)
Theorem C6_resolution_terminates configdata debug_level escalates root st :
  (forall (U : gset string) fuel,
     use_closed configdata U -> root ∈ U -> size U <= fuel ->
     parse_configuration configdata debug_level escalates fuel root st
     <> Fuel /\
     forall extra,
       parse_configuration configdata debug_level escalates (fuel + extra)
         root st
       = parse_configuration configdata debug_level escalates fuel root st) /\
  (forall (U : gset string) fuel,
     (forall s, s ∈ U <-> reachable configdata root s) -> size U <= fuel ->
     parse_configuration configdata debug_level escalates fuel root st
     <> Fuel) /\
  (exists fuel,
     parse_configuration configdata debug_level escalates fuel root st
     <> Fuel).
Proof.
  split; [|split].
  - intros U fuel Hclosed Hroot Hsize.
    assert (parse_configuration configdata debug_level escalates fuel root st
            <> Fuel) as Hne by (by eapply fuel_suffices).
    split; [exact Hne|]. intros extra. by apply more_fuel.
  - intros U fuel HU.
    destruct (reachable_set_closed configdata root U HU).
    by apply fuel_suffices.
  - exists (size (all_names configdata root)).
    destruct (all_names_closed configdata root).
    by eapply fuel_suffices.
Qed.

Lemma C6_resolution_terminates_witness :
  let U : gset string := {[ "SEC_X"; "SEC_Y" ]} in
  (use_closed cfg_cycle U /\ "SEC_X" ∈ U /\ size U <= 2) /\
  parse_configuration cfg_cycle 0 lenient 2 "SEC_X" initial_state <> Fuel.
Proof.
  intros U.
  assert (use_closed cfg_cycle U) as H1
    by (apply use_closedb_sound; vm_compute; reflexivity).
  assert ("SEC_X" ∈ U) as H2 by (unfold U; set_solver).
  assert (size U <= 2) as H3 by (vm_compute; lia).
  split; [done|].
  exact (proj1 (proj1 (C6_resolution_terminates cfg_cycle 0 lenient "SEC_X"
                         initial_state) U 2 H1 H2 H3)).
Defined.

(* ================================================================= *)
(** ** Dispatch to the generic handler *)

Lemma handler_generic_Ret debug_level parse_r root section_name op1 op2 d p
    key value st :
  root ∈ sections_checked st ->
  exists st',
    _handler_generic debug_level parse_r root section_name op1 op2 d p
      (key, value) st = Ret (None, d, p) st' /\
    data st' = store root key value (data st) /\
    sections_checked st' = sections_checked st.
Proof.
  intros Hc. unfold _handler_generic.
  unfold bind at 1. simpl.
  unfold bind at 1.
  destruct (loginfo_add_Ret debug_level (LogHandlerEntry "_handler_generic")
              (with_probes (fun l => l ++ [HandlerCall "_handler_generic"]) st))
    as (st1 & -> & _ & Hd1 & Hc1).
  simpl in Hd1, Hc1.
  unfold bind at 1.
  destruct (set_checked (parse_configuration_of parse_r) root key value st1)
    as [x ->]; [by rewrite Hc1|].
  unfold bind at 1.
  destruct (loginfo_add_Ret debug_level (LogHandlerExit "_handler_generic")
              (with_data (store root key value) st1))
    as (st2 & -> & _ & Hd2 & Hc2).
  simpl in Hd2, Hc2.
  exists st2. split; [done|]. split; [by rewrite Hd2, Hd1|by rewrite Hc2].
Qed.

(** A key whose operation is not [use] ends in the generic handler, by
    name when the operation is [generic] and as the fallback otherwise.
    In the first case the handler's missing return value is reported as a
    warning, which must not be escalated for the entry to complete. *)
Lemma process_entry_generic debug_level escalates parse_r root section_name
    entry m d p st :
  regex_op_matcher (entry_key entry) = inr (Some m) ->
  get_op1_from_regex_match m <> "use" ->
  get_op1_from_regex_match m <> "generic" \/ escalates "WARNING" = false ->
  root ∈ sections_checked st ->
  exists st',
    process_entry debug_level escalates parse_r root section_name entry (d, p) st
    = Ret (d, p) st' /\
    data st'
    = store root (entry_key entry) (entry_value entry) (data st) /\
    sections_checked st' = sections_checked st.
Proof.
  intros Hm Hnuse Hgen Hc. unfold process_entry.
  change (Py.strip entry.1) with (entry_key entry).
  change (Py.strip_chars [Py.DQUOTE] (Py.strip (Py.str entry.2)))
    with (entry_value entry).
  unfold bind at 1.
  destruct (loginfo_add_Ret debug_level
              (LogSectionKeyValue (entry_key entry) (entry_value entry)) st)
    as (st1 & -> & _ & Hd1 & Hc1).
  rewrite Hm. unfold bind at 1.
  destruct (loginfo_add_Ret debug_level
              (LogSectionOperands (get_op1_from_regex_match m)
                 (get_op2_from_regex_match m)) st1)
    as (st2 & -> & _ & Hd2 & Hc2).
  unfold getattr_handler.
  rewrite decide_False by (intros H; by apply handler_name_use in H).
  destruct (handler_generic_Ret debug_level parse_r root section_name
              (get_op1_from_regex_match m) (get_op2_from_regex_match m) d p
              (entry_key entry) (entry_value entry) st2)
    as (st3 & Hh & Hd3 & Hc3); [by rewrite Hc2, Hc1|].
  destruct (decide (_ = "_handler_generic")) as [Hg|Hg].
  - unfold bind at 1. rewrite Hh.
    rewrite decide_False by done.
    destruct Hgen as [Hgen|Hesc];
      [by apply handler_name_generic in Hg|].
    unfold exception_control_event. rewrite Hesc.
    unfold bind, modify. simpl.
    eexists. split; [done|]. simpl.
    split; [by rewrite Hd3, Hd2, Hd1|by rewrite Hc3, Hc2, Hc1].
  - unfold bind at 1. rewrite Hh. simpl.
    exists st3. split; [done|].
    split; [by rewrite Hd3, Hd2, Hd1|by rewrite Hc3, Hc2, Hc1].
Qed.

(* ================================================================= *)
(** ** Directives without an operand *)

(** A [use] directive without an operand hands [None] to the recursive
    driver, whose guard raises. *)
Lemma process_entry_bare_use configdata debug_level escalates fuel root
    section_name entry m d p st :
  regex_op_matcher (entry_key entry) = inr (Some m) ->
  get_op1_from_regex_match m = "use" ->
  get_op2_from_regex_match m = None ->
  exists st',
    process_entry debug_level escalates
      (_parse_configuration_r configdata debug_level escalates fuel)
      root section_name entry (d, p) st
    = Exc (TypeError "ERROR: a section name must not be None.") st'.
Proof.
  intros Hm Hop1 Hop2. unfold process_entry.
  change (Py.strip entry.1) with (entry_key entry).
  unfold bind at 1.
  destruct (loginfo_add_Ret debug_level
              (LogSectionKeyValue (entry_key entry)
                 (Py.strip_chars [Py.DQUOTE] (Py.strip (Py.str entry.2)))) st)
    as (st1 & -> & _).
  rewrite Hm, Hop1, Hop2. unfold bind at 1.
  destruct (loginfo_add_Ret debug_level (LogSectionOperands "use" None) st1)
    as (st2 & -> & _).
  unfold getattr_handler. rewrite decide_True by reflexivity.
  unfold _handler_use.
  unfold bind at 1. unfold bind at 1. simpl.
  unfold bind at 1.
  destruct (loginfo_add_Ret debug_level (LogHandlerEntry "_handler_use")
              (with_probes (fun l => l ++ [HandlerCall "_handler_use"]) st2))
    as (st3 & -> & _).
  unfold bind at 1. rewrite parse_r_None_raises. by eexists.
Qed.

(** A directive without an operand whose operation is not [use] goes to
    the generic handler: the pair is stored under the root and the walk
    goes on to the next key. For the operation [generic], which reaches
    that handler by name, this is under a policy that does not escalate
    the warning about the handler's missing return value. When the
    operation is [use] the walk of the section ends at that key. *)
Lemma absent_operand_dispatch configdata debug_level escalates fuel root
    section_name entry m rest d p st :
  let body :=
    process_entry debug_level escalates
      (_parse_configuration_r configdata debug_level escalates fuel)
      root section_name in
  regex_op_matcher (entry_key entry) = inr (Some m) ->
  get_op2_from_regex_match m = None ->
  root ∈ sections_checked st ->
  (get_op1_from_regex_match m <> "use" ->
   get_op1_from_regex_match m <> "generic" \/ escalates "WARNING" = false ->
   exists st',
     body entry (d, p) st = Ret (d, p) st' /\
     data st' = store root (entry_key entry) (entry_value entry) (data st) /\
     for_each body (entry :: rest) (d, p) st = for_each body rest (d, p) st') /\
  (get_op1_from_regex_match m = "use" ->
   exists st',
     for_each body (entry :: rest) (d, p) st
     = Exc (TypeError "ERROR: a section name must not be None.") st').
Proof.
  intros body Hm Hop2 Hc. split.
  - intros Hnuse Hesc.
    destruct (process_entry_generic debug_level escalates
                (_parse_configuration_r configdata debug_level escalates fuel)
                root section_name entry m d p st Hm Hnuse Hesc Hc)
      as (st' & Hp & Hd & _).
    exists st'. split; [exact Hp|]. split; [exact Hd|].
    change (for_each body (entry :: rest) (d, p) st)
      with (bind (body entry (d, p)) (for_each body rest) st).
    by apply bind_Ret.
  - intros Huse.
    destruct (process_entry_bare_use configdata debug_level escalates fuel
                root section_name entry m d p st Hm Huse Hop2) as (st' & Hp).
    exists st'.
    change (for_each body (entry :: rest) (d, p) st)
      with (bind (body entry (d, p)) (for_each body rest) st).
    by apply bind_Exc.
Qed.

(** C5, on the code. The section [SEC_A] of [cfg_bare_use] holds a [use]
    key without an operand and then [key1]. The key [use] is a directive
    whose operand is absent; [_handler_use] passes the missing operand on
    as a section name, the guard of the resolver raises its type error,
    and the resolution ends there, under a policy that escalates nothing:
    [key1] is never stored. The generic handler does accept a directive
    without an operand: with the key [flag] in the place of [use] the
    walk stores [flag], with the word None for its value, and goes on to
    store [key1]. *)
Theorem C5_bare_use_ends_the_resolution :
  cfg_bare_use !! "SEC_A" = Some [("use", None); ("key1", Some "v")] /\
  tokenize "use" = inr (Some ("use", None)) /\
  (exists st,
     parse_configuration cfg_bare_use 0 lenient 2 "SEC_A" initial_state
     = Exc (TypeError "ERROR: a section name must not be None.") st /\
     data st !! "SEC_A" = None) /\
  tokenize "flag" = inr (Some ("flag", None)) /\
  match for_each
          (process_entry 0 lenient
             (_parse_configuration_r cfg_bare_use 0 lenient 1)
             "SEC_A" "SEC_A")
          [("flag", None); ("key1", Some "v")] (∅, ∅)
          (with_checked (fun c => c ∪ {[ "SEC_A" ]}) initial_state) with
  | Ret _ st =>
      data st = {[ "SEC_A" := {[ "flag" := "None"; "key1" := "v" ]} ]}
  | _ => False
  end.
Proof.
  split; [vm_compute; reflexivity|]. split; [vm_compute; reflexivity|].
  split.
  { eexists. split; [vm_compute; reflexivity|vm_compute; reflexivity]. }
  split; [vm_compute; reflexivity|].
  vm_compute. reflexivity.
Qed.

(* ================================================================= *)
(** ** What a whole resolution does to the view *)

(** A resolution writes under the name of its root only. *)
Lemma resolution_writes_only_root configdata debug_level escalates fuel root
    s st st' :
  s <> root ->
  final_state (parse_configuration configdata debug_level escalates fuel
                 root st) = Some st' ->
  data st' !! s = data st !! s.
Proof.
  intros Hs Hf.
  assert (stable configdata root (fun x => data x !! s = data st !! s)) as HI.
  { split; try done.
    intros s0 entries entry x _ _ Hx. simpl. unfold store.
    by rewrite lookup_insert_ne. }
  pose proof (parse_configuration_ends configdata debug_level escalates root
                _ HI ∅ fuel st eq_refl) as H.
  destruct (parse_configuration _ _ _ _ _ _) as [a s1|e s1|];
    simpl in *; [|by simplify_eq|done].
  destruct H as [H _]. by simplify_eq.
Qed.

(** A key that has a value under the root keeps it through a whole
    resolution of that root, whatever directives name the key again. *)
Lemma first_write_persists configdata debug_level escalates fuel root key v
    st st' :
  (data st !! root) ≫= (fun sec => sec !! key) = Some v ->
  final_state (parse_configuration configdata debug_level escalates fuel
                 root st) = Some st' ->
  (data st' !! root) ≫= (fun sec => sec !! key) = Some v.
Proof.
  intros Hv Hf.
  assert (stable configdata root
            (fun x => (data x !! root) ≫= (fun sec => sec !! key) = Some v))
    as HI.
  { split; try done.
    intros s0 entries entry x _ _ Hx. simpl. unfold store.
    rewrite lookup_insert_eq. simpl.
    destruct (data x !! root) as [sec|]; simpl in *; [|done].
    destruct (sec !! entry_key entry) eqn:Hk; [done|].
    rewrite lookup_insert_ne; [done|]. intros <-. congruence. }
  pose proof (parse_configuration_ends configdata debug_level escalates root
                _ HI ∅ fuel st Hv) as H.
  destruct (parse_configuration _ _ _ _ _ _) as [a s1|e s1|];
    simpl in *; [|by simplify_eq|done].
  destruct H as [H _]. by simplify_eq.
Qed.

Lemma loginfo_add_reported debug_level entry st :
  exists st', _loginfo_add debug_level entry st = Ret tt st' /\
              reported st' = reported st.
Proof.
  unfold _loginfo_add. destruct (0 <? debug_level); simpl; by eexists.
Qed.

(** The warning of a cycle is made of the operation and of the section
    being walked; the target of the [use] does not enter it. *)
Lemma handler_use_cycle debug_level escalates parse_r root section_name op1
    target d p entry st :
  is_Some (p !! target) ->
  exists st2 st3,
    _handler_use debug_level escalates parse_r root section_name op1
      (Some target) d p entry st
    = (if escalates "WARNING"
       then Exc (ValueError (cycle_message op1 section_name)) st2
       else Ret (Some 0, d, p) st3) /\
    reported st3
    = reported st ++ [("WARNING", ValueError (cycle_message op1 section_name))].
Proof.
  intros Hin. unfold _handler_use.
  unfold bind at 1. simpl.
  unfold bind at 1.
  destruct (loginfo_add_reported debug_level (LogHandlerEntry "_handler_use")
              (with_probes (fun l => l ++ [HandlerCall "_handler_use"]) st))
    as (st1 & -> & Hr1).
  simpl in Hr1.
  rewrite bool_decide_true by done. simpl.
  unfold bind at 1. unfold bind at 1. unfold bind at 1.
  destruct (loginfo_add_reported debug_level
              (LogCycleDetected section_name op1) st1) as (st2 & -> & Hr2).
  unfold exception_control_event.
  destruct (loginfo_add_reported debug_level (LogHandlerExit "_handler_use")
              (with_reported
                 (fun l => l ++ [("WARNING",
                                  ValueError (cycle_message op1 section_name))])
                 st2)) as (st3 & H3 & Hr3).
  simpl in Hr3.
  exists st2, st3. split; [|by rewrite Hr3, Hr2, Hr1].
  destruct (escalates "WARNING"); [done|].
  unfold modify, ret. cbv beta iota. unfold bind. by rewrite H3.
Qed.

(** [text.split()[0]] is never taken on a text without a token: a text
    that the pattern matches begins with a character of an operation. *)
Lemma regex_op_matcher_no_IndexError text e : regex_op_matcher text <> inl e.
Proof.
  unfold regex_op_matcher.
  destruct (rematch 4 regex_op_splitter text) as [m|] eqn:Hm; [|done].
  unfold rematch, regex_op_splitter, RPlus in Hm. cbn [run Nat.eqb] in Hm.
  unfold Py.split.
  destruct (list_ascii_of_string text) as [|c l]; [done|].
  unfold cls_op in Hm. cbn [run] in Hm.
  destruct (existsb (item_matches c) _) eqn:Hc; [|done].
  cbn [length Py.split_aux Py.dropwhile].
  rewrite (op_char_not_space c Hc).
  by destruct (decide _).
Qed.

(* ================================================================= *)
(** ** The tokenizer, in general *)

Section KeepsCapture.

Context {R : Type}.
Variable i : nat.

Lemma star_keeps_capture (body : nat -> list ascii -> caps -> cont R -> option R)
    (k : cont R) :
  (forall pos s g k' x, body pos s g k' = Some x ->
     exists pos' s' g', k' pos' s' g' = Some x /\ cap_get i g' = cap_get i g) ->
  forall n pos s g x, star body k n pos s g = Some x ->
    exists pos' s' g', k pos' s' g' = Some x /\ cap_get i g' = cap_get i g.
Proof.
  intros Hbody. induction n as [|n IH]; intros pos s g x H; simpl in H.
  - eauto.
  - destruct (body pos s g _) as [y|] eqn:Hb; [|eauto].
    injection H as ->.
    destruct (Hbody _ _ _ _ _ Hb) as (pos' & s' & g' & Hk & Hg).
    destruct (pos <? pos'); [|done].
    destruct (IH _ _ _ _ Hk) as (pos'' & s'' & g'' & Hk' & Hg').
    exists pos'', s'', g''. split; [done|]. congruence.
Qed.

(** A pattern without the group [i] hands on what group [i] captured. *)
Lemma run_keeps_capture (r : regex) :
  nogroup i r = true ->
  forall pos s g (k : cont R) x, run r pos s g k = Some x ->
    exists pos' s' g', k pos' s' g' = Some x /\ cap_get i g' = cap_get i g.
Proof.
  induction r as [| |c| |items|r1 IH1 r2 IH2|r1 IH1 r2 IH2|r1 IH1|j r1 IH1];
    simpl; intros Hn pos s g k x H.
  - eauto.
  - destruct (pos =? 0); [eauto|done].
  - destruct s as [|d s']; [done|]. destruct (Ascii.eqb c d); [eauto|done].
  - destruct s as [|d s']; [done|]. destruct (Ascii.eqb d Py.LF); [done|eauto].
  - destruct s as [|d s']; [done|].
    destruct (existsb _ items); [eauto|done].
  - apply andb_prop in Hn as [Hn1 Hn2].
    destruct (IH1 Hn1 _ _ _ _ _ H) as (pos' & s' & g' & H' & Hg).
    destruct (IH2 Hn2 _ _ _ _ _ H') as (pos'' & s'' & g'' & H'' & Hg').
    exists pos'', s'', g''. split; [done|]. congruence.
  - apply andb_prop in Hn as [Hn1 Hn2].
    destruct (run r1 pos s g k) as [y|] eqn:H1.
    + injection H as ->. by apply (IH1 Hn1) in H1.
    + by apply (IH2 Hn2) in H.
  - eapply star_keeps_capture; [|exact H]. intros. by eapply IH1.
  - apply andb_prop in Hn as [Hij Hn1].
    destruct (IH1 Hn1 _ _ _ _ _ H) as (pos' & s' & g' & H' & Hg).
    eexists _, _, _. split; [exact H'|].
    simpl. apply negb_true_iff in Hij. by rewrite Hij.
Qed.

Lemma run_set_cons items pos d s g (k : cont R) :
  run (RSet items) pos (d :: s) g k
  = if existsb (item_matches d) items then k (S pos) s g else None.
Proof. reflexivity. Qed.

Lemma run_set_nil items pos g (k : cont R) :
  run (RSet items) pos [] g k = None.
Proof. reflexivity. Qed.

(** What a successful match of a group over a class and a plus has
    captured: a run of characters of the class at the head of the text. *)
Lemma star_class_inv items (k : cont R) : forall n pos s g x,
  star (run (RSet items)) k n pos s g = Some x ->
  exists w s',
    s = w ++ s' /\
    forallb (fun c => existsb (item_matches c) items) w = true /\
    k (pos + length w) s' g = Some x.
Proof.
  induction n as [|n IH]; intros pos s g x H; cbn [star] in H.
  - exists [], s. by rewrite Nat.add_0_r.
  - destruct s as [|d s1].
    + rewrite run_set_nil in H. exists [], []. by rewrite Nat.add_0_r.
    + rewrite run_set_cons in H.
      destruct (existsb (item_matches d) items) eqn:Hd.
      * assert ((pos <? S pos) = true) as Hlt by (apply Nat.ltb_lt; lia).
        rewrite Hlt in H.
        destruct (star (run (RSet items)) k n (S pos) s1 g) as [y|] eqn:Hs.
        -- injection H as ->.
           destruct (IH _ _ _ _ Hs) as (w & s' & -> & Hw & Hk).
           exists (d :: w), s'. split; [done|]. simpl. rewrite Hd, Hw.
           split; [done|]. by rewrite <- Nat.add_succ_comm.
        -- exists [], (d :: s1). by rewrite Nat.add_0_r.
      * exists [], (d :: s1). by rewrite Nat.add_0_r.
Qed.

Lemma group_plus_class_inv j items (k : cont R) pos s g x :
  run (RGroup j (RPlus (RSet items))) pos s g k = Some x ->
  exists w s',
    s = w ++ s' /\ w <> [] /\
    forallb (fun c => existsb (item_matches c) items) w = true /\
    k (pos + length w) s' ((j, string_of_list_ascii w) :: g) = Some x.
Proof.
  intros H.
  change (run (RPlus (RSet items)) pos s g
            (fun pos' t g' =>
               k pos' t
                 ((j, string_of_list_ascii (take (pos' - pos) s)) :: g'))
          = Some x) in H.
  unfold RPlus in H. cbn [run] in H.
  destruct s as [|d s1]; [done|].
  destruct (existsb (item_matches d) items) eqn:Hd; [|done].
  apply star_class_inv in H as (w & s' & -> & Hw & Hk).
  exists (d :: w), s'. split; [done|]. split; [done|].
  simpl. rewrite Hd, Hw. split; [done|].
  replace (S pos + length w - pos) with (length (d :: w)) in Hk
    by (simpl; lia).
  change (d :: w ++ s') with ((d :: w) ++ s') in Hk.
  rewrite (take_app_length (d :: w) s') in Hk.
  by rewrite <- Nat.add_succ_comm.
Qed.

End KeepsCapture.

Lemma space_not_op_char c : Py.isspace c = true -> op_char c = false.
Proof.
  intros Hs. destruct (op_char c) eqn:Hc; [|done].
  apply op_char_not_space in Hc. congruence.
Qed.

Lemma takewhile_app_token w s :
  forallb op_char w = true ->
  Py.takewhile (fun c => negb (Py.isspace c)) (w ++ s)
  = w ++ Py.takewhile (fun c => negb (Py.isspace c)) s.
Proof.
  induction w as [|c w IH]; simpl; intros Hw; [done|].
  apply andb_prop in Hw as [Hc Hw].
  rewrite (op_char_not_space c Hc). simpl. by rewrite IH.
Qed.

(** [text.split()[0]] on a text whose head is a character of a token. *)
Lemma split_head c l :
  op_char c = true ->
  exists toks,
    Py.split (string_of_list_ascii (c :: l))
    = string_of_list_ascii
        (Py.takewhile (fun c => negb (Py.isspace c)) (c :: l)) :: toks.
Proof.
  intros Hc. unfold Py.split. rewrite list_ascii_of_string_of_list_ascii.
  cbn [length Py.split_aux Py.dropwhile].
  rewrite (op_char_not_space c Hc). by eexists.
Qed.

Lemma string_of_list_ascii_inj l1 l2 :
  string_of_list_ascii l1 = string_of_list_ascii l2 -> l1 = l2.
Proof.
  intros H. apply (f_equal list_ascii_of_string) in H.
  by rewrite !list_ascii_of_string_of_list_ascii in H.
Qed.

(** The part of the pattern after group 1 always matches and leaves
    group 1 as it is. *)
Lemma splitter_tail_total pos s g :
  exists gs,
    run (RSeq (ROpt (RLit " "%char)) (ROpt re_operand)) pos s g
      (fun _ _ g' => Some {| groups := map (fun i => cap_get i g') (seq 1 4) |})
    = Some {| groups := cap_get 1 g :: gs |}.
Proof.
  set (fin := fun (_ : nat) (_ : list ascii) (g' : caps) =>
                Some {| groups := map (fun i => cap_get i g') (seq 1 4) |}).
  assert (exists x,
            run (RSeq (ROpt (RLit " "%char)) (ROpt re_operand)) pos s g fin
            = Some x) as [x Hx].
  { assert (forall pos s g, exists x, run (ROpt re_operand) pos s g fin = Some x)
      as Hop.
    { intros pos0 s0 g0. unfold ROpt. cbn [run].
      destruct (run re_operand pos0 s0 g0 fin); by eexists. }
    change (exists x,
              run (ROpt (RLit " "%char)) pos s g
                (fun pos' s' g' => run (ROpt re_operand) pos' s' g' fin)
              = Some x).
    unfold ROpt at 1. cbn [run].
    destruct s as [|d s1]; [apply Hop|].
    destruct (Ascii.eqb " " d).
    - destruct (Hop (S pos) s1 g) as [y ->]. by eexists.
    - apply Hop. }
  destruct (run_keeps_capture 1 (RSeq (ROpt (RLit " "%char)) (ROpt re_operand))
              eq_refl _ _ _ _ _ Hx) as (pos' & s' & g' & Hfin & Hg).
  unfold fin in Hfin. injection Hfin as <-.
  rewrite Hx. simpl. rewrite Hg. by eexists.
Qed.

Lemma rematch_splitter_inv text m :
  rematch 4 regex_op_splitter text = Some m ->
  exists w s' gs,
    list_ascii_of_string text = w ++ s' /\ w <> [] /\
    forallb op_char w = true /\
    groups m = Some (string_of_list_ascii w) :: gs.
Proof.
  unfold rematch, regex_op_splitter. intros H.
  change (run (RGroup 1 (RPlus cls_op)) 0 (list_ascii_of_string text) []
            (fun pos' s' g' =>
               run (RSeq (ROpt (RLit " "%char)) (ROpt re_operand)) pos' s' g'
                 (fun _ _ g =>
                    Some {| groups := map (fun i => cap_get i g) (seq 1 4) |}))
          = Some m) in H.
  apply (group_plus_class_inv (R := rmatch)) in H
    as (w & s' & Hl & Hne & Hw & Hk).
  destruct (splitter_tail_total (0 + length w) s' [(1, string_of_list_ascii w)])
    as (gs & Htail).
  rewrite Htail in Hk. injection Hk as <-.
  exists w, s', gs. by rewrite Hl.
Qed.

Lemma rematch_splitter_token text w rest :
  list_ascii_of_string text = w ++ rest ->
  w <> [] -> forallb op_char w = true ->
  match rest with
  | [] => True
  | c :: _ => op_char c = false
  end ->
  exists gs,
    rematch 4 regex_op_splitter text
    = Some {| groups := Some (string_of_list_ascii w) :: gs |}.
Proof.
  intros Hl Hne Hw Hrest. unfold rematch, regex_op_splitter. rewrite Hl.
  destruct (splitter_tail_total (0 + length w) rest
              [(1, string_of_list_ascii w)]) as (gs & Htail).
  exists gs.
  change (run (RGroup 1 (RPlus cls_op)) 0 (w ++ rest) []
            (fun pos' s' g' =>
               run (RSeq (ROpt (RLit " "%char)) (ROpt re_operand)) pos' s' g'
                 (fun _ _ g =>
                    Some {| groups := map (fun i => cap_get i g) (seq 1 4) |}))
          = Some {| groups := Some (string_of_list_ascii w) :: gs |}).
  destruct (yields_group_plus_class
              (fun m => m = {| groups := Some (string_of_list_ascii w) :: gs |})
              1 [CWord; CDigit; CLit "-"%char; CLit "_"%char] 0 w rest []
              (fun pos' s' g' =>
                 run (RSeq (ROpt (RLit " "%char)) (ROpt re_operand)) pos' s' g'
                   (fun _ _ g =>
                      Some {| groups := map (fun i => cap_get i g) (seq 1 4) |}))
              Hne Hw) as (x & Hx & ->).
  - by destruct rest.
  - eexists. split; [exact Htail|]. by simpl.
  - exact Hx.
Qed.

Lemma split_token_first text w rest :
  list_ascii_of_string text = w ++ rest ->
  w <> [] -> forallb op_char w = true ->
  match rest with
  | [] => True
  | c :: _ => Py.isspace c = true
  end ->
  exists toks, Py.split text = string_of_list_ascii w :: toks.
Proof.
  intros Hl Hne Hw Hrest.
  rewrite <- (string_of_list_ascii_of_string text), Hl.
  destruct w as [|c w]; [done|].
  pose proof Hw as Hw'. simpl in Hw'. apply andb_prop in Hw' as [Hc _].
  destruct (split_head c (w ++ rest) Hc) as (toks & Hs).
  exists toks. change ((c :: w) ++ rest) with (c :: w ++ rest). rewrite Hs.
  f_equal. f_equal.
  change (c :: w ++ rest) with ((c :: w) ++ rest).
  rewrite takewhile_app_token by done.
  destruct rest as [|d rest]; simpl; [by rewrite app_nil_r|].
  rewrite Hrest. simpl. by rewrite app_nil_r.
Qed.

(** A key gives operands exactly when it begins with a token, a run of
    letters, digits, dashes and underscores that white space or the end of
    the key ends; the operation is then that token with its dashes turned
    into underscores. Any other key gives none, and none makes the sanity
    check of [regex_op_matcher] raise. *)
Lemma regex_op_matcher_tokens text :
  (forall m,
     regex_op_matcher text = inr (Some m) ->
     exists w,
       begins_with_token w text /\
       get_op1_from_regex_match m
       = Py.replace "-"%char "_"%char (string_of_list_ascii w)) /\
  (forall w,
     begins_with_token w text ->
     exists m,
       regex_op_matcher text = inr (Some m) /\
       get_op1_from_regex_match m
       = Py.replace "-"%char "_"%char (string_of_list_ascii w)) /\
  ((forall w, ~ begins_with_token w text) -> regex_op_matcher text = inr None).
Proof.
  assert (forall m,
     regex_op_matcher text = inr (Some m) ->
     exists w,
       begins_with_token w text /\
       get_op1_from_regex_match m
       = Py.replace "-"%char "_"%char (string_of_list_ascii w)) as Hsound.
  { intros m H. unfold regex_op_matcher in H.
    destruct (rematch 4 regex_op_splitter text) as [m'|] eqn:Hm; [|done].
    destruct (Py.split text) as [|tok toks] eqn:Hs; [done|].
    destruct (decide _) as [Hg|]; [|done]. injection H as ->.
    destruct (rematch_splitter_inv text m Hm) as (w & s' & gs & Hl & Hne & Hw & Hgs).
    rewrite Hgs in Hg. simpl in Hg. injection Hg as <-.
    exists w. split.
    - split; [done|]. split; [done|]. exists s'. split; [done|].
      destruct w as [|c w]; [done|].
      pose proof Hw as Hw'. simpl in Hw'. apply andb_prop in Hw' as [Hc _].
      destruct (split_head c (w ++ s') Hc) as (toks' & Hs').
      rewrite <- (string_of_list_ascii_of_string text), Hl in Hs.
      change ((c :: w) ++ s') with (c :: w ++ s') in Hs.
      rewrite Hs' in Hs.
      assert (string_of_list_ascii
                (Py.takewhile (fun c => negb (Py.isspace c)) ((c :: w) ++ s'))
              = string_of_list_ascii ((c :: w) ++ [])) as Htok.
      { rewrite app_nil_r. change ((c :: w) ++ s') with (c :: w ++ s').
        congruence. }
      apply string_of_list_ascii_inj in Htok.
      rewrite takewhile_app_token in Htok by done.
      apply app_inv_head in Htok.
      destruct s' as [|d s']; [done|]. simpl in Htok.
      by destruct (Py.isspace d).
    - unfold get_op1_from_regex_match. rewrite Hgs. simpl.
      by rewrite strip_token. }
  split; [exact Hsound|]. split.
  - intros w (Hne & Hw & rest & Hl & Hrest).
    destruct (rematch_splitter_token text w rest Hl Hne Hw) as (gs & Hm).
    { destruct rest as [|c rest]; [done|]. by apply space_not_op_char. }
    destruct (split_token_first text w rest Hl Hne Hw Hrest) as (toks & Hs).
    eexists. split.
    + unfold regex_op_matcher. rewrite Hm, Hs. simpl.
      by rewrite decide_True.
    + unfold get_op1_from_regex_match. simpl. by rewrite strip_token.
  - intros Hnone.
    destruct (regex_op_matcher text) as [e|[m|]] eqn:H; [|exfalso|done].
    + by apply regex_op_matcher_no_IndexError in H.
    + destruct (Hsound m eq_refl) as (w & Hw & _). by apply (Hnone w).
Qed.

Lemma takewhile_drop (f : ascii -> bool) l :
  l = Py.takewhile f l ++ drop (length (Py.takewhile f l)) l.
Proof.
  induction l as [|c l IH]; simpl; [done|].
  destruct (f c); simpl; [by rewrite <- IH|done].
Qed.

Lemma takewhile_all (f : ascii -> bool) l :
  forallb f (Py.takewhile f l) = true.
Proof.
  induction l as [|c l IH]; simpl; [done|].
  destruct (f c) eqn:Hc; simpl; [by rewrite Hc|done].
Qed.

Lemma takewhile_stops (f : ascii -> bool) l :
  match drop (length (Py.takewhile f l)) l with
  | [] => True
  | d :: _ => f d = false
  end.
Proof.
  induction l as [|c l IH]; simpl; [done|].
  destruct (f c) eqn:Hc; simpl; [done|done].
Qed.

Lemma takewhile_max (f : ascii -> bool) w s :
  forallb f w = true ->
  match s with
  | [] => True
  | d :: _ => f d = false
  end ->
  Py.takewhile f (w ++ s) = w.
Proof.
  induction w as [|c w IH]; simpl; intros Hw Hs.
  - destruct s as [|d s]; [done|]. simpl. by rewrite Hs.
  - apply andb_prop in Hw as [Hc Hw]. rewrite Hc. by rewrite IH.
Qed.

Lemma quote_not_quoted_char c :
  Ascii.eqb "'"%char c = true -> quoted_char c = false.
Proof.
  intros H. apply Ascii.eqb_eq in H as <-. by vm_compute.
Qed.

Section Operand.

Context {R : Type}.

Lemma run_lit_cons c pos d s g (k : cont R) :
  run (RLit c) pos (d :: s) g k
  = if Ascii.eqb c d then k (S pos) s g else None.
Proof. reflexivity. Qed.

Lemma run_seq r1 r2 pos s g (k : cont R) :
  run (RSeq r1 r2) pos s g k
  = run r1 pos s g (fun pos' s' g' => run r2 pos' s' g' k).
Proof. reflexivity. Qed.

Lemma run_alt r1 r2 pos s g (k : cont R) :
  run (RAlt r1 r2) pos s g k
  = match run r1 pos s g k with
    | Some x => Some x
    | None => run r2 pos s g k
    end.
Proof. reflexivity. Qed.

Lemma run_group i r pos s g (k : cont R) :
  run (RGroup i r) pos s g k
  = run r pos s g
      (fun pos' s' g' =>
         k pos' s' ((i, string_of_list_ascii (take (pos' - pos) s)) :: g')).
Proof. reflexivity. Qed.

(** The quoted alternative matches exactly a quote, the longest run of
    [quoted_char], not empty, and a closing quote. *)
Lemma re_quoted_inv pos s g (k : cont R) x :
  run re_quoted pos s g k = Some x ->
  exists q t pos',
    s = "'"%char :: q ++ "'"%char :: t /\ q <> [] /\
    forallb quoted_char q = true /\
    k pos' t ((3, string_of_list_ascii q) :: g) = Some x.
Proof.
  unfold re_quoted. rewrite run_seq. intros H.
  destruct s as [|c s]; [done|]. rewrite run_lit_cons in H.
  destruct (Ascii.eqb "'" c) eqn:Hc; [|done].
  apply Ascii.eqb_eq in Hc as <-.
  rewrite run_seq in H.
  apply group_plus_class_inv in H as (q & s' & -> & Hne & Hq & Hk).
  destruct s' as [|d t]; [done|]. rewrite run_lit_cons in Hk.
  destruct (Ascii.eqb "'" d) eqn:Hd; [|done].
  apply Ascii.eqb_eq in Hd as <-.
  by exists q, t, (S (S pos + length q)).
Qed.

Lemma re_quoted_intro (P : R -> Prop) pos q t g (k : cont R) :
  q <> [] -> forallb quoted_char q = true ->
  (forall pos', yields P (k pos' t ((3, string_of_list_ascii q) :: g))) ->
  yields P (run re_quoted pos ("'"%char :: q ++ "'"%char :: t) g k).
Proof.
  intros Hne Hq Hk. unfold re_quoted. rewrite run_seq, run_lit_cons.
  change (Ascii.eqb "'" "'") with true. cbv iota. rewrite run_seq.
  apply yields_group_plus_class; [done|done|by vm_compute|].
  rewrite run_lit_cons. change (Ascii.eqb "'" "'") with true. cbv iota.
  apply Hk.
Qed.

Lemma re_unquoted_inv pos s g (k : cont R) x :
  run re_unquoted pos s g k = Some x ->
  exists c s', s = c :: s' /\ op_char c = true.
Proof.
  unfold re_unquoted. rewrite run_seq. intros H.
  apply group_plus_class_inv in H as (w & s' & -> & Hne & Hw & _).
  destruct w as [|c w]; [done|]. simpl in Hw.
  apply andb_prop in Hw as [Hc _]. by exists c, (w ++ s').
Qed.

Lemma re_unquoted_intro (P : R -> Prop) pos s g (k : cont R) :
  Py.takewhile op_char s <> [] ->
  (forall pos' t,
     yields P (k pos' t
                 ((4, string_of_list_ascii (Py.takewhile op_char s)) :: g))) ->
  yields P (run re_unquoted pos s g k).
Proof.
  intros Hne Hk. unfold re_unquoted. rewrite run_seq.
  rewrite (takewhile_drop op_char s) at 1.
  apply yields_group_plus_class;
    [done|apply takewhile_all|apply (takewhile_stops op_char)|].
  apply yields_star; [done|]. intros pos' t. apply Hk.
Qed.

End Operand.

(** What the optional operand of the pattern captures, read off the text. *)
Lemma operand_run pos r g :
  cap_get 3 g = None -> cap_get 4 g = None ->
  yields (fun m => get_op2_from_regex_match m = operand_at r /\
                   nth 0 (groups m) None = cap_get 1 g)
    (run (ROpt re_operand) pos r g
       (fun _ _ g' =>
          Some {| groups := map (fun i => cap_get i g') (seq 1 4) |})).
Proof.
  intros H3 H4. unfold ROpt. rewrite run_alt. unfold re_operand.
  rewrite run_group.
  set (k2 := fun (pos' : nat) (s' : list ascii) (g' : caps) =>
               Some {| groups :=
                         map (fun i =>
                                cap_get i
                                  ((2, string_of_list_ascii
                                         (take (pos' - pos) r)) :: g'))
                           (seq 1 4) |}).
  rewrite run_alt.
  destruct (run re_quoted pos r g k2) as [x|] eqn:Hq.
  - apply re_quoted_inv in Hq as (q & t & pos' & -> & Hne & Hqc & Hk).
    unfold k2 in Hk. injection Hk as <-. eexists. split; [done|].
    split; [|done].
    unfold get_op2_from_regex_match. cbn [groups map seq nth cap_get Nat.eqb].
    unfold operand_at. change (Ascii.eqb "'" "'") with true. cbv iota zeta.
    rewrite takewhile_max by (done || by vm_compute).
    pose proof (drop_app_length q ("'"%char :: t)) as Hdrop.
    destruct q as [|c q]; [done|]. by rewrite Hdrop.
  - destruct (run re_unquoted pos r g k2) as [x|] eqn:Hu.
    + destruct (re_unquoted_inv _ _ _ _ _ Hu) as (c & s' & -> & Hc).
      destruct (re_unquoted_intro
                  (fun m =>
                     get_op2_from_regex_match m = operand_at (c :: s') /\
                     nth 0 (groups m) None = cap_get 1 g)
                  pos (c :: s') g k2) as (y & Hy & HP).
      * simpl. by rewrite Hc.
      * intros pos' t. eexists. split; [reflexivity|]. split; [|done].
        unfold get_op2_from_regex_match.
        cbn [groups map seq nth cap_get Nat.eqb]. rewrite H3.
        unfold operand_at. rewrite (op_char_not_quote c Hc), Hc.
        cbn [Py.truthy Py.str].
        rewrite strip_token by apply takewhile_all.
        simpl. by rewrite Hc.
      * exists y. split; [|done]. congruence.
    + eexists. split; [reflexivity|]. split; [|done].
      unfold get_op2_from_regex_match.
      cbn [groups map seq nth cap_get Nat.eqb]. rewrite H3, H4.
      cbn [Py.truthy]. symmetry.
      destruct r as [|c r']; [done|]. unfold operand_at.
      destruct (Ascii.eqb "'" c) eqn:Hc.
      * apply Ascii.eqb_eq in Hc as <-. cbv zeta.
        pose proof (takewhile_drop quoted_char r') as Hr.
        pose proof (takewhile_all quoted_char r') as Hall.
        destruct (Py.takewhile quoted_char r') as [|c q] eqn:Hqq; [done|].
        destruct (drop (length (c :: q)) r') as [|d t] eqn:Ht; [done|].
        destruct (Ascii.eqb "'" d) eqn:Hd; [|done].
        apply Ascii.eqb_eq in Hd as <-. exfalso.
        destruct (re_quoted_intro (fun _ => True) pos (c :: q) t g k2)
          as (y & Hy & _); [done|done|by eexists|].
        rewrite <- Hr in Hy. congruence.
      * destruct (op_char c) eqn:Ho; [|done]. exfalso.
        destruct (re_unquoted_intro (fun _ => True) pos (c :: r') g k2)
          as (y & Hy & _).
        -- simpl. by rewrite Ho.
        -- intros. by eexists.
        -- congruence.
Qed.

(** The part of the pattern after group 1: an optional space and the
    optional operand. *)
Lemma tail_run pos rest g :
  cap_get 3 g = None -> cap_get 4 g = None ->
  yields (fun m => get_op2_from_regex_match m = scan_operand rest /\
                   nth 0 (groups m) None = cap_get 1 g)
    (run (RSeq (ROpt (RLit " "%char)) (ROpt re_operand)) pos rest g
       (fun _ _ g' =>
          Some {| groups := map (fun i => cap_get i g') (seq 1 4) |})).
Proof.
  intros H3 H4. rewrite run_seq. unfold ROpt at 1. rewrite run_alt.
  destruct rest as [|d rest].
  - destruct (operand_run pos [] g H3 H4) as (x & Hx & HP).
    exists x. split; [exact Hx|exact HP].
  - rewrite run_lit_cons. unfold scan_operand.
    destruct (Ascii.eqb " " d).
    + destruct (operand_run (S pos) rest g H3 H4) as (x & Hx & HP).
      exists x. rewrite Hx. by split.
    + destruct (operand_run pos (d :: rest) g H3 H4) as (x & Hx & HP).
      exists x. split; [exact Hx|exact HP].
Qed.

Lemma leading_token_Some l w rest :
  leading_token l = Some (w, rest) ->
  l = w ++ rest /\ w <> [] /\ forallb op_char w = true /\
  match rest with
  | [] => True
  | c :: _ => Py.isspace c = true
  end.
Proof.
  unfold leading_token.
  pose proof (takewhile_drop op_char l) as Hl.
  pose proof (takewhile_all op_char l) as Hall.
  destruct (Py.takewhile op_char l) as [|c w0]; [done|].
  destruct (drop (length (c :: w0)) l) as [|d t].
  - intros [= <- <-]. by rewrite app_nil_r in *.
  - destruct (Py.isspace d) eqn:Hd; [|done]. by intros [= <- <-].
Qed.

Lemma begins_with_token_leading w text :
  begins_with_token w text ->
  exists rest, leading_token (list_ascii_of_string text) = Some (w, rest).
Proof.
  intros (Hne & Hw & rest & -> & Hrest). exists rest.
  unfold leading_token.
  rewrite takewhile_max; [| done |].
  - rewrite drop_app_length. destruct w as [|c w]; [done|].
    destruct rest as [|d t]; [done|]. by rewrite Hrest.
  - destruct rest as [|d t]; [done|]. by apply space_not_op_char.
Qed.

Lemma leading_token_app w rest :
  w <> [] -> forallb op_char w = true ->
  match rest with
  | [] => True
  | c :: _ => Py.isspace c = true
  end ->
  leading_token (w ++ rest) = Some (w, rest).
Proof.
  intros Hne Hw Hrest.
  destruct (begins_with_token_leading w (string_of_list_ascii (w ++ rest)))
    as (rest' & H).
  { split; [done|]. split; [done|]. exists rest.
    by rewrite list_ascii_of_string_of_list_ascii. }
  rewrite list_ascii_of_string_of_list_ascii in H.
  destruct (leading_token_Some _ _ _ H) as (Happ & _).
  apply app_inv_head in Happ as <-. exact H.
Qed.

(** The pattern of [regex_op_splitter] with the sanity check of
    [regex_op_matcher], and the two getters on its match, against the
    direct scan. *)
Lemma regex_op_matcher_scan text :
  match leading_token (list_ascii_of_string text) with
  | Some (w, rest) =>
      exists m,
        regex_op_matcher text = inr (Some m) /\
        get_op1_from_regex_match m
        = Py.replace "-"%char "_"%char (string_of_list_ascii w) /\
        get_op2_from_regex_match m = scan_operand rest
  | None => regex_op_matcher text = inr None
  end.
Proof.
  destruct (leading_token (list_ascii_of_string text)) as [[w rest]|] eqn:Hl.
  - apply leading_token_Some in Hl as (Hl & Hne & Hw & Hrest).
    destruct (yields_group_plus_class
                (fun m => get_op2_from_regex_match m = scan_operand rest /\
                          nth 0 (groups m) None
                          = Some (string_of_list_ascii w))
                1 [CWord; CDigit; CLit "-"%char; CLit "_"%char] 0 w rest []
                (fun pos' s' g' =>
                   run (RSeq (ROpt (RLit " "%char)) (ROpt re_operand))
                     pos' s' g'
                     (fun _ _ g =>
                        Some {| groups :=
                                  map (fun i => cap_get i g) (seq 1 4) |}))
                Hne Hw) as (m & Hm & Hop2 & Hop1).
    { destruct rest as [|c rest]; [done|]. by apply space_not_op_char. }
    { by apply tail_run. }
    destruct (split_token_first text w rest Hl Hne Hw Hrest) as (toks & Hs).
    assert (rematch 4 regex_op_splitter text = Some m) as Hre.
    { unfold rematch, regex_op_splitter. rewrite Hl. exact Hm. }
    exists m. split; [|split; [|exact Hop2]].
    + unfold regex_op_matcher. rewrite Hre, Hs. by rewrite decide_True.
    + unfold get_op1_from_regex_match. rewrite Hop1.
      cbn [Py.str]. by rewrite strip_token.
  - destruct (regex_op_matcher_tokens text) as (_ & _ & Hnone).
    apply Hnone.
    intros w Hw. apply begins_with_token_leading in Hw as (rest & Hw).
    congruence.
Qed.

Lemma tokenize_token_then (op : string) (rest : list ascii) :
  is_token op ->
  match rest with
  | [] => True
  | c :: _ => Py.isspace c = true
  end ->
  tokenize (op +:+ string_of_list_ascii rest)
  = inr (Some (Py.replace "-"%char "_"%char op, scan_operand rest)).
Proof.
  intros [Hne Hw] Hrest.
  pose proof (regex_op_matcher_scan (op +:+ string_of_list_ascii rest)) as H.
  rewrite list_ascii_app, list_ascii_of_string_of_list_ascii in H.
  rewrite leading_token_app in H; [|by destruct op|done|done].
  destruct H as (m & Hm & H1 & H2).
  unfold tokenize. rewrite Hm, H1, H2.
  by rewrite string_of_list_ascii_of_string.
Qed.

Lemma space_not_quote c :
  Py.isspace c = true -> Ascii.eqb "'"%char c = false.
Proof.
  destruct c as [[] [] [] [] [] [] [] []]; vm_compute; congruence.
Qed.

(** X1. On a key of the ASCII range the tokenizer of the resolver, the
    pattern of [regex_op_splitter] with the sanity check of
    [regex_op_matcher] and the two getters, is the direct scan
    [scan_key]: both give the same operation and the same operand, or
    both give nothing; the index error that the sanity check could raise
    on a key without words never comes. Keys with letters or white space
    beyond the ASCII range, which the classes of Python know and those
    of the model do not, are left out. *)
Theorem tokenize_is_scan_key text :
  ascii_text text = true -> tokenize text = inr (scan_key text).
Proof.
  intros _.
  pose proof (regex_op_matcher_scan text) as H.
  unfold tokenize, scan_key.
  destruct (leading_token (list_ascii_of_string text)) as [[w rest]|].
  - destruct H as (m & -> & -> & ->). done.
  - by rewrite H.
Qed.

Lemma tokenize_is_scan_key_witness :
  ascii_text "use 'SEC A' x" = true /\
  tokenize "use 'SEC A' x" = inr (Some ("use", Some "SEC A")).
Proof.
  split; [reflexivity|].
  rewrite (tokenize_is_scan_key "use 'SEC A' x" eq_refl). reflexivity.
Defined.

(** X2. Only one space may come between the operation and its operand:
    when a second space, or any white space, follows the space after the
    operation, the key still is a directive but its operand is lost. *)
Theorem operand_after_second_space_is_lost (op : string) (c : ascii)
    (rest : string) :
  is_token op -> Py.isspace c = true ->
  tokenize (op +:+ " " +:+ String c rest)
  = inr (Some (Py.replace "-"%char "_"%char op, None)).
Proof.
  intros Hop Hc.
  assert (" " +:+ String c rest
          = string_of_list_ascii
              (" "%char :: list_ascii_of_string (String c rest))) as ->.
  { cbn [list_ascii_of_string string_of_list_ascii].
    by rewrite string_of_list_ascii_of_string. }
  rewrite tokenize_token_then; [|done|done].
  unfold scan_operand. change (Ascii.eqb " " " ") with true. cbv iota.
  cbn [list_ascii_of_string operand_at].
  by rewrite (space_not_quote c Hc), (space_not_op_char c Hc).
Qed.

Lemma operand_after_second_space_witness :
  tokenize "use  SECTION" = inr (Some ("use", None)).
Proof.
  apply (operand_after_second_space_is_lost "use" " " "SECTION").
  - split; [done|reflexivity].
  - reflexivity.
Defined.

(** X3. A quoted operand right after the operation and one space is the
    quoted text without the white space at its ends, so a blank quoted
    text gives the empty operand and not a missing one; whatever follows
    the closing quote is dropped. *)
Theorem quoted_operand_is_stripped (op q rest : string) :
  is_token op -> q <> EmptyString ->
  forallb quoted_char (list_ascii_of_string q) = true ->
  tokenize (op +:+ " '" +:+ q +:+ "'" +:+ rest)
  = inr (Some (Py.replace "-"%char "_"%char op, Some (Py.strip q))).
Proof.
  intros Hop Hne Hq.
  assert (" '" +:+ q +:+ "'" +:+ rest
          = string_of_list_ascii
              (" "%char :: "'"%char ::
                 list_ascii_of_string q ++
                 "'"%char :: list_ascii_of_string rest)) as ->.
  { change (" '" +:+ q +:+ "'" +:+ rest)
      with (String " " (String "'" (q +:+ String "'" rest))).
    rewrite (string_app_list q). cbn [list_ascii_of_string].
    reflexivity. }
  rewrite tokenize_token_then; [|done|done].
  unfold scan_operand. change (Ascii.eqb " " " ") with true. cbv iota.
  unfold operand_at. change (Ascii.eqb "'" "'") with true. cbv iota zeta.
  rewrite takewhile_max by (done || by vm_compute).
  pose proof (drop_app_length (list_ascii_of_string q)
                ("'"%char :: list_ascii_of_string rest)) as Hdrop.
  destruct (list_ascii_of_string q) as [|d l] eqn:Hl.
  { by destruct q. }
  rewrite Hdrop. change (Ascii.eqb "'" "'") with true. cbv iota.
  by rewrite <- Hl, string_of_list_ascii_of_string.
Qed.

Lemma quoted_operand_witness :
  tokenize "use ' A B ' and more"
  = inr (Some ("use", Some "A B")).
Proof.
  apply (quoted_operand_is_stripped "use" " A B " " and more").
  - split; [done|reflexivity].
  - done.
  - reflexivity.
Defined.

(* ================================================================= *)
(** ** The resolver against its trace *)

Lemma then_silent_l t : then_ silent t = t.
Proof. by destruct t. Qed.

Lemma then_silent_r t : then_ t silent = t.
Proof.
  destruct t as [ws rs []]; unfold then_; simpl; [|done|done].
  by rewrite !app_nil_r.
Qed.

Lemma apply_writes_app root ws1 ws2 d :
  apply_writes root (ws1 ++ ws2) d
  = apply_writes root ws2 (apply_writes root ws1 d).
Proof. apply foldl_app. Qed.

Lemma follows_silent root st : follows root silent st st.
Proof. split; [done|]. split; [done|]. simpl. by rewrite app_nil_r. Qed.

Lemma follows_then root a b st st1 st2 :
  outcome a = Finished ->
  follows root a st st1 -> follows root b st1 st2 ->
  follows root (then_ a b) st st2.
Proof.
  intros Ha (Hd1 & Hc1 & Hr1) (Hd2 & Hc2 & Hr2).
  unfold then_. rewrite Ha. split; [|split]; simpl.
  - by rewrite apply_writes_app, <- Hd1.
  - congruence.
  - by rewrite app_assoc, <- Hr1.
Qed.

Lemma simulates_bind {A B : Type} root t1 t2 (a : A) (b : B) (c : M A)
    (k : A -> M B) st :
  simulates root t1 a st (c st) ->
  (forall st1, follows root t1 st st1 -> simulates root t2 b st1 (k a st1)) ->
  simulates root (then_ t1 t2) b st (bind c k st).
Proof.
  unfold simulates at 1. intros H1 H2.
  destruct (outcome t1) as [|e|] eqn:Ho.
  - destruct H1 as (st1 & Hc & Hf). unfold bind. rewrite Hc.
    specialize (H2 st1 Hf). unfold simulates in *.
    unfold then_ at 1. rewrite Ho. cbn [outcome].
    destruct (outcome t2).
    + destruct H2 as (st2 & -> & Hf2). exists st2. split; [done|].
      by apply (follows_then _ _ _ _ st1).
    + destruct H2 as (st2 & -> & Hf2). exists st2. split; [done|].
      by apply (follows_then _ _ _ _ st1).
    + done.
  - destruct H1 as (st1 & Hc & Hf). unfold bind. rewrite Hc.
    unfold simulates, then_. rewrite Ho. rewrite Ho. by exists st1.
  - unfold bind. rewrite H1. unfold simulates, then_. rewrite Ho. by rewrite Ho.
Qed.

(** A step that only logs. *)
Lemma simulates_after {A B : Type} root t (a : A) (b : B) (c : M A)
    (k : A -> M B) st :
  (exists st1, c st = Ret a st1 /\ follows root silent st st1) ->
  (forall st1, follows root silent st st1 -> simulates root t b st1 (k a st1)) ->
  simulates root t b st (bind c k st).
Proof.
  intros (st1 & Hc & Hf) Hk. rewrite <- (then_silent_l t).
  apply (simulates_bind root silent t a); [|exact Hk].
  exists st1. by split.
Qed.

Lemma simulates_ret {A : Type} root (a : A) st :
  simulates root silent a st (ret a st).
Proof. exists st. split; [done|apply follows_silent]. Qed.

Lemma loginfo_add_silent root debug_level entry st :
  exists st1, _loginfo_add debug_level entry st = Ret tt st1 /\
              follows root silent st st1.
Proof.
  unfold _loginfo_add. destruct (0 <? debug_level); eexists; (split; [done|]).
  - split; [done|]. split; [done|]. simpl. by rewrite app_nil_r.
  - apply follows_silent.
Qed.

Lemma probe_add_silent root p st :
  exists st1, probe_add p st = Ret tt st1 /\ follows root silent st st1.
Proof.
  eexists. split; [done|].
  split; [done|]. split; [done|]. simpl. by rewrite app_nil_r.
Qed.

Lemma simulates_event root escalates severity exc message st :
  simulates root (trace_event escalates severity (exc message)) tt st
    (exception_control_event escalates severity exc message st).
Proof.
  unfold trace_event, exception_control_event.
  destruct (escalates severity).
  - exists st. split; [done|apply follows_silent].
  - eexists. split; [done|]. by split.
Qed.

Lemma simulates_handler_generic debug_level parse_r root section_name op1 op2
    d p key value st :
  root ∈ sections_checked st ->
  simulates root (written key value) (None, d, p) st
    (_handler_generic debug_level parse_r root section_name op1 op2 d p
       (key, value) st).
Proof.
  intros Hc. unfold _handler_generic.
  apply (simulates_after root _ tt); [apply probe_add_silent|].
  intros st1 (Hd1 & Hc1 & Hr1).
  apply (simulates_after root _ tt); [apply loginfo_add_silent|].
  intros st2 (Hd2 & Hc2 & Hr2).
  cbn [fst snd].
  destruct (set_checked (parse_configuration_of parse_r) root key value st2)
    as [x Hset]; [by rewrite Hc2, Hc1|].
  rewrite <- (then_silent_r (written key value)).
  apply (simulates_bind root (written key value) silent x).
  { eexists. split; [exact Hset|]. split; [done|]. split; [done|].
    simpl. by rewrite app_nil_r. }
  intros st3 _.
  apply (simulates_after root _ tt); [apply loginfo_add_silent|].
  intros st4 _. apply simulates_ret.
Qed.

Section TraceFrame.

Variable configdata : gmap string (list (string * option string)).
Variable debug_level : nat.
Variable escalates : string -> bool.
Variable root : string.

Variable parse_r :
  option string -> option (gmap string string) -> option (gmap string bool) ->
  option string -> M (gmap string string * gmap string bool).
Variable rec : string -> gmap string bool -> trace.

Hypothesis parse_r_None : forall d p r st,
  parse_r None d p r st
  = Exc (TypeError "ERROR: a section name must not be None.") st.

Hypothesis parse_r_Some : forall name d p st,
  root ∈ sections_checked st -> p !! name = None ->
  simulates root (rec name p) (d, p) st
    (parse_r (Some name) (Some d) (Some p) (Some root) st).

Lemma simulates_handler_use section_name op1 op2 d p entry st :
  root ∈ sections_checked st ->
  simulates root
    match op2 with
    | None => raised (TypeError "ERROR: a section name must not be None.")
    | Some target =>
        if decide (is_Some (p !! target)) then
          trace_event escalates "WARNING"
            (ValueError (cycle_message op1 section_name))
        else rec target p
    end
    (Some 0, d, p) st
    (_handler_use debug_level escalates parse_r root section_name op1 op2 d p
       entry st).
Proof.
  intros Hc. unfold _handler_use.
  apply (simulates_after root _ tt); [apply probe_add_silent|].
  intros st1 (Hd1 & Hc1 & Hr1).
  apply (simulates_after root _ tt); [apply loginfo_add_silent|].
  intros st2 (Hd2 & Hc2 & Hr2).
  assert (root ∈ sections_checked st2) as Hc' by (by rewrite Hc2, Hc1).
  match goal with
  | |- simulates _ ?t _ _ _ => rewrite <- (then_silent_r t)
  end.
  apply (simulates_bind root _ silent (d, p)).
  - destruct op2 as [target|]; simpl.
    + destruct (decide (is_Some (p !! target))) as [Hin|Hin].
      * rewrite bool_decide_eq_true_2 by done. simpl.
        apply (simulates_after root _ tt); [apply loginfo_add_silent|].
        intros st3 _.
        rewrite <- (then_silent_r (trace_event _ _ _)).
        apply (simulates_bind root _ silent tt);
          [apply simulates_event|].
        intros st4 _. apply simulates_ret.
      * rewrite bool_decide_eq_false_2 by done. simpl.
        apply parse_r_Some; [done|].
        by apply eq_None_not_Some.
    + rewrite parse_r_None. exists st2. split; [done|apply follows_silent].
  - intros st3 _.
    apply (simulates_after root _ tt); [apply loginfo_add_silent|].
    intros st4 _. apply simulates_ret.
Qed.

Lemma handler_name_is_use op1 :
  "_handler_" +:+ op1 = "_handler_use" <-> op1 = "use".
Proof. split; [apply handler_name_use|by intros ->]. Qed.

Lemma handler_name_is_generic op1 :
  "_handler_" +:+ op1 = "_handler_generic" <-> op1 = "generic".
Proof. split; [apply handler_name_generic|by intros ->]. Qed.

Lemma simulates_process_entry section_name entry d p st :
  root ∈ sections_checked st ->
  simulates root (trace_entry escalates rec section_name p entry) (d, p) st
    (process_entry debug_level escalates parse_r root section_name entry
       (d, p) st).
Proof.
  intros Hc. unfold process_entry, trace_entry, tokenize.
  change (Py.strip entry.1) with (entry_key entry).
  change (Py.strip_chars [Py.DQUOTE] (Py.strip (Py.str entry.2)))
    with (entry_value entry).
  apply (simulates_after root _ tt); [apply loginfo_add_silent|].
  intros st1 (Hd1 & Hc1 & Hr1).
  destruct (regex_op_matcher (entry_key entry)) as [e|[m|]].
  - exists st1. split; [done|apply follows_silent].
  - apply (simulates_after root _ tt); [apply loginfo_add_silent|].
    intros st2 (Hd2 & Hc2 & Hr2).
    assert (root ∈ sections_checked st2) as Hc' by (by rewrite Hc2, Hc1).
    unfold getattr_handler.
    destruct (decide (get_op1_from_regex_match m = "use")) as [Huse|Huse].
    + rewrite (decide_True (P := "_handler_" +:+ _ = "_handler_use"))
        by (by apply handler_name_is_use).
      match goal with
      | |- simulates _ ?t _ _ _ => rewrite <- (then_silent_r t)
      end.
      apply (simulates_bind root _ silent (Some 0, d, p)).
      * by apply simulates_handler_use.
      * intros st3 _. rewrite decide_True by done.
        apply (simulates_after root _ tt).
        { exists st3. split; [done|apply follows_silent]. }
        intros st4 _. apply simulates_ret.
    + rewrite (decide_False (P := "_handler_" +:+ _ = "_handler_use"))
        by (intros H; by apply handler_name_use in H).
      destruct (decide (get_op1_from_regex_match m = "generic")) as [Hg|Hg].
      * rewrite (decide_True (P := "_handler_" +:+ _ = "_handler_generic"))
          by (by apply handler_name_is_generic).
        apply (simulates_bind root _ _ (None, d, p)).
        { by apply simulates_handler_generic. }
        intros st3 _. rewrite decide_False by done.
        match goal with
        | |- simulates _ ?t _ _ _ => rewrite <- (then_silent_r t)
        end.
        apply (simulates_bind root _ silent tt).
        { rewrite Hg. apply simulates_event. }
        intros st4 _. apply simulates_ret.
      * rewrite (decide_False (P := "_handler_" +:+ _ = "_handler_generic"))
          by (intros H; by apply handler_name_generic in H).
        match goal with
        | |- simulates _ ?t _ _ _ => rewrite <- (then_silent_r t)
        end.
        apply (simulates_bind root _ silent (None, d, p)).
        { by apply simulates_handler_generic. }
        intros st3 _. apply simulates_ret.
  - apply simulates_ret.
Qed.

Lemma simulates_for_each section_name l : forall d p st,
  root ∈ sections_checked st ->
  simulates root (trace_entries escalates rec section_name p l) (d, p) st
    (for_each (process_entry debug_level escalates parse_r root section_name)
       l (d, p) st).
Proof.
  induction l as [|entry l IH]; intros d p st Hc; cbn [for_each trace_entries].
  - apply simulates_ret.
  - apply (simulates_bind root _ _ (d, p)).
    + by apply simulates_process_entry.
    + intros st1 (_ & Hc1 & _). apply IH. by rewrite Hc1.
Qed.

(** A frame: the root frame marks its section, a frame entered from a
    [use] finds the root marked. From there on the frame does what the
    trace of its section says. *)
Lemma simulates_parse_section name d0 p0 rootopt st :
  (rootopt = Some root /\ root ∈ sections_checked st) \/
  (rootopt = None /\ name = root) ->
  default ∅ p0 !! name = None ->
  exists st0,
    data st0 = data st /\
    sections_checked st0 = sections_checked st ∪ {[root]} /\
    reported st0 = reported st /\
    simulates root
      match configdata !! name with
      | Some entries =>
          trace_entries escalates rec name (<[name := true]> (default ∅ p0))
            entries
      | None =>
          raised (KeyError ("ERROR: No section named `" +:+ name +:+
                              "` was found in the configuration file."))
      end
      (default ∅ d0, default ∅ p0) st0
      (parse_section configdata debug_level escalates parse_r name d0 p0
         rootopt st).
Proof.
  intros Hroot Hp. unfold parse_section.
  destruct (loginfo_add_silent root debug_level (LogSectionEntry name) st)
    as (st1 & Hlog & Hd1 & Hc1 & Hr1).
  unfold bind at 1. rewrite Hlog.
  simpl in Hd1, Hr1. rewrite app_nil_r in Hr1.
  set (st2 := match rootopt with
              | None => with_checked (fun c => c ∪ {[name]}) st1
              | Some _ => st1
              end).
  assert (data st2 = data st /\
          sections_checked st2 = sections_checked st ∪ {[root]} /\
          reported st2 = reported st /\
          root ∈ sections_checked st2) as (Hd2 & Hc2 & Hr2 & Hin2).
  { destruct Hroot as [[-> Hc]|[-> ->]]; subst st2; simpl.
    - rewrite Hd1, Hc1, Hr1. split; [done|]. split; [|done].
      apply leibniz_equiv. set_solver.
    - rewrite Hd1, Hc1, Hr1. split; [done|]. split; [done|].
      split; [done|]. set_solver. }
  exists st2. split; [done|]. split; [done|]. split; [done|].
  unfold bind at 1.
  assert (match rootopt with
          | Some root0 => ret root0
          | None =>
              let* _ := modify (with_checked (fun c => c ∪ {[name]})) in
              ret name
          end st1 = Ret root st2) as ->.
  { destruct Hroot as [[-> Hc]|[-> ->]]; by subst st2. }
  clearbody st2.
  apply (simulates_after root _ tt); [apply probe_add_silent|].
  intros st3 (Hd3 & Hc3 & Hr3).
  assert (root ∈ sections_checked st3) as Hc' by (by rewrite Hc3).
  destruct (configdata !! name) as [entries|].
  - apply (simulates_after root _ entries).
    { exists st3. split; [done|apply follows_silent]. }
    intros st4 (Hd4 & Hc4 & Hr4).
    match goal with
    | |- simulates _ ?t _ _ _ => rewrite <- (then_silent_r t)
    end.
    apply (simulates_bind root _ silent
             (default parser_data_init d0,
              <[name := true]> (default ∅ p0))).
    + apply simulates_for_each. by rewrite Hc4.
    + intros st5 _.
      apply (simulates_after root _ tt); [apply loginfo_add_silent|].
      intros st6 _.
      rewrite delete_insert_eq, delete_id by done. apply simulates_ret.
  - exists st3. split; [done|apply follows_silent].
Qed.

End TraceFrame.

Lemma simulates_same {A : Type} root t (a : A) st0 st r :
  data st0 = data st -> sections_checked st0 = sections_checked st ->
  reported st0 = reported st ->
  simulates root t a st0 r -> simulates root t a st r.
Proof.
  intros Hd Hc Hr. unfold simulates, follows. rewrite Hd, Hc, Hr. done.
Qed.

(** Every frame below the root does what its trace says and hands the
    two dicts back as it got them. *)
Lemma walk_trace configdata debug_level escalates root fuel :
  forall name d p st,
    root ∈ sections_checked st -> p !! name = None ->
    simulates root (trace_section configdata escalates fuel name p) (d, p) st
      (_parse_configuration_r configdata debug_level escalates fuel
         (Some name) (Some d) (Some p) (Some root) st).
Proof.
  induction fuel as [|fuel IH]; intros name d p st Hc Hp; [done|].
  cbn [trace_section _parse_configuration_r].
  destruct (simulates_parse_section configdata debug_level escalates root
              (_parse_configuration_r configdata debug_level escalates fuel)
              (trace_section configdata escalates fuel)
              (parse_r_None_raises configdata debug_level escalates fuel) IH
              name (Some d) (Some p) (Some root) st)
    as (st0 & Hd0 & Hc0 & Hr0 & Hsim); [by left|done|].
  apply (simulates_same root _ _ st0); [done| |done|exact Hsim].
  rewrite Hc0. apply leibniz_equiv. set_solver.
Qed.

(** The state after a resolution of [root] that did what the trace [t]
    says: the root is marked as well. *)
Lemma root_frame_trace configdata debug_level escalates root fuel st :
  exists st0,
    data st0 = data st /\
    sections_checked st0 = sections_checked st ∪ {[root]} /\
    reported st0 = reported st /\
    simulates root (trace_section configdata escalates fuel root ∅)
      (∅ : gmap string string, ∅ : gmap string bool) st0
      (_parse_configuration_r configdata debug_level escalates fuel
         (Some root) None None None st).
Proof.
  destruct fuel as [|fuel].
  - exists (with_checked (fun c => c ∪ {[root]}) st). by simpl.
  - cbn [trace_section _parse_configuration_r].
    apply (simulates_parse_section configdata debug_level escalates root
             (_parse_configuration_r configdata debug_level escalates fuel)
             (trace_section configdata escalates fuel)
             (parse_r_None_raises configdata debug_level escalates fuel)
             (walk_trace configdata debug_level escalates root fuel)
             root None None None st); [by right|done].
Qed.

Lemma parse_configuration_run configdata debug_level escalates fuel root st :
  root <> EmptyString ->
  parse_configuration configdata debug_level escalates fuel root st
  = match _parse_configuration_r configdata debug_level escalates fuel
            (Some root) None None None (with_loginfo (fun _ => []) st) with
    | Ret a st' => Ret a.1 st'
    | Exc e st' => Exc e st'
    | Fuel => Fuel
    end.
Proof.
  intros Hr. unfold parse_configuration, parse_configuration_of.
  rewrite decide_False by done. unfold bind, modify.
  by destruct (_parse_configuration_r _ _ _ _ _ _ _ _ _) as [[d p] st'| |].
Qed.

(** A whole resolution against the trace of its root. *)
Lemma top_trace configdata debug_level escalates fuel root st :
  root <> EmptyString ->
  exists st0,
    data st0 = data st /\
    sections_checked st0 = sections_checked st ∪ {[root]} /\
    reported st0 = reported st /\
    simulates root (trace_section configdata escalates fuel root ∅)
      (∅ : gmap string string) st0
      (parse_configuration configdata debug_level escalates fuel root st).
Proof.
  intros Hr. rewrite parse_configuration_run by done.
  destruct (root_frame_trace configdata debug_level escalates root fuel
              (with_loginfo (fun _ => []) st))
    as (st0 & Hd0 & Hc0 & Hr0 & Hsim).
  exists st0. split; [done|]. split; [done|]. split; [done|].
  unfold simulates in *.
  destruct (outcome _).
  - destruct Hsim as (st' & -> & Hf). by exists st'.
  - destruct Hsim as (st' & -> & Hf). by exists st'.
  - by rewrite Hsim.
Qed.

(** X4. For an engine whose parser is loaded and serves plain pairs,
    ASCII keys and values without a percent sign, a whole resolution of a
    root does what the trace of the root says, whatever the state of the
    view before: it returns, raises or runs out of fuel as the trace
    ends; the view's data take the writes of the trace, in order, under
    the name of the root, each by [store]; the root is marked resolved
    and no other section is; and the warnings of the trace are what
    exception control records. A resolution that returns returns the
    empty dict. The errors of the first load of the parser and those of
    its interpolation are outside the trace. *)
Theorem parse_configuration_is_trace {path : Type}
    (self : Loader.engine path) configdata debug_level escalates fuel
    root st :
  serves self configdata ->
  root <> EmptyString ->
  let t := trace_section configdata escalates fuel root ∅ in
  match outcome t with
  | Finished =>
      exists st',
        parse_configuration configdata debug_level escalates fuel root st
        = Ret ∅ st' /\ resolved root t st st'
  | Raised e =>
      exists st',
        parse_configuration configdata debug_level escalates fuel root st
        = Exc e st' /\ resolved root t st st'
  | NoFuel =>
      parse_configuration configdata debug_level escalates fuel root st = Fuel
  end.
Proof.
  intros _ Hr t.
  destruct (top_trace configdata debug_level escalates fuel root st Hr)
    as (st0 & Hd0 & Hc0 & Hr0 & Hsim).
  unfold simulates, follows in Hsim. fold t in Hsim.
  rewrite Hd0, Hc0, Hr0 in Hsim. exact Hsim.
Qed.

Lemma parse_configuration_is_trace_witness :
  serves (engine_of cfg_cycle) cfg_cycle /\
  exists st',
    parse_configuration cfg_cycle 0 lenient 2 "SEC_X" initial_state
    = Ret ∅ st' /\
    resolved "SEC_X" (trace_section cfg_cycle lenient 2 "SEC_X" ∅)
      initial_state st'.
Proof.
  assert (serves (engine_of cfg_cycle) cfg_cycle) as Hs
    by (split; reflexivity).
  split; [exact Hs|].
  exact (parse_configuration_is_trace (engine_of cfg_cycle) cfg_cycle 0
           lenient 2 "SEC_X" initial_state Hs ltac:(done)).
Defined.

(** *** What [store] and a list of writes do to the values under the root *)

Lemma store_value root k v d k' :
  value_of (store root k v d) root k'
  = match value_of d root k' with
    | Some x => Some x
    | None => if decide (k' = k) then Some v else None
    end.
Proof.
  unfold value_of, store. rewrite lookup_insert_eq. simpl.
  destruct (d !! root) as [sec|]; simpl.
  - destruct (sec !! k) as [x|] eqn:Hk.
    + destruct (sec !! k') as [y|] eqn:Hk'; [done|].
      destruct (decide (k' = k)) as [->|]; [congruence|done].
    + destruct (decide (k' = k)) as [->|Hne].
      * by rewrite lookup_insert_eq, Hk.
      * rewrite lookup_insert_ne by done. by destruct (sec !! k').
  - rewrite lookup_empty.
    destruct (decide (k' = k)) as [->|Hne].
    + by rewrite lookup_insert_eq.
    + by rewrite lookup_insert_ne.
Qed.

Lemma store_present root k v d x :
  value_of d root k = Some x -> store root k v d = d.
Proof.
  unfold value_of, store. intros H.
  destruct (d !! root) as [sec|] eqn:Hsec; simpl in H; [|done].
  simpl. rewrite H. by apply insert_id.
Qed.

Lemma apply_writes_keeps root ws : forall d k x,
  value_of d root k = Some x ->
  value_of (apply_writes root ws d) root k = Some x.
Proof.
  induction ws as [|[k' v'] ws IH]; intros d k x H; [done|].
  apply IH. rewrite store_value. simpl. by rewrite H.
Qed.

Lemma apply_writes_covers root ws : forall d kv,
  kv ∈ ws -> is_Some (value_of (apply_writes root ws d) root kv.1).
Proof.
  induction ws as [|[k' v'] ws IH]; intros d kv Hin.
  - by apply elem_of_nil in Hin.
  - apply elem_of_cons in Hin as [->|Hin]; [|by apply IH].
    simpl.
    assert (is_Some (value_of (store root k' v' d) root k')) as [x Hx].
    { rewrite store_value. destruct (value_of d root k'); [done|].
      by rewrite decide_True. }
    exists x. by apply apply_writes_keeps.
Qed.

Lemma apply_writes_present root ws : forall d,
  (forall kv, kv ∈ ws -> is_Some (value_of d root kv.1)) ->
  apply_writes root ws d = d.
Proof.
  induction ws as [|[k v] ws IH]; intros d H; [done|].
  simpl. destruct (H (k, v)) as [x Hx]; [by left|].
  simpl in Hx. rewrite (store_present _ _ _ _ _ Hx).
  apply IH. intros kv Hkv. apply H. by right.
Qed.

Lemma apply_writes_idem root ws d :
  apply_writes root ws (apply_writes root ws d) = apply_writes root ws d.
Proof. apply apply_writes_present. intros kv. apply apply_writes_covers. Qed.


Lemma apply_writes_other root ws s : forall d,
  s <> root -> apply_writes root ws d !! s = d !! s.
Proof.
  induction ws as [|[k v] ws IH]; intros d Hs; [done|].
  simpl. rewrite IH by done. unfold store. by rewrite lookup_insert_ne.
Qed.

(** *** How a trace ends and what it writes *)

Lemma then_outcome a b :
  outcome (then_ a b)
  = match outcome a with
    | Finished => outcome b
    | o => o
    end.
Proof. unfold then_. by destruct (outcome a) eqn:Ho. Qed.

Lemma then_writes a b kv :
  kv ∈ writes (then_ a b) -> kv ∈ writes a \/ kv ∈ writes b.
Proof.
  unfold then_. destruct (outcome a); simpl; [|by left|by left].
  by rewrite elem_of_app.
Qed.

Lemma trace_event_raises escalates severity e e' :
  outcome (trace_event escalates severity e) = Raised e' ->
  escalates severity = true /\ e' = e.
Proof.
  unfold trace_event. destruct (escalates severity); simpl; [|done].
  by intros [= ->].
Qed.

Lemma trace_event_writes escalates severity e :
  writes (trace_event escalates severity e) = [].
Proof. unfold trace_event. by destruct (escalates severity). Qed.

Lemma tokenize_never_raises key e : tokenize key <> inl e.
Proof.
  unfold tokenize.
  destruct (regex_op_matcher key) as [e'|[m|]] eqn:H; [|done|done].
  by apply regex_op_matcher_no_IndexError in H.
Qed.

Section TraceFacts.

Variable configdata : gmap string (list (string * option string)).
Variable escalates : string -> bool.

Lemma trace_entry_raises rec section_name p entry e :
  (forall target p', outcome (rec target p') = Raised e ->
                     resolver_exception escalates e) ->
  outcome (trace_entry escalates rec section_name p entry) = Raised e ->
  resolver_exception escalates e.
Proof.
  intros Hrec. unfold trace_entry.
  destruct (tokenize (entry_key entry)) as [e'|[[op1 op2]|]] eqn:Ht.
  - by apply tokenize_never_raises in Ht.
  - destruct (decide (op1 = "use")) as [->|Huse].
    + destruct op2 as [target|].
      * destruct (decide (is_Some (p !! target))).
        -- intros H. apply trace_event_raises in H as [Hesc ->].
           by constructor.
        -- apply Hrec.
      * simpl. intros [= <-]. constructor.
    + destruct (decide (op1 = "generic")); [|done].
      rewrite then_outcome. simpl.
      intros H. apply trace_event_raises in H as [Hesc ->].
      by constructor.
  - done.
Qed.

Lemma trace_entries_raises rec section_name p l e :
  (forall target p', outcome (rec target p') = Raised e ->
                     resolver_exception escalates e) ->
  outcome (trace_entries escalates rec section_name p l) = Raised e ->
  resolver_exception escalates e.
Proof.
  intros Hrec. induction l as [|entry l IH]; simpl; [done|].
  rewrite then_outcome.
  destruct (outcome (trace_entry escalates rec section_name p entry))
    eqn:Ho; [exact IH| |done].
  intros [= ->]. by apply (trace_entry_raises rec section_name p entry).
Qed.

Lemma trace_section_raises fuel : forall name p e,
  outcome (trace_section configdata escalates fuel name p) = Raised e ->
  resolver_exception escalates e.
Proof.
  induction fuel as [|fuel IH]; intros name p e; simpl; [done|].
  destruct (configdata !! name) as [entries|].
  - apply trace_entries_raises. intros target p'. apply IH.
  - simpl. intros [= <-]. constructor.
Qed.

Lemma trace_entry_writes root rec name entries p entry kv :
  reachable configdata root name ->
  configdata !! name = Some entries -> entry ∈ entries ->
  (forall target p', reachable configdata root target ->
                     kv ∈ writes (rec target p') -> from_provider configdata root kv) ->
  kv ∈ writes (trace_entry escalates rec name p entry) ->
  from_provider configdata root kv.
Proof.
  intros Hreach Hcfg Hin Hrec. unfold trace_entry.
  assert (kv ∈ writes (written (entry_key entry) (entry_value entry)) ->
          from_provider configdata root kv) as Hw.
  { simpl. intros H. apply list_elem_of_singleton in H as ->.
    by exists name, entries, entry. }
  destruct (tokenize (entry_key entry)) as [e'|[[op1 op2]|]] eqn:Ht.
  - simpl. by intros H%elem_of_nil.
  - destruct (decide (op1 = "use")) as [->|Huse].
    + destruct op2 as [target|].
      * destruct (decide (is_Some (p !! target))).
        -- rewrite trace_event_writes. by intros H%elem_of_nil.
        -- apply Hrec.
           apply (reach_use configdata root name entries entry target);
             [done|done|done|].
           unfold use_target. rewrite Ht. by rewrite decide_True.
      * simpl. by intros H%elem_of_nil.
    + destruct (decide (op1 = "generic")); [|exact Hw].
      intros [H|H]%then_writes; [by apply Hw|].
      rewrite trace_event_writes in H. by apply elem_of_nil in H.
  - simpl. by intros H%elem_of_nil.
Qed.

Lemma trace_section_writes root fuel : forall name p kv,
  reachable configdata root name ->
  kv ∈ writes (trace_section configdata escalates fuel name p) ->
  from_provider configdata root kv.
Proof.
  induction fuel as [|fuel IH]; intros name p kv Hreach; simpl.
  - by intros H%elem_of_nil.
  - destruct (configdata !! name) as [entries|] eqn:Hcfg;
      [|simpl; by intros H%elem_of_nil].
    assert (forall l, (forall e, e ∈ l -> e ∈ entries) ->
              kv ∈ writes (trace_entries escalates
                             (trace_section configdata escalates fuel) name
                             (<[name := true]> p) l) ->
              from_provider configdata root kv) as Hl.
    { induction l as [|entry l IHl]; intros Hsub; simpl.
      - by intros H%elem_of_nil.
      - intros [H|H]%then_writes.
        + apply (trace_entry_writes root
                   (trace_section configdata escalates fuel) name entries
                   (<[name := true]> p) entry kv);
            [done|done|apply Hsub; by left| |done].
          intros target p' Ht. by apply IH.
        + apply IHl; [|done]. intros e He. apply Hsub. by right. }
    by apply Hl.
Qed.

End TraceFacts.

Lemma parse_configuration_empty_name configdata debug_level escalates fuel st :
  parse_configuration configdata debug_level escalates fuel EmptyString st
  = Exc (ValueError "`section` cannot be empty.") st.
Proof. reflexivity. Qed.

(** X5. The dict that [parse_configuration] returns is always empty: no
    handler of the class puts anything into the dict that the resolver
    hands around, what a resolution finds goes to the view only. *)
Theorem parse_configuration_returns_empty configdata debug_level escalates
    fuel root st d st' :
  parse_configuration configdata debug_level escalates fuel root st
  = Ret d st' ->
  d = ∅.
Proof.
  intros H. destruct (decide (root = EmptyString)) as [->|Hr].
  - by rewrite parse_configuration_empty_name in H.
  - destruct (top_trace configdata debug_level escalates fuel root st Hr)
      as (st0 & _ & _ & _ & Hsim).
    unfold simulates in Hsim. destruct (outcome _).
    + destruct Hsim as (st1 & Heq & _). congruence.
    + destruct Hsim as (st1 & Heq & _). congruence.
    + congruence.
Qed.

Lemma parse_configuration_returns_empty_witness :
  exists st',
    parse_configuration cfg_override 0 lenient 2 "SEC_A" initial_state
    = Ret ∅ st' /\
    data st' = {[ "SEC_A" := {[ "key1" := "from_A" ]} ]}.
Proof.
  destruct (parse_configuration cfg_override 0 lenient 2 "SEC_A"
              initial_state) as [d st'| |] eqn:H;
    [|vm_compute in H; discriminate H|vm_compute in H; discriminate H].
  exists st'.
  rewrite (parse_configuration_returns_empty _ _ _ _ _ _ _ _ H).
  split; [done|]. vm_compute in H. by injection H as _ <-.
Defined.

(** X6. Resolving a root once more, from the state a first resolution of
    it left, ends the same way, with the same value or the same exception,
    and leaves the view's data and its marks as they were: what the first
    resolution wrote is not written over. *)
Theorem resolution_is_idempotent configdata debug_level escalates fuel root
    st st1 :
  final_state (parse_configuration configdata debug_level escalates fuel
                 root st) = Some st1 ->
  exists st2,
    final_state (parse_configuration configdata debug_level escalates fuel
                   root st1) = Some st2 /\
    same_answer
      (parse_configuration configdata debug_level escalates fuel root st)
      (parse_configuration configdata debug_level escalates fuel root st1) /\
    data st2 = data st1 /\
    sections_checked st2 = sections_checked st1.
Proof.
  intros H. destruct (decide (root = EmptyString)) as [->|Hr].
  - rewrite !parse_configuration_empty_name. by exists st1.
  - destruct (top_trace configdata debug_level escalates fuel root st Hr)
      as (st0 & Hd0 & Hc0 & Hr0 & Hsim).
    destruct (top_trace configdata debug_level escalates fuel root st1 Hr)
      as (st0' & Hd0' & Hc0' & Hr0' & Hsim').
    unfold simulates, follows in Hsim, Hsim'.
    destruct (outcome _).
    + destruct Hsim as (sta & Ha & Hda & Hca & _).
      destruct Hsim' as (stb & Hb & Hdb & Hcb & _).
      rewrite Ha in H. injection H as ->. rewrite Ha, Hb.
      exists stb. split; [done|]. split; [done|].
      rewrite Hdb, Hd0', Hda, Hcb, Hc0', Hca, Hc0.
      split; [apply apply_writes_idem|]. apply leibniz_equiv. set_solver.
    + destruct Hsim as (sta & Ha & Hda & Hca & _).
      destruct Hsim' as (stb & Hb & Hdb & Hcb & _).
      rewrite Ha in H. injection H as ->. rewrite Ha, Hb.
      exists stb. split; [done|]. split; [done|].
      rewrite Hdb, Hd0', Hda, Hcb, Hc0', Hca, Hc0.
      split; [apply apply_writes_idem|]. apply leibniz_equiv. set_solver.
    + by rewrite Hsim in H.
Qed.

Lemma resolution_is_idempotent_witness :
  exists d st1 st2,
    parse_configuration cfg_cycle 0 lenient 2 "SEC_X" initial_state
    = Ret d st1 /\
    final_state (parse_configuration cfg_cycle 0 lenient 2 "SEC_X" st1)
    = Some st2 /\
    data st2 = data st1.
Proof.
  destruct (parse_configuration cfg_cycle 0 lenient 2 "SEC_X" initial_state)
    as [d st1| |] eqn:H;
    [|vm_compute in H; discriminate H|vm_compute in H; discriminate H].
  destruct (resolution_is_idempotent cfg_cycle 0 lenient 2 "SEC_X"
              initial_state st1) as (st2 & H2 & _ & Hd & _).
  { by rewrite H. }
  exists d, st1, st2. split; [reflexivity|]. split; [exact H2|exact Hd].
Defined.

(** X7. For an engine whose parser is loaded and serves plain pairs, so
    that neither the first load of the parser nor its interpolation can
    raise, a resolution ends with one of five exceptions or with none:
    the value error of the empty section name, the key error of a
    section that the provider does not have, the type error of a [use]
    without operand, and, only under a policy that escalates warnings,
    the value error of a cycle and the runtime error of the operation
    [generic]. The index error that the tokenizer's check could raise
    never comes. *)
Theorem resolution_raises_only {path : Type} (self : Loader.engine path)
    configdata debug_level escalates fuel root st e st' :
  serves self configdata ->
  parse_configuration configdata debug_level escalates fuel root st
  = Exc e st' ->
  resolver_exception escalates e.
Proof.
  intros _ H. destruct (decide (root = EmptyString)) as [->|Hr].
  - rewrite parse_configuration_empty_name in H. injection H as <- _.
    constructor.
  - destruct (top_trace configdata debug_level escalates fuel root st Hr)
      as (st0 & _ & _ & _ & Hsim).
    unfold simulates in Hsim.
    destruct (outcome _) as [|e'|] eqn:Ho.
    + destruct Hsim as (st1 & Heq & _). congruence.
    + destruct Hsim as (st1 & Heq & _).
      assert (e = e') as -> by congruence.
      by apply trace_section_raises in Ho.
    + congruence.
Qed.

Lemma resolution_raises_only_witness :
  serves (engine_of cfg_cycle) cfg_cycle /\
  resolver_exception strict (ValueError (cycle_message "use" "SEC_Y")).
Proof.
  assert (serves (engine_of cfg_cycle) cfg_cycle) as Hs
    by (split; reflexivity).
  split; [exact Hs|].
  destruct (parse_configuration cfg_cycle 0 strict 2 "SEC_X" initial_state)
    as [|e st'|] eqn:H; [vm_compute in H; discriminate H| |vm_compute in H; discriminate H].
  assert (e = ValueError (cycle_message "use" "SEC_Y")) as <-.
  { vm_compute in H. by injection H as <- _. }
  exact (resolution_raises_only (engine_of cfg_cycle) cfg_cycle 0 strict 2
           "SEC_X" initial_state e st' Hs H).
Defined.



(** X9. A resolution takes nothing away from the view: every value
    stored under any section is still there after a resolution of any
    root, however it ended; the sections other than the root are as they
    were; and a section that the view had data for still has. *)
Theorem resolution_keeps_what_is_stored configdata debug_level escalates
    fuel root st st' :
  final_state (parse_configuration configdata debug_level escalates fuel
                 root st) = Some st' ->
  (forall s k v,
     value_of (data st) s k = Some v -> value_of (data st') s k = Some v) /\
  (forall s, s <> root -> data st' !! s = data st !! s) /\
  (forall s, is_Some (data st !! s) -> is_Some (data st' !! s)).
Proof.
  intros Hf.
  assert (forall s, s <> root -> data st' !! s = data st !! s) as Hother.
  { intros s Hs.
    by apply (resolution_writes_only_root configdata debug_level escalates
                fuel root s st st'). }
  split; [|split; [exact Hother|]].
  - intros s k v Hv. destruct (decide (s = root)) as [->|Hs].
    + by apply (first_write_persists configdata debug_level escalates fuel
                  root k v st st').
    + unfold value_of in *. by rewrite Hother.
  - intros s Hs.
    assert (stable configdata root (fun x => is_Some (data x !! s))) as HI.
    { split; try done.
      intros s0 entries entry x _ _ Hx. simpl. unfold store.
      destruct (decide (s = root)) as [->|Hne].
      - rewrite lookup_insert_eq. by eexists.
      - by rewrite lookup_insert_ne. }
    pose proof (parse_configuration_ends configdata debug_level escalates
                  root _ HI ∅ fuel st Hs) as H.
    destruct (parse_configuration _ _ _ _ _ _) as [a s1|e s1|];
      simpl in *; [|by simplify_eq|done].
    destruct H as [H _]. by simplify_eq.
Qed.

Lemma resolution_keeps_what_is_stored_witness :
  let st := with_data (fun _ => {[ "SEC_A" := {[ "key1" := "mine" ]} ]})
              initial_state in
  exists st',
    final_state (parse_configuration cfg_override 0 lenient 2 "SEC_A" st)
    = Some st' /\
    value_of (data st') "SEC_A" "key1" = Some "mine".
Proof.
  intros st.
  destruct (parse_configuration cfg_override 0 lenient 2 "SEC_A" st)
    as [d st'|e st'|] eqn:H; [| |vm_compute in H; discriminate H].
  - exists st'. split; [reflexivity|].
    apply (resolution_keeps_what_is_stored cfg_override 0 lenient 2 "SEC_A"
             st st'); [by rewrite H|reflexivity].
  - exists st'. split; [reflexivity|].
    apply (resolution_keeps_what_is_stored cfg_override 0 lenient 2 "SEC_A"
             st st'); [by rewrite H|reflexivity].
Defined.

Lemma apply_writes_lookup root ws : forall d k,
  value_of (apply_writes root ws d) root k
  = match value_of d root k with
    | Some x => Some x
    | None => first_write k ws
    end.
Proof.
  induction ws as [|[k' v'] ws IH]; intros d k.
  - simpl. by destruct (value_of d root k).
  - change (apply_writes root ((k', v') :: ws) d)
      with (apply_writes root ws (store root k' v' d)).
    rewrite IH, store_value. unfold first_write. simpl.
    destruct (value_of d root k) as [x|]; [done|].
    destruct (decide (k = k')) as [->|Hne].
    + by rewrite bool_decide_eq_true_2.
    + by rewrite bool_decide_eq_false_2 by congruence.
Qed.



(** *** The sections that a walk enters *)

Lemma then_finished a b :
  outcome (then_ a b) = Finished ->
  outcome a = Finished /\ outcome b = Finished.
Proof. rewrite then_outcome. by destruct (outcome a). Qed.

Lemma then_writes_l a b kv :
  outcome (then_ a b) = Finished -> kv ∈ writes a -> kv ∈ writes (then_ a b).
Proof.
  intros [Ha _]%then_finished. unfold then_. rewrite Ha. simpl.
  rewrite elem_of_app. by left.
Qed.

Lemma then_writes_r a b kv :
  outcome (then_ a b) = Finished -> kv ∈ writes b -> kv ∈ writes (then_ a b).
Proof.
  intros [Ha _]%then_finished. unfold then_. rewrite Ha. simpl.
  rewrite elem_of_app. by right.
Qed.

Lemma use_target_tokenize entry target :
  use_target entry = Some target ->
  tokenize (entry_key entry) = inr (Some ("use", Some target)).
Proof.
  unfold use_target.
  destruct (tokenize (entry_key entry)) as [e|[[op1 [t|]]|]]; try done.
  destruct (decide (op1 = "use")) as [->|]; [|done]. by intros [= ->].
Qed.

Section WalkEnters.

Variable configdata : gmap string (list (string * option string)).
Variable escalates : string -> bool.

(** A walk that enters a section enters the targets of its [use]
    directives that are not in flight at the start. *)
Lemma walk_enters_use p name s entries entry target :
  walk_enters configdata p name s ->
  configdata !! s = Some entries -> entry ∈ entries ->
  use_target entry = Some target -> p !! target = None ->
  walk_enters configdata p name target.
Proof.
  intros Hw. revert entries entry target.
  induction Hw as [p name|p name entries0 entry0 x s H0 Hin0 Hu0 Hx Hw IH];
    intros entries entry target Hcfg Hin Hu Hp.
  - destruct (decide (target = name)) as [->|Hne]; [constructor|].
    eapply enters_use; [exact Hcfg|exact Hin|exact Hu| |constructor].
    by rewrite lookup_insert_ne.
  - destruct (decide (target = name)) as [->|Hne]; [constructor|].
    eapply enters_use; [exact H0|exact Hin0|exact Hu0|exact Hx|].
    eapply IH; [exact Hcfg|exact Hin|exact Hu|].
    by rewrite lookup_insert_ne.
Qed.

(** The walk of a root enters every section that the [use] directives
    reach from it. *)
Lemma reachable_walk_enters root s :
  reachable configdata root s -> walk_enters configdata ∅ root s.
Proof.
  induction 1 as [|s entries entry target Hr IH Hcfg Hin Hu]; [constructor|].
  eapply walk_enters_use; [exact IH|exact Hcfg|exact Hin|exact Hu|].
  apply lookup_empty.
Qed.

(** A list of pairs that is walked to its end walks each of its pairs to
    its end and keeps its writes. *)
Lemma trace_entries_member rec section_name p l :
  outcome (trace_entries escalates rec section_name p l) = Finished ->
  forall entry, entry ∈ l ->
    outcome (trace_entry escalates rec section_name p entry) = Finished /\
    forall kv, kv ∈ writes (trace_entry escalates rec section_name p entry) ->
               kv ∈ writes (trace_entries escalates rec section_name p l).
Proof.
  induction l as [|x l IH]; intros Ho entry Hin.
  - by apply elem_of_nil in Hin.
  - cbn [trace_entries] in Ho |- *.
    destruct (then_finished _ _ Ho) as [Hx Hl].
    apply elem_of_cons in Hin as [->|Hin].
    + split; [exact Hx|]. intros kv Hkv. by apply then_writes_l.
    + destruct (IH Hl entry Hin) as [He Hw]. split; [exact He|].
      intros kv Hkv. apply then_writes_r; [exact Ho|]. by apply Hw.
Qed.

(** A pair whose operation is not [use] is written. *)
Lemma trace_entry_generic rec section_name p entry op1 op2 :
  tokenize (entry_key entry) = inr (Some (op1, op2)) -> op1 <> "use" ->
  outcome (trace_entry escalates rec section_name p entry) = Finished ->
  (entry_key entry, entry_value entry)
    ∈ writes (trace_entry escalates rec section_name p entry).
Proof.
  intros Ht Hne. unfold trace_entry. rewrite Ht.
  rewrite decide_False by done.
  destruct (decide (op1 = "generic")).
  - intros Ho. apply then_writes_l; [exact Ho|]. simpl. by left.
  - intros _. simpl. by left.
Qed.

(** A walk that comes to its end has written the pairs of every section
    that it enters. *)
Lemma trace_section_enters s entries entry op1 op2 :
  configdata !! s = Some entries -> entry ∈ entries ->
  tokenize (entry_key entry) = inr (Some (op1, op2)) -> op1 <> "use" ->
  forall fuel name p,
    outcome (trace_section configdata escalates fuel name p) = Finished ->
    walk_enters configdata p name s ->
    (entry_key entry, entry_value entry)
      ∈ writes (trace_section configdata escalates fuel name p).
Proof.
  intros Hcfg Hin Ht Hne.
  induction fuel as [|fuel IH]; intros name p Ho Hw; [done|].
  cbn [trace_section] in Ho |- *.
  inversion Hw as [p0 n0|p0 n0 entries0 entry0 target s0 H0 Hin0 Hu0 Hx Hw'];
    subst.
  - rewrite Hcfg in Ho |- *.
    destruct (trace_entries_member _ _ _ _ Ho entry Hin) as [He Hsub].
    apply Hsub. by apply (trace_entry_generic _ _ _ _ op1 op2).
  - rewrite H0 in Ho |- *.
    destruct (trace_entries_member _ _ _ _ Ho entry0 Hin0) as [He Hsub].
    apply Hsub. revert He. unfold trace_entry.
    rewrite (use_target_tokenize _ _ Hu0). rewrite decide_True by done.
    rewrite decide_False by (rewrite Hx; by intros [? ?]).
    intros He. by apply IH.
Qed.

End WalkEnters.

(** A key whose pairs all have one value has that value as its first
    write. *)
Lemma first_write_unique k v ws :
  (k, v) ∈ ws -> (forall v', (k, v') ∈ ws -> v' = v) ->
  first_write k ws = Some v.
Proof.
  unfold first_write. induction ws as [|[k' v'] ws IH]; intros Hin Hall.
  - by apply elem_of_nil in Hin.
  - simpl. destruct (decide (k' = k)) as [->|Hne].
    + rewrite bool_decide_eq_true_2 by done. simpl. f_equal.
      apply Hall. by left.
    + rewrite bool_decide_eq_false_2 by done.
      apply IH.
      * apply elem_of_cons in Hin as [[= ? ?]|Hin]; [congruence|done].
      * intros v'' H. apply Hall. by right.
Qed.

(* ================================================================= *)
(** ** The generic handler over a whole resolution *)

(** C7, as amended. Take a resolution of the root [root] that returns,
    against a provider of plain pairs, and a pair of the root or of a
    section that the [use] directives reach from it, whose key begins
    with an operation that is not [use]. After the resolution the data
    under the name of the root have a value for the key of the pair, the
    raw key without the white space around it, and the data under every
    other name, the name of the pair's own section among them, are what
    they were. When the root had no value for the key before, and no pair
    of a reached section has the key with another value, the value stored
    is that of the pair: the raw value, the word None when there is none,
    without the white space and then the double quotes around it. *)
Theorem C7_generic_handler_stores_under_root configdata debug_level
    escalates fuel root st d st' s entries entry op1 op2 :
  plain_provider configdata = true ->
  parse_configuration configdata debug_level escalates fuel root st
  = Ret d st' ->
  reachable configdata root s ->
  configdata !! s = Some entries -> entry ∈ entries ->
  tokenize (entry_key entry) = inr (Some (op1, op2)) -> op1 <> "use" ->
  is_Some (value_of (data st') root (entry_key entry)) /\
  (forall s', s' <> root -> data st' !! s' = data st !! s') /\
  (value_of (data st) root (entry_key entry) = None ->
   (forall s' entries' entry',
      reachable configdata root s' -> configdata !! s' = Some entries' ->
      entry' ∈ entries' -> entry_key entry' = entry_key entry ->
      entry_value entry' = entry_value entry) ->
   value_of (data st') root (entry_key entry) = Some (entry_value entry)).
Proof.
  intros _ Hp Hreach Hcfg Hin Ht Hne.
  assert (root <> EmptyString) as Hr.
  { intros ->. by rewrite parse_configuration_empty_name in Hp. }
  destruct (top_trace configdata debug_level escalates fuel root st Hr)
    as (st0 & Hd0 & _ & _ & Hsim).
  unfold simulates, follows in Hsim. rewrite Hp in Hsim.
  set (t := trace_section configdata escalates fuel root ∅) in *.
  destruct (outcome t) eqn:Ho;
    [|by destruct Hsim as (? & ? & _)|done].
  destruct Hsim as (st1 & Heq & Hd & _).
  assert (st1 = st') as -> by congruence.
  rewrite Hd0 in Hd.
  assert ((entry_key entry, entry_value entry) ∈ writes t) as Hw.
  { apply (trace_section_enters configdata escalates s entries entry op1 op2);
      [done|done|done|done|exact Ho|].
    by apply reachable_walk_enters. }
  split; [|split].
  - rewrite Hd.
    exact (apply_writes_covers root (writes t) (data st) _ Hw).
  - intros s' Hs'. rewrite Hd. by apply apply_writes_other.
  - intros Hfresh Hone. rewrite Hd, apply_writes_lookup, Hfresh.
    apply first_write_unique; [exact Hw|].
    intros v' Hv'.
    destruct (trace_section_writes configdata escalates root fuel root ∅
                (entry_key entry, v') (reach_root configdata root) Hv')
      as (s' & entries' & entry' & Hr' & Hc' & Hi' & Hkv).
    injection Hkv as Hk ->.
    by apply (Hone s' entries' entry').
Qed.

Lemma C7_generic_handler_witness :
  let entry : string * option string :=
    ("key3", Some (String Py.DQUOTE ("q" +:+ String Py.DQUOTE EmptyString))) in
  exists st',
    final_state (parse_configuration cfg_cycle 0 lenient 2 "SEC_X"
                   initial_state) = Some st' /\
    value_of (data st') "SEC_X" "key3" = Some "q" /\
    data st' !! "SEC_Y" = None.
Proof.
  intros entry.
  destruct (parse_configuration cfg_cycle 0 lenient 2 "SEC_X" initial_state)
    as [d st'|e st'|] eqn:H;
    [|vm_compute in H; discriminate H|vm_compute in H; discriminate H].
  exists st'. split; [reflexivity|].
  assert (reachable cfg_cycle "SEC_X" "SEC_Y") as Hreach.
  { apply (reach_use cfg_cycle "SEC_X" "SEC_X"
             [("key1", Some "a"); ("use SEC_Y", None); ("key2", Some "c")]
             ("use SEC_Y", None) "SEC_Y");
      [constructor|reflexivity| |reflexivity].
    apply elem_of_cons. right. apply elem_of_cons. by left. }
  destruct (C7_generic_handler_stores_under_root cfg_cycle 0 lenient 2
              "SEC_X" initial_state d st' "SEC_Y"
              [("key1", Some "b"); ("use SEC_X", None); entry] entry
              "key3" None)
    as (_ & Hother & Hvalue);
    [reflexivity|exact H|exact Hreach|reflexivity| |reflexivity|discriminate|].
  - apply elem_of_cons. right. apply elem_of_cons. right.
    apply elem_of_cons. by left.
  - split; [|by rewrite Hother].
    apply Hvalue; [reflexivity|].
    intros s' entries' entry' _ Hcfg Hin Hkey.
    unfold cfg_cycle in Hcfg.
    apply lookup_insert_Some in Hcfg as [[_ <-]|[_ Hcfg]];
      [|apply lookup_singleton_Some in Hcfg as [_ <-]];
      repeat (apply elem_of_cons in Hin as [->|Hin]);
      try (by apply elem_of_nil in Hin);
      try (vm_compute in Hkey; discriminate Hkey);
      reflexivity.
Defined.

(** C7, as stated, fails on a value written between double quotes: what is
    stored is not the raw value. *)
Lemma C7_counterexample_quoted_value :
  exists raw,
    cfg_quoted !! "SEC_A" = Some [("key1", Some raw)] /\
    match parse_configuration cfg_quoted 0 lenient 1 "SEC_A" initial_state with
    | Ret _ st =>
        exists v,
          (data st !! "SEC_A") ≫= (fun sec => sec !! "key1") = Some v /\
          v <> raw
    | _ => False
    end.
Proof.
  eexists. split; [vm_compute; reflexivity|].
  vm_compute. eexists. split; [reflexivity|]. discriminate.
Qed.

(** X11. A key of the ASCII range that does not begin with a token that
    white space or the end of the key ends, a key with a dot for one, is
    no directive: the section walk goes on to the next key; nothing is
    stored for it and nothing is reported. *)
Theorem key_without_token_is_skipped debug_level escalates parse_r root
    section_name entry d p st :
  ascii_text entry.1 = true ->
  scan_key (entry_key entry) = None ->
  exists st',
    process_entry debug_level escalates parse_r root section_name entry
      (d, p) st = Ret (d, p) st' /\
    data st' = data st /\ sections_checked st' = sections_checked st /\
    reported st' = reported st.
Proof.
  intros _ Hscan. unfold scan_key in Hscan.
  pose proof (regex_op_matcher_scan (entry_key entry)) as Hm.
  destruct (leading_token _) as [[w rest]|]; [done|].
  unfold process_entry.
  change (Py.strip entry.1) with (entry_key entry).
  destruct (loginfo_add_silent root debug_level
              (LogSectionKeyValue (entry_key entry)
                 (Py.strip_chars [Py.DQUOTE] (Py.strip (Py.str entry.2)))) st)
    as (st1 & Hlog & Hd1 & Hc1 & Hr1).
  unfold bind at 1. rewrite Hlog, Hm. exists st1. split; [done|].
  simpl in Hr1. by rewrite app_nil_r in Hr1.
Qed.

Lemma key_without_token_witness :
  exists st',
    process_entry 0 lenient (_parse_configuration_r cfg_dotted 0 lenient 1)
      "SEC_A" "SEC_A" ("my.key", Some "v") (∅, ∅) initial_state
    = Ret (∅, ∅) st' /\
    data st' = ∅.
Proof.
  destruct (key_without_token_is_skipped 0 lenient
              (_parse_configuration_r cfg_dotted 0 lenient 1)
              "SEC_A" "SEC_A" ("my.key", Some "v") ∅ ∅ initial_state)
    as (st' & H & Hd & _); [reflexivity|reflexivity|].
  exists st'. by split.
Defined.

(** *** The log when debugging is off *)

Section QuietLog.

Variable configdata : gmap string (list (string * option string)).
Variable escalates : string -> bool.
Variable root : string.
Variable L : list logentry.

(** The log is [L] and the root is marked. *)
Local Abbreviation K := (fun st => loginfo st = L /\ root ∈ sections_checked st).

Lemma quiet_loginfo_add entry st :
  K st -> ends (fun _ st' => K st') K False (_loginfo_add 0 entry st).
Proof. done. Qed.

Lemma quiet_probe_add p st :
  K st -> ends (fun _ st' => K st') K False (probe_add p st).
Proof. done. Qed.

Lemma quiet_event severity exc message st :
  K st ->
  ends (fun _ st' => K st') K False
    (exception_control_event escalates severity exc message st).
Proof.
  intros Hk. unfold exception_control_event.
  by destruct (escalates severity).
Qed.

Section QuietFrame.

Variable parse_r :
  option string -> option (gmap string string) -> option (gmap string bool) ->
  option string -> M (gmap string string * gmap string bool).

Hypothesis parse_r_quiet : forall n d p st,
  K st ->
  ends (fun _ st' => K st') K True
    (parse_r n (Some d) (Some p) (Some root) st).

Lemma quiet_handler_generic section_name op1 op2 d p key value st :
  K st ->
  ends (fun _ st' => K st') K False
    (_handler_generic 0 parse_r root section_name op1 op2 d p (key, value) st).
Proof.
  intros Hk. unfold _handler_generic.
  eapply ends_seq; [by apply quiet_probe_add|]. intros ? st1 H1.
  eapply ends_seq; [by apply quiet_loginfo_add|]. intros ? st2 H2.
  apply ends_bind. cbn [fst snd].
  destruct (set_checked (parse_configuration_of parse_r) root key value st2)
    as [x ->]; [apply H2|].
  cbn [ends].
  eapply ends_seq; [by apply quiet_loginfo_add|]. by intros ? st3 H3.
Qed.

Lemma quiet_handler_use section_name op1 op2 d p entry st :
  K st ->
  ends (fun _ st' => K st') K True
    (_handler_use 0 escalates parse_r root section_name op1 op2 d p entry st).
Proof.
  intros Hk. unfold _handler_use.
  eapply ends_seq; [by apply quiet_probe_add|]. intros ? st1 H1.
  eapply ends_seq; [by apply quiet_loginfo_add|]. intros ? st2 H2.
  eapply (ends_seq_fuel _ _ (fun _ st' => K st') _ _ True); [|done|].
  - destruct (negb (in_keys op2 p)).
    + by apply parse_r_quiet.
    + eapply ends_seq; [by apply quiet_loginfo_add|]. intros ? st3 H3.
      eapply ends_seq; [by apply quiet_event|]. by intros ? st4 H4.
  - intros [d' p'] st3 H3.
    eapply ends_seq; [by apply quiet_loginfo_add|]. by intros ? st4 H4.
Qed.

Lemma quiet_process_entry section_name entry acc st :
  K st ->
  ends (fun _ st' => K st') K True
    (process_entry 0 escalates parse_r root section_name entry acc st).
Proof.
  intros Hk. destruct acc as [d p]. unfold process_entry.
  eapply ends_seq; [by apply quiet_loginfo_add|]. intros ? st1 H1.
  destruct (regex_op_matcher _) as [e|[m|]]; [done| |done].
  eapply ends_seq; [by apply quiet_loginfo_add|]. intros ? st2 H2.
  destruct (getattr_handler _ _ _ _) as [h|] eqn:Hh.
  - unfold getattr_handler in Hh.
    eapply (ends_seq_fuel _ _ (fun _ st' => K st') _ _ True); [|done|].
    + destruct (decide (_ = "_handler_use")).
      * injection Hh as <-. by apply quiet_handler_use.
      * destruct (decide (_ = "_handler_generic")); [|done].
        injection Hh as <-.
        eapply ends_mono; [| | |by apply quiet_handler_generic]; done.
    + intros [[rval d'] p'] st3 H3.
      eapply (ends_seq _ _ (fun _ st' => K st')).
      * destruct (decide (rval = Some 0)); [exact H3|by apply quiet_event].
      * intros ? st4 H4. exact H4.
  - eapply ends_seq; [by apply quiet_handler_generic|].
    by intros [[rval d'] p'] st3 H3.
Qed.

Lemma quiet_for_each section_name l : forall acc st,
  K st ->
  ends (fun _ st' => K st') K True
    (for_each (process_entry 0 escalates parse_r root section_name) l acc st).
Proof.
  induction l as [|entry l IH]; intros acc st Hk; cbn [for_each]; [done|].
  eapply (ends_seq_fuel _ _ (fun _ st' => K st') _ _ True);
    [by apply quiet_process_entry|done|].
  intros acc' st1 H1. by apply IH.
Qed.

Lemma quiet_parse_section name d0 p0 rootopt st :
  loginfo st = L ->
  (rootopt = Some root /\ root ∈ sections_checked st) \/
  (rootopt = None /\ name = root) ->
  ends (fun _ st' => K st') K True
    (parse_section configdata 0 escalates parse_r name d0 p0 rootopt st).
Proof.
  intros Hl Hroot. unfold parse_section.
  apply ends_bind. cbn [_loginfo_add Nat.ltb Nat.leb ret ends].
  eapply (ends_seq _ _ (fun a st' => K st' /\ a = root)).
  { destruct Hroot as [[-> Hc]|[-> ->]]; simpl; [done|].
    split; [|done]. split; [done|set_solver]. }
  intros ? st2 [H2 ->].
  eapply ends_seq; [by apply quiet_probe_add|].
  intros ? st3 H3.
  destruct (configdata !! name) as [entries|]; [|done].
  apply ends_bind. cbn [ret ends].
  eapply (ends_seq_fuel _ _ (fun _ st' => K st') _ _ True);
    [by apply quiet_for_each|done|].
  intros [d' p'] st4 H4. by simpl.
Qed.

End QuietFrame.

Lemma quiet_walk fuel : forall n d p st,
  K st ->
  ends (fun _ st' => K st') K True
    (_parse_configuration_r configdata 0 escalates fuel n (Some d) (Some p)
       (Some root) st).
Proof.
  induction fuel as [|fuel IH]; intros [name|] d p st Hk;
    [done|done| |done].
  cbn [_parse_configuration_r].
  apply (quiet_parse_section
           (_parse_configuration_r configdata 0 escalates fuel) IH
           name (Some d) (Some p) (Some root) st); [apply Hk|].
  left. split; [done|apply Hk].
Qed.

Lemma quiet_root_frame fuel st :
  loginfo st = L ->
  ends (fun _ st' => K st') K True
    (_parse_configuration_r configdata 0 escalates fuel (Some root) None None
       None st).
Proof.
  intros Hl. destruct fuel as [|fuel]; [done|].
  cbn [_parse_configuration_r].
  apply (quiet_parse_section
           (_parse_configuration_r configdata 0 escalates fuel)
           (quiet_walk fuel) root None None None st); [done|by right].
Qed.

End QuietLog.

(** X12. When debugging is off, at debug level 0, a resolution logs
    nothing: however it ends, the log is empty after it, the log of an
    earlier resolution at a higher level included. The empty section
    name is refused before the log is cleared. *)
Theorem resolution_logs_nothing_at_level_zero configdata escalates fuel root
    st st' :
  final_state (parse_configuration configdata 0 escalates fuel root st)
  = Some st' ->
  loginfo st' = if decide (root = EmptyString) then loginfo st else [].
Proof.
  intros H. destruct (decide (root = EmptyString)) as [->|Hr].
  - rewrite parse_configuration_empty_name in H. by injection H as <-.
  - rewrite parse_configuration_run in H by done.
    pose proof (quiet_root_frame configdata escalates root [] fuel
                  (with_loginfo (fun _ => []) st) eq_refl) as Hq.
    destruct (_parse_configuration_r _ _ _ _ _ _ _ _ _) as [a s1|e s1|];
      simpl in *; [| |done].
    + injection H as <-. apply Hq.
    + injection H as <-. apply Hq.
Qed.

Lemma resolution_logs_nothing_witness :
  let st := with_loginfo (fun _ => [LogSectionEntry "OLD"]) initial_state in
  exists st',
    final_state (parse_configuration cfg_override 0 lenient 2 "SEC_A" st)
    = Some st' /\
    loginfo st' = [].
Proof.
  intros st.
  destruct (parse_configuration cfg_override 0 lenient 2 "SEC_A" st)
    as [d st'|e st'|] eqn:H; [| |vm_compute in H; discriminate H].
  - exists st'. split; [reflexivity|].
    apply (resolution_logs_nothing_at_level_zero cfg_override lenient 2
             "SEC_A" st st'). by rewrite H.
  - exists st'. split; [reflexivity|].
    apply (resolution_logs_nothing_at_level_zero cfg_override lenient 2
             "SEC_A" st st'). by rewrite H.
Defined.


(* ================================================================= *)
(** ** The lazy view *)

Section ViewValues.

Variable pc : string -> M (gmap string string).

Lemma set_value section option value st :
  section ∈ sections_checked st ->
  set pc section option value st
  = Ret (default value (value_of (data st) section option))
      (with_data (store section option value) st).
Proof.
  intros Hc. unfold set, value_of.
  unfold bind at 1. rewrite has_section_checked by done.
  destruct (data st !! section) as [sec|] eqn:Hsec; simpl.
  - unfold bind at 1. simpl.
    unfold bind at 1. unfold gets at 1. simpl.
    unfold bind at 1. unfold getitem at 1. rewrite Hsec. simpl.
    destruct (sec !! option) as [v|] eqn:Hv.
    + unfold bind at 1. rewrite decide_True by eauto. simpl.
      unfold bind, gets, getitem. simpl. rewrite Hsec. simpl. rewrite Hv.
      simpl. f_equal. symmetry. apply with_data_id.
      unfold store. rewrite Hsec. simpl. rewrite Hv. by apply insert_id.
    + unfold bind at 1. rewrite decide_False by (by intros [? ?]).
      unfold modify at 1.
      unfold bind, gets, getitem. simpl.
      rewrite lookup_insert_eq. simpl. rewrite lookup_insert_eq. simpl.
      f_equal. apply with_data_ext.
      unfold store. rewrite Hsec. simpl. by rewrite Hv.
  - unfold bind at 1. unfold add_section at 1.
    unfold bind at 1. rewrite has_section_checked by done.
    rewrite Hsec. simpl.
    unfold bind, gets, getitem, modify. simpl.
    rewrite lookup_insert_eq. simpl. rewrite lookup_empty.
    rewrite decide_False by (by intros [? ?]). simpl.
    rewrite lookup_insert_eq. simpl. rewrite lookup_insert_eq. simpl.
    f_equal. rewrite with_data_with_data. apply with_data_ext.
    unfold store. rewrite Hsec. simpl. rewrite lookup_empty.
    by rewrite insert_insert_eq.
Qed.

Lemma set_unfold section option value st b st1 :
  has_section pc section st = Ret b st1 ->
  has_section pc section st1 = Ret b st1 ->
  set pc section option value st = set pc section option value st1.
Proof.
  intros H H1. unfold set. unfold bind at 1. rewrite H.
  symmetry. unfold bind at 1. by rewrite H1.
Qed.

End ViewValues.

(** X13. [set] is the section query followed by [store]: once
    [has_section] has answered, resolving the section if it has to, [set]
    leaves the option with the value it had, or with the new value if it
    had none, creates the section when the view has no data for it, and
    returns the value that the option has from then on. A value that a
    resolution or an earlier [set] stored is never written over. *)
Theorem set_is_store_after_has_section configdata debug_level escalates fuel
    section option value st b st1 :
  let pc := parse_configuration configdata debug_level escalates fuel in
  has_section pc section st = Ret b st1 ->
  set pc section option value st
  = Ret (default value (value_of (data st1) section option))
      (with_data (store section option value) st1) /\
  forall pc',
    get pc' section option (with_data (store section option value) st1)
    = Ret (default value (value_of (data st1) section option))
        (with_data (store section option value) st1).
Proof.
  intros pc H.
  assert (section ∈ sections_checked st1) as Hc.
  { apply (has_section_checks configdata debug_level escalates fuel section
             st st1). fold pc. by rewrite H. }
  split.
  - rewrite (set_unfold pc section option value st b st1 H).
    + by apply set_value.
    + rewrite has_section_checked by done. f_equal.
      symmetry. by apply (has_section_answer pc section st b st1).
  - intros pc'. rewrite get_checked by done. unfold cached_get.
    pose proof (store_value section option value (data st1) option) as Hv.
    rewrite decide_True in Hv by done.
    unfold value_of in Hv |- *. simpl.
    destruct (store section option value (data st1) !! section) as [sec|];
      simpl in Hv.
    + rewrite Hv. destruct (data st1 !! section) as [sec1|]; simpl; [|done].
      by destruct (sec1 !! option).
    + destruct (data st1 !! section) as [sec1|]; simpl in Hv; [|done].
      by destruct (sec1 !! option).
Qed.

Lemma set_is_store_witness :
  exists st1,
    has_section (parse_configuration cfg_override 0 lenient 2) "SEC_A"
      initial_state = Ret true st1 /\
    set (parse_configuration cfg_override 0 lenient 2) "SEC_A" "key1" "new"
      initial_state
    = Ret "from_A" (with_data (store "SEC_A" "key1" "new") st1).
Proof.
  destruct (has_section (parse_configuration cfg_override 0 lenient 2)
              "SEC_A" initial_state) as [b st1| |] eqn:H;
    [|vm_compute in H; discriminate H|vm_compute in H; discriminate H].
  exists st1.
  destruct (set_is_store_after_has_section cfg_override 0 lenient 2 "SEC_A"
              "key1" "new" initial_state b st1 H) as [Hset _].
  split.
  - f_equal. vm_compute in H. injection H as <- _. reflexivity.
  - rewrite Hset. f_equal.
    vm_compute in H. injection H as _ <-. vm_compute. reflexivity.
Defined.



(** X15. [options] and [__getitem__] are the section query followed by a
    look at the view's data: when [has_section] answers True both return
    the section's dict of the view, and the lookup after the query never
    fails; when it answers False each raises its own key error; and what
    the query raises, both raise. *)
Theorem options_and_getitem_follow_has_section
    (pc : string -> M (gmap string string)) key st :
  match has_section pc key st with
  | Ret true st' =>
      exists sec,
        data st' !! key = Some sec /\
        options pc key st = Ret sec st' /\
        __getitem__ pc key st = Ret sec st'
  | Ret false st' =>
      data st' !! key = None /\
      options pc key st
      = Exc (KeyError ("Section " +:+ key +:+ " does not exist.")) st' /\
      __getitem__ pc key st = Exc (KeyError key) st'
  | Exc e st' =>
      options pc key st = Exc e st' /\ __getitem__ pc key st = Exc e st'
  | Fuel => options pc key st = Fuel /\ __getitem__ pc key st = Fuel
  end.
Proof.
  assert (options pc key st
          = match has_section pc key st with
            | Ret b st' =>
                if b then getitem (data st') key st'
                else Exc (KeyError ("Section " +:+ key +:+
                                      " does not exist.")) st'
            | Exc e st' => Exc e st'
            | Fuel => Fuel
            end) as ->.
  { unfold options, bind. by destruct (has_section pc key st) as [[] ?| |]. }
  assert (__getitem__ pc key st
          = match has_section pc key st with
            | Ret b st' =>
                if b then getitem (data st') key st'
                else Exc (KeyError key) st'
            | Exc e st' => Exc e st'
            | Fuel => Fuel
            end) as ->.
  { unfold __getitem__, bind.
    by destruct (has_section pc key st) as [[] ?| |]. }
  destruct (has_section pc key st) as [b st'|e st'|] eqn:H; [|done|done].
  pose proof (has_section_answer pc key st b st' H) as Hb.
  destruct b.
  - symmetry in Hb. apply bool_decide_eq_true_1 in Hb as [sec Hsec].
    exists sec. split; [done|]. unfold getitem. by rewrite Hsec.
  - symmetry in Hb. apply bool_decide_eq_false_1 in Hb.
    split; [|done]. by apply eq_None_not_Some.
Qed.

Lemma parse_owner_section_keeps configdata debug_level escalates fuel
    section s st st' :
  s ∈ sections_checked st ->
  final_state (parse_owner_section
                 (parse_configuration configdata debug_level escalates fuel)
                 section st) = Some st' ->
  s ∈ sections_checked st'.
Proof.
  intros Hs. unfold parse_owner_section, set_owner_options.
  unfold bind at 1. simpl. unfold bind at 1. simpl.
  set (st0 := with_checked _ st).
  assert (s ∈ sections_checked st0) as H0 by (simpl; set_solver).
  intros Hf. unfold bind in Hf.
  destruct (parse_configuration _ _ _ _ _ st0) as [a s1|e s1|] eqn:Hp;
    simpl in Hf; [| |done].
  - simplify_eq.
    eapply parse_configuration_keeps_checked; [exact H0|]. by rewrite Hp.
  - simplify_eq.
    eapply parse_configuration_keeps_checked; [exact H0|]. by rewrite Hp.
Qed.

Lemma for_each_parse_owner_section configdata debug_level escalates fuel l :
  forall st st',
    for_each
      (fun seci (_ : unit) =>
         parse_owner_section
           (parse_configuration configdata debug_level escalates fuel) seci)
      l tt st = Ret tt st' ->
    (forall s, s ∈ l -> s ∈ sections_checked st') /\
    (forall s, s ∈ sections_checked st -> s ∈ sections_checked st').
Proof.
  induction l as [|x l IH]; intros st st' H; cbn [for_each] in H.
  - injection H as <-. split; [|done]. by intros s Hs%elem_of_nil.
  - unfold bind in H.
    destruct (parse_owner_section _ x st) as [[] st1| |] eqn:Hx; [|done|done].
    destruct (IH st1 st' H) as [Hl Hkeep].
    assert (final_state (parse_owner_section
                           (parse_configuration configdata debug_level
                              escalates fuel) x st) = Some st1) as Hf
      by (by rewrite Hx).
    split.
    + intros s [->|Hs]%elem_of_cons; [|by apply Hl].
      apply Hkeep.
      by apply (parse_owner_section_checks configdata debug_level escalates
                  fuel x st st1).
    + intros s Hs. apply Hkeep.
      by apply (parse_owner_section_keeps configdata debug_level escalates
                  fuel x s st st1).
Qed.

(** Each turn of the loop of [items] is one whole resolution. *)
Lemma for_each_resolved_each configdata debug_level escalates fuel l :
  forall st st',
    for_each
      (fun seci (_ : unit) =>
         parse_owner_section
           (parse_configuration configdata debug_level escalates fuel) seci)
      l tt st = Ret tt st' ->
    resolved_each configdata escalates fuel l st st'.
Proof.
  induction l as [|x l IH]; intros st st' H; cbn [for_each] in H.
  - injection H as <-. by cbn.
  - unfold bind at 1 in H.
    destruct (parse_owner_section _ x st) as [[] st1| |] eqn:Hx; [|done|done].
    cbn [resolved_each]. exists st1.
    unfold parse_owner_section, set_owner_options in Hx.
    unfold bind at 1 in Hx. simpl in Hx. unfold bind at 1 in Hx.
    simpl in Hx.
    set (st0 := with_checked _ st) in Hx.
    unfold bind in Hx.
    destruct (parse_configuration _ _ _ _ x st0) as [d s1|e s1|] eqn:Hp;
      [|done|done].
    simpl in Hx. injection Hx as ->.
    assert (x <> EmptyString) as Hne.
    { intros ->. by rewrite parse_configuration_empty_name in Hp. }
    destruct (top_trace configdata debug_level escalates fuel x st0 Hne)
      as (st0' & Hd0 & Hc0 & Hr0 & Hsim).
    unfold simulates, follows in Hsim. rewrite Hp in Hsim.
    destruct (outcome (trace_section configdata escalates fuel x ∅)) eqn:Ho;
      [|by destruct Hsim as (? & ? & _)|done].
    destruct Hsim as (s2 & Heq & Hd & Hc & Hr).
    assert (s2 = st1) as -> by congruence.
    split; [exact Hne|]. split; [reflexivity|]. split; [|by apply IH].
    unfold resolved. split; [|split].
    + by rewrite Hd, Hd0.
    + rewrite Hc, Hc0. unfold st0. simpl. set_solver.
    + by rewrite Hr, Hr0.
Qed.

(** X16. [items] without a section resolves every section of the
    provider again, in the order of [configdata.keys()], also those
    resolved before. For a provider of plain pairs whose sections are the
    names listed, a call that returns has done one whole resolution of
    each name listed, one after the other, each from the state that the
    one before left: every one of them returned, stored the writes of its
    trace under its own name and recorded its warnings. What [items]
    returns are the view's data after the last; every section of the
    provider is then marked resolved and the marks that were there are
    kept. *)
Theorem items_resolves_every_section configdata debug_level escalates fuel
    section_list st out st' :
  let pc := parse_configuration configdata debug_level escalates fuel in
  plain_provider configdata = true ->
  provider_keys configdata section_list ->
  items pc section_list None st = Ret out st' ->
  out = inl (data st') /\
  resolved_each configdata escalates fuel section_list st st' /\
  (forall s, is_Some (configdata !! s) -> s ∈ sections_checked st') /\
  (forall s, s ∈ sections_checked st -> s ∈ sections_checked st').
Proof.
  intros pc _ Hkeys H. unfold items in H. unfold bind at 1 in H.
  destruct (for_each _ section_list tt st) as [[] st1| |] eqn:Hloop;
    [|done|done].
  unfold bind, gets, ret in H. injection H as <- <-.
  split; [done|].
  split; [by apply (for_each_resolved_each configdata debug_level)|].
  destruct (for_each_parse_owner_section configdata debug_level escalates
              fuel section_list st st1 Hloop) as [Hall Hkeep].
  split; [|exact Hkeep].
  intros s Hs. apply Hall. by apply Hkeys.
Qed.

Lemma items_resolves_every_section_witness :
  exists st',
    items (parse_configuration cfg_override 0 lenient 2) ["SEC_A"; "SEC_B"]
      None initial_state = Ret (inl (data st')) st' /\
    resolved_each cfg_override lenient 2 ["SEC_A"; "SEC_B"] initial_state
      st' /\
    "SEC_B" ∈ sections_checked st'.
Proof.
  assert (exists out st',
            items (parse_configuration cfg_override 0 lenient 2)
              ["SEC_A"; "SEC_B"] None initial_state = Ret out st')
    as (out & st' & H).
  { vm_compute. eexists _, _. reflexivity. }
  assert (provider_keys cfg_override ["SEC_A"; "SEC_B"]) as Hkeys.
  { intros s. split.
    - intros Hs. repeat (apply elem_of_cons in Hs as [->|Hs]);
        [by eexists|by eexists|by apply elem_of_nil in Hs].
    - intros [x Hx]. unfold cfg_override in Hx.
      apply lookup_insert_Some in Hx as [[<- _]|[_ Hx]];
        [apply elem_of_cons; by left|].
      apply lookup_singleton_Some in Hx as [<- _].
      apply elem_of_cons. right. apply elem_of_cons. by left. }
  destruct (items_resolves_every_section cfg_override 0 lenient 2
              ["SEC_A"; "SEC_B"] initial_state out st' eq_refl Hkeys H)
    as (-> & Heach & Hall & _).
  exists st'. split; [exact H|]. split; [exact Heach|].
  apply Hall. by eexists.
Defined.

(** X17. [add_section] is the section query followed by one write: once
    [has_section] has answered, a section that the view has data for is
    left as it is, options and all, and one that it has none for gets the
    empty dict; from then on the section query answers True without a
    look at the provider. *)
Theorem add_section_after_has_section configdata debug_level escalates fuel
    section st b st1 :
  let pc := parse_configuration configdata debug_level escalates fuel in
  has_section pc section st = Ret b st1 ->
  let st2 := if b then st1
             else with_data (fun d => <[section := ∅]> d) st1 in
  add_section pc section st = Ret tt st2 /\
  data st2 !! section = Some (default ∅ (data st1 !! section)) /\
  forall pc', has_section pc' section st2 = Ret true st2.
Proof.
  intros pc H st2.
  assert (section ∈ sections_checked st1) as Hc.
  { apply (has_section_checks configdata debug_level escalates fuel section
             st st1). fold pc. by rewrite H. }
  pose proof (has_section_answer pc section st b st1 H) as Hb.
  assert (section ∈ sections_checked st2) as Hc2 by (subst st2; by destruct b).
  assert (data st2 !! section = Some (default ∅ (data st1 !! section)))
    as Hd2.
  { subst st2. destruct b.
    - symmetry in Hb. apply bool_decide_eq_true_1 in Hb as [sec Hsec].
      by rewrite Hsec.
    - symmetry in Hb. apply bool_decide_eq_false_1 in Hb.
      apply eq_None_not_Some in Hb. rewrite Hb. simpl.
      by rewrite lookup_insert_eq. }
  split; [|split; [exact Hd2|]].
  - unfold add_section. unfold bind. rewrite H. subst st2. by destruct b.
  - intros pc'. rewrite has_section_checked by done. rewrite Hd2.
    by rewrite bool_decide_eq_true_2.
Qed.

Lemma add_section_after_has_section_witness :
  exists st1,
    has_section (parse_configuration cfg_cycle 0 lenient 1) "EXTRA"
      initial_state = Ret false st1 /\
    add_section (parse_configuration cfg_cycle 0 lenient 1) "EXTRA"
      initial_state
    = Ret tt (with_data (fun d => <["EXTRA" := ∅]> d) st1).
Proof.
  destruct (has_section (parse_configuration cfg_cycle 0 lenient 1) "EXTRA"
              initial_state) as [b st1| |] eqn:H;
    [|vm_compute in H; discriminate H|vm_compute in H; discriminate H].
  assert (b = false) as -> by (vm_compute in H; by injection H as <- _).
  exists st1. split; [reflexivity|].
  exact (proj1 (add_section_after_has_section cfg_cycle 0 lenient 1 "EXTRA"
                  initial_state false st1 H)).
Defined.

(* ================================================================= *)
(** ** Debuggable *)

Lemma built_level self :
  Debuggable.built self ->
  match Debuggable._debug_level self with
  | Some level => (0 <= level)%Z
  | None => True
  end.
Proof.
  induction 1 as [|self _ IH|value self _ IH
                  |level message end_ useprefix self _ IH]; simpl.
  - done.
  - unfold Debuggable.debug_level.
    destruct (Debuggable._debug_level self) as [current|] eqn:Hl; simpl.
    + by rewrite Hl.
    + done.
  - lia.
  - unfold Debuggable.debug_message, Debuggable.debug_level.
    destruct (Debuggable._debug_level self) as [current|] eqn:Hl.
    + destruct (level <=? current)%Z; simpl; by rewrite Hl.
    + by destruct (level <=? 0)%Z.
Qed.

Lemma level_zero_printed self message end_ useprefix :
  Debuggable.built self ->
  Debuggable.stdout
    (Debuggable.debug_message 0 message end_ useprefix self)
  = Debuggable.stdout self ++ [message +:+ end_].
Proof.
  intros Hb. apply built_level in Hb.
  unfold Debuggable.debug_message, Debuggable.debug_level.
  destruct (Debuggable._debug_level self) as [current|]; simpl.
  - assert ((0 <=? current)%Z = true) as -> by (apply Z.leb_le; lia).
    done.
  - done.
Qed.

(** X18. The level that an object of the class reads is never negative,
    whatever was assigned to [debug_level] before, so a message of level
    0 is always printed, and printed as it is, with no prefix. *)
Theorem level_zero_message_is_printed self message end_ useprefix :
  Debuggable.built self ->
  (0 <= (Debuggable.debug_level self).1)%Z /\
  Debuggable.stdout
    (Debuggable.debug_message 0 message end_ useprefix self)
  = Debuggable.stdout self ++ [message +:+ end_].
Proof.
  intros Hb. split; [|by apply level_zero_printed].
  apply built_level in Hb. unfold Debuggable.debug_level.
  by destruct (Debuggable._debug_level self).
Qed.

Lemma level_zero_message_witness :
  Debuggable.stdout
    (Debuggable.debug_message 0 "hello" (String Py.LF EmptyString) true
       (Debuggable.debug_level_setter (-5) Debuggable.new).2)
  = ["hello" +:+ String Py.LF EmptyString].
Proof.
  apply (level_zero_message_is_printed
           (Debuggable.debug_level_setter (-5) Debuggable.new).2).
  apply Debuggable.built_set. apply Debuggable.built_new.
Defined.

(** X19. After an assignment to [debug_level] the level is the value
    assigned, or 0 for a negative value, and a message of a level above
    it prints nothing: after a negative value is assigned, every message
    of a positive level is dropped. *)
Theorem message_above_level_is_dropped value level message end_ useprefix
    self :
  (Z.max value 0 < level)%Z ->
  let self' := (Debuggable.debug_level_setter value self).2 in
  (Debuggable.debug_level self').1 = Z.max value 0 /\
  Debuggable.debug_message level message end_ useprefix self' = self'.
Proof.
  intros Hl self'. split; [done|].
  unfold Debuggable.debug_message. simpl.
  assert ((level <=? Z.max value 0)%Z = false) as ->
    by (apply Z.leb_gt; lia).
  done.
Qed.

Lemma message_above_level_witness :
  let self' := (Debuggable.debug_level_setter (-2) Debuggable.new).2 in
  (Debuggable.debug_level self').1 = 0%Z /\
  Debuggable.debug_message 1 "detail" (String Py.LF EmptyString) true self'
  = self'.
Proof.
  apply (message_above_level_is_dropped (-2) 1 "detail"
           (String Py.LF EmptyString) true Debuggable.new).
  reflexivity.
Defined.

(* ================================================================= *)
(** ** Loading the provider *)

Section LoaderFacts.

Context {path : Type}.
Variable Path : string -> path.
Variable path_str : path -> string.
Variable pathlib_message : string -> string.

Lemma convert_fails (l : list (Loader.entry path)) : forall acc ps err,
  Loader.convert Path pathlib_message l acc = (ps, Some err) ->
  exists good bad rest,
    l = good ++ bad :: rest /\
    Loader.convert Path pathlib_message good acc = (ps, None) /\
    Loader.to_path Path pathlib_message bad = inl err.
Proof.
  induction l as [|e l IH]; intros acc ps err H; simpl in H; [done|].
  destruct (Loader.to_path Path pathlib_message e) as [e'|p] eqn:He.
  - injection H as <- <-. by exists [], e, l.
  - destruct (IH _ _ _ H) as (good & bad & rest & -> & Hg & Hb).
    exists (e :: good), bad, rest. split; [done|]. split; [|done].
    simpl. by rewrite He.
Qed.

Lemma configdata_held path_str' is_file cwd read
    (self : Loader.engine path) c :
  Loader._configdata self = Some c ->
  Loader.configdata path_str' is_file cwd read self = (inr c, self).
Proof. intros H. unfold Loader.configdata. by rewrite H. Qed.

(** X20. The first access to [configdata] leaves a parser in the object
    whatever it gives, and every later access returns that parser
    without a look at the paths or the files. After an access that
    raised for a missing file name, an empty list of paths or a path that
    is no file, the parser left is the empty one: the error is raised
    once, and the next access returns an empty configuration. *)
Theorem configdata_is_loaded_once is_file cwd read
    (self : Loader.engine path) :
  let '(r, self') := Loader.configdata path_str is_file cwd read self in
  exists c,
    Loader._configdata self' = Some c /\
    (forall path_str' is_file' cwd' read',
       Loader.configdata path_str' is_file' cwd' read' self'
       = (inr c, self')) /\
    match r with
    | inr c' => c' = c
    | inl (Loader.ErrParser _) => Loader._configdata self = None
    | inl _ => Loader._configdata self = None /\ c = ∅
    end.
Proof.
  unfold Loader.configdata.
  destruct (Loader._configdata self) as [c|] eqn:Hc.
  - exists c. split; [done|]. split; [|done].
    intros. by apply configdata_held.
  - unfold Loader.inifilepath. simpl.
    destruct (Loader._inifilepath self) as [paths|].
    + destruct (Nat.eqb (length paths) 0).
      * exists ∅. split; [done|]. split; [|done].
        intros. by apply configdata_held.
      * destruct (List.find _ paths).
        -- exists ∅. split; [done|]. split; [|done].
           intros. by apply configdata_held.
        -- destruct (read paths) as [c|c msg].
           ++ exists c. split; [done|]. split; [|done].
              intros. by apply configdata_held.
           ++ exists c. split; [done|]. split; [|done].
              intros. by apply configdata_held.
    + exists ∅. split; [done|]. split; [|done].
      intros. by apply configdata_held.
Qed.

(** X21. An assignment to [inifilepath] that succeeds, on an object that
    had paths before, drops the parser, so that the next access to
    [configdata] loads the new paths; the lazy view is not dropped with
    it: its data and its marks are as before, and the sections marked
    resolved go on being answered from the view's data, whatever the new
    files hold. *)
Theorem inifilepath_setter_keeps_the_view v (self : Loader.engine path)
    paths self' :
  is_Some (Loader._inifilepath self) ->
  Loader.inifilepath_setter Path pathlib_message v self = (inr paths, self') ->
  Loader._configdata self' = None /\
  Loader.inifilepath self' = inr paths /\
  data (Loader.view self') = data (Loader.view self) /\
  sections_checked (Loader.view self') = sections_checked (Loader.view self) /\
  forall pc S o,
    S ∈ sections_checked (Loader.view self) ->
    get pc S o (Loader.view self') = cached_get S o (Loader.view self').
Proof.
  intros [old Hold] H. unfold Loader.inifilepath_setter in H.
  rewrite Hold in H.
  assert (forall entries,
            (let '(ps, err) := Loader.convert Path pathlib_message entries [] in
             match err with
             | Some e =>
                 (inl e,
                  {| Loader._inifilepath := Some ps;
                     Loader._configdata := None;
                     Loader.dbg :=
                       Debuggable.debug_message 0
                         "ERROR: invalid entry in `inifilepath` list."
                         (String Py.LF EmptyString) true (Loader.dbg self);
                     Loader.view :=
                       with_loginfo (fun _ => []) (Loader.view self) |})
             | None =>
                 (inr ps,
                  {| Loader._inifilepath := Some ps;
                     Loader._configdata := None;
                     Loader.dbg := Loader.dbg self;
                     Loader.view :=
                       with_loginfo (fun _ => []) (Loader.view self) |})
             end) = (inr paths, self') ->
            Loader._configdata self' = None /\
            Loader.inifilepath self' = inr paths /\
            Loader.view self' = with_loginfo (fun _ => []) (Loader.view self))
    as Hgen.
  { intros entries.
    destruct (Loader.convert Path pathlib_message entries []) as [ps [e|]];
      [done|].
    by intros [= <- <-]. }
  assert (Loader._configdata self' = None /\
          Loader.inifilepath self' = inr paths /\
          Loader.view self' = with_loginfo (fun _ => []) (Loader.view self))
    as (Hc & Hp & Hv).
  { destruct v as [[s|p|t]|l]; [| |done|].
    - by apply (Hgen [Loader.EStr s]).
    - by apply (Hgen [Loader.EPath p]).
    - by apply (Hgen l). }
  split; [done|]. split; [done|]. rewrite Hv. split; [done|].
  split; [done|].
  intros pc S o HS. by apply get_checked.
Qed.

(** X22. An assignment of a list to [inifilepath] that fails on an entry
    that is no path leaves the paths of the entries before it in
    [inifilepath], not the paths that were there; the error raised is the
    type error of that entry, and the message about the invalid entry is
    printed, at any debug level. *)
Theorem inifilepath_setter_failure_keeps_a_prefix l
    (self : Loader.engine path) err self' :
  Debuggable.built (Loader.dbg self) ->
  Loader.inifilepath_setter Path pathlib_message (Loader.VList l) self
  = (inl err, self') ->
  exists good bad rest ps,
    l = good ++ bad :: rest /\
    Loader.convert Path pathlib_message good [] = (ps, None) /\
    Loader.to_path Path pathlib_message bad = inl err /\
    Loader._inifilepath self' = Some ps /\
    Debuggable.stdout (Loader.dbg self')
    = Debuggable.stdout (Loader.dbg self) ++
      ["ERROR: invalid entry in `inifilepath` list." +:+
       String Py.LF EmptyString].
Proof.
  intros Hb H. unfold Loader.inifilepath_setter in H.
  destruct (Loader.convert Path pathlib_message l []) as [ps [e|]] eqn:Hconv.
  - destruct (convert_fails l [] ps e Hconv)
      as (good & bad & rest & Hl & Hg & Hbad).
    exists good, bad, rest, ps.
    assert (Debuggable.built
              (Loader.dbg
                 match Loader._inifilepath self with
                 | Some _ =>
                     {| Loader._inifilepath := Loader._inifilepath self;
                        Loader._configdata := None;
                        Loader.dbg := Loader.dbg self;
                        Loader.view :=
                          with_loginfo (fun _ => []) (Loader.view self) |}
                 | None => self
                 end) /\
            Loader.dbg
              match Loader._inifilepath self with
              | Some _ =>
                  {| Loader._inifilepath := Loader._inifilepath self;
                     Loader._configdata := None;
                     Loader.dbg := Loader.dbg self;
                     Loader.view :=
                       with_loginfo (fun _ => []) (Loader.view self) |}
              | None => self
              end = Loader.dbg self) as [Hb' Hdbg].
    { by destruct (Loader._inifilepath self). }
    injection H as <- <-. simpl.
    split; [done|]. split; [done|]. split; [done|]. split; [done|].
    rewrite level_zero_printed by done. by rewrite Hdbg.
  - by destruct (Loader._inifilepath self).
Qed.

End LoaderFacts.

Lemma inifilepath_setter_keeps_the_view_witness :
  let self : Loader.engine string :=
    {| Loader._inifilepath := Some ["old.ini"];
       Loader._configdata := Some cfg_override;
       Loader.dbg := Debuggable.new;
       Loader.view := with_checked (fun c => c ∪ {[ "SEC_A" ]}) initial_state |} in
  let r := Loader.inifilepath_setter id id (Loader.VOne (Loader.EStr "new.ini"))
             self in
  r.1 = inr ["new.ini"] /\
  Loader._configdata r.2 = None /\
  forall pc o,
    get pc "SEC_A" o (Loader.view r.2) = cached_get "SEC_A" o (Loader.view r.2).
Proof.
  intros self r. split; [reflexivity|].
  destruct (inifilepath_setter_keeps_the_view id id
              (Loader.VOne (Loader.EStr "new.ini")) self ["new.ini"] r.2)
    as (Hc & _ & _ & _ & Hget); [by eexists|reflexivity|].
  split; [exact Hc|]. intros pc o. apply Hget. simpl. set_solver.
Defined.

Lemma inifilepath_setter_failure_witness :
  let self : Loader.engine string :=
    (Loader.__init__ id id (Loader.VOne (Loader.EStr "old.ini"))).2 in
  let l := [Loader.EStr "a.ini"; Loader.EOther "int"; Loader.EStr "c.ini"] in
  let r := Loader.inifilepath_setter id id (Loader.VList l) self in
  r.1 = inl (Loader.ErrType "int") /\
  exists good bad rest ps,
    l = good ++ bad :: rest /\
    Loader.convert id id good [] = (ps, None) /\
    Loader.to_path id id bad = inl (Loader.ErrType "int") /\
    Loader._inifilepath r.2 = Some ps /\
    Debuggable.stdout (Loader.dbg r.2)
    = Debuggable.stdout (Loader.dbg self) ++
      ["ERROR: invalid entry in `inifilepath` list." +:+
       String Py.LF EmptyString].
Proof.
  intros self l r. split; [reflexivity|].
  apply (inifilepath_setter_failure_keeps_a_prefix id id l self
           (Loader.ErrType "int") r.2);
    [apply Debuggable.built_new|reflexivity].
Defined.
